(** * ConfigFileFaultController: identifier resolution, control handshake
      and fault-unit construction

    A shallow embedding of [mininet/fault_controllers/ConfigFileFaultController.py].

    Conventions of the embedding.
    - A Python [str] is a Rocq [string]: each character is one code point
      below 256, so that the letter e with an acute accent is the single
      character of code 233, not the two bytes of its UTF-8 encoding.  Text
      with a code point of 256 or more is not a value of the model.  The
      regular-expression class [\w] is the one Python uses for a [str]
      pattern on these code points: the ASCII letters, the digits, the
      underscore and the alphanumeric characters of Latin-1.
    - [None] is [None]; an optional value is an [option].
    - A Python value of the configuration is a [pyval]; a [dict] is an
      association list in insertion order (the code takes the first key).
    - [log.warn], [log.error] append a record to a log that is threaded
      through the functions that write to it; an f-string is kept as its
      list of literal and interpolated fragments.
    - A pipe end is the FIFO queue of the messages written and not yet read. *)

From Stdlib Require Import String Ascii List ZArith Lia Bool.
From Stdlib Require Import DecimalString DecimalZ.
Import ListNotations.

Local Open Scope string_scope.
Local Open Scope list_scope.

Set Warnings "-register-all".

(** ** Values of the configuration tree *)

Inductive pyval : Type :=
| PNone
| PBool (b : bool)
| PInt (z : Z)
| PStr (s : string)
| PList (l : list pyval)
| PTuple (l : list pyval)
| PDict (d : list (string * pyval)).

(** [d.get(k)]: the value bound to [k], [None] when the key is missing. *)
Fixpoint dict_get (d : list (string * pyval)) (k : string) : option pyval :=
  match d with
  | [] => None
  | (k', v) :: d' => if String.eqb k' k then Some v else dict_get d' k
  end.

(** [d.get(k, default)]. *)
Definition dict_get_default (d : list (string * pyval)) (k : string)
    (default : pyval) : pyval :=
  match dict_get d k with
  | Some v => v
  | None => default
  end.

(** [k in d]. *)
Definition dict_mem (d : list (string * pyval)) (k : string) : bool :=
  match dict_get d k with
  | Some _ => true
  | None => false
  end.

(** ** The log *)

Inductive fragment : Type :=
| Lit (s : string)
| Val (v : pyval).

Inductive log_level : Type := LDebug | LInfo | LWarn | LError.

Definition log_record : Type := (log_level * list fragment)%type.

(** ** Regular expressions of the module

    Every pattern of the module is a sequence of literals and greedy [\w*]
    groups closed by [$].  A [\w*] group is always followed by a literal that
    starts with a non-word character, or by [$], so a shorter match of the
    group can never succeed where the longest one fails: the matcher below
    takes the longest word prefix and never backtracks. *)

Module Regex.

Definition LF : ascii := "010"%char.

(** The one-character string of a line feed. *)
Definition NL : string := String LF EmptyString.

(** [\w] of a [str] pattern (matched without [re.ASCII]) on the code
    points below 256: the digits, the ASCII letters and the underscore,
    and the characters above 127 that [str.isalnum] accepts, which are the
    ordinal indicators (170, 186), the superscript digits (178, 179, 185),
    the micro sign (181), the vulgar fractions (188 to 190) and the
    letters of Latin-1 (192 to 255 without the multiplication sign 215 and
    the division sign 247). *)
Definition is_word (c : ascii) : bool :=
  let n := N_of_ascii c in
  ((48 <=? n) && (n <=? 57) || (65 <=? n) && (n <=? 90)
   || (97 <=? n) && (n <=? 122) || (n =? 95)
   || (n =? 170) || (178 <=? n) && (n <=? 179) || (n =? 181)
   || (185 <=? n) && (n <=? 186) || (188 <=? n) && (n <=? 190)
   || (192 <=? n) && (n <=? 214) || (216 <=? n) && (n <=? 246)
   || (248 <=? n))%N.

(** Greedy [\w*]: the longest word prefix and what follows it. *)
Fixpoint word_star (s : string) : string * string :=
  match s with
  | String c s' =>
      if is_word c
      then let (w, r) := word_star s' in (String c w, r)
      else (EmptyString, s)
  | EmptyString => (EmptyString, EmptyString)
  end.

(** A literal of the pattern: the rest of the subject after it. *)
Fixpoint literal (p s : string) : option string :=
  match p with
  | EmptyString => Some s
  | String c p' =>
      match s with
      | String c' s' => if Ascii.eqb c c' then literal p' s' else None
      | EmptyString => None
      end
  end.

(** [$] without [re.MULTILINE]: the end of the subject, or just before a
    newline that ends it. *)
Definition at_end (s : string) : bool :=
  match s with
  | EmptyString => true
  | String c EmptyString => Ascii.eqb c LF
  | _ => false
  end.

(** [implicit_link_regex], matched with [re.match]: a word group, the
    literal [->], a word group, [$].  The two groups. *)
Definition match_implicit_link (s : string) : option (string * string) :=
  let (g0, r0) := word_star s in
  match literal "->" r0 with
  | Some r1 =>
      let (g1, r2) := word_star r1 in
      if at_end r2 then Some (g0, g1) else None
  | None => None
  end.

(** [explicit_link_regex], matched with [re.match]: a word group, the
    literal [->], a word group, the literal [:], a word group, [$].  The
    three groups. *)
Definition match_explicit_link (s : string)
    : option (string * string * string) :=
  let (g0, r0) := word_star s in
  match literal "->" r0 with
  | Some r1 =>
      let (g1, r2) := word_star r1 in
      match literal ":" r2 with
      | Some r3 =>
          let (g2, r4) := word_star r3 in
          if at_end r4 then Some (g0, g1, g2) else None
      | None => None
      end
  | None => None
  end.

(** [link_fault_regex] and [node_fault_regex], matched with [re.match]: a
    literal prefix, a word group, [$].  The group. *)
Definition match_prefix_word (prefix s : string) : option string :=
  match literal prefix s with
  | Some r0 =>
      let (g0, r1) := word_star r0 in
      if at_end r1 then Some g0 else None
  | None => None
  end.

(** A string made of word characters only. *)
Fixpoint all_word (s : string) : bool :=
  match s with
  | EmptyString => true
  | String c s' => is_word c && all_word s'
  end.

End Regex.

(** ** The topology provider *)

Module Node.
Record t : Type := mk { name : string; pid : Z }.
End Node.

Module Intf.
Record t : Type := mk { name : string; node : Node.t }.
End Intf.

Module Link.
Record t : Type := mk { intf1 : Intf.t; intf2 : Intf.t }.
End Link.

Record Mininet : Type := { hosts : list Node.t; links : list Link.t }.

(** ** ConfigFileFaultControllerStarter: identifier resolution *)

(** Truth value of an optional string: [None] and the empty string are
    false. *)
Definition truthy (o : option string) : bool :=
  match o with
  | Some s => negb (String.eqb s "")
  | None => false
  end.

(** [name == other] for a string against an optional string. *)
Definition eq_opt (name : string) (other : option string) : bool :=
  match other with
  | Some s => String.eqb name s
  | None => false
  end.

(** The three shapes of an identifier string:
    [(nodename_a, nodename_b, explicit_name)]. *)
Definition parse_identifier (identifier_string : string)
    : string * option string * option string :=
  match Regex.match_implicit_link identifier_string with
  | Some (a, b) => (a, Some b, None)
  | None =>
      match Regex.match_explicit_link identifier_string with
      | Some (a, b, e) => (a, Some b, Some e)
      | None => (identifier_string, None, None)
      end
  end.

(** The loop over [net.hosts]: the first host named [nodename_a]. *)
Fixpoint find_host (hs : list Node.t) (nodename_a : string)
    : option Node.t :=
  match hs with
  | [] => None
  | n :: hs' =>
      if String.eqb (Node.name n) nodename_a then Some n
      else find_host hs' nodename_a
  end.

(** The loop over [net.links], started with the current values of
    [corresponding_interface_name] and [corresponding_host]; a [break]
    returns the current values at once. *)
Fixpoint scan_links (ls : list Link.t) (nodename_a : string)
    (nodename_b explicit_name : option string)
    (corresponding_interface_name : option string)
    (corresponding_host : option Node.t)
    : option string * option Node.t :=
  match ls with
  | [] => (corresponding_interface_name, corresponding_host)
  | link :: ls' =>
      let n1 := Node.name (Intf.node (Link.intf1 link)) in
      let n2 := Node.name (Intf.node (Link.intf2 link)) in
      if String.eqb n1 nodename_a && eq_opt n2 nodename_b then
        let i := Intf.name (Link.intf1 link) in
        let h := Intf.node (Link.intf1 link) in
        if truthy explicit_name then
          if eq_opt i explicit_name then (Some i, Some h)
          else scan_links ls' nodename_a nodename_b explicit_name None None
        else scan_links ls' nodename_a nodename_b explicit_name
               (Some i) (Some h)
      else if eq_opt n1 nodename_b && String.eqb n2 nodename_a then
        let i := Intf.name (Link.intf2 link) in
        let h := Intf.node (Link.intf2 link) in
        if truthy explicit_name then
          if eq_opt i explicit_name then (Some i, Some h)
          else scan_links ls' nodename_a nodename_b explicit_name None None
        else scan_links ls' nodename_a nodename_b explicit_name
               (Some i) (Some h)
      else scan_links ls' nodename_a nodename_b explicit_name
             corresponding_interface_name corresponding_host
  end.

(** [str(x)] of an optional string inside an f-string. *)
Definition fmt_opt (o : option string) : fragment :=
  match o with
  | Some s => Val (PStr s)
  | None => Val PNone
  end.

(** [_get_node_and_interface_name_from_identifier_string]: the pair
    [(corresponding_interface_name, corresponding_host)] and the warnings
    written. *)
Definition _get_node_and_interface_name_from_identifier_string
    (net : Mininet) (identifier_string : option string)
    : (option string * option Node.t) * list log_record :=
  match identifier_string with
  | None => ((None, None), [])
  | Some s =>
      let '(nodename_a, nodename_b, explicit_name) := parse_identifier s in
      let found :=
        match nodename_b with
        | None => find_host (hosts net) nodename_a
        | Some _ => None
        end in
      match found with
      | Some node => ((None, Some node), [])
      | None =>
          let '(corresponding_interface_name, corresponding_host) :=
            scan_links (links net) nodename_a nodename_b explicit_name
              None None in
          match corresponding_interface_name with
          | None =>
              if truthy explicit_name then
                ((None, None),
                 [(LWarn, [Lit "Couldn't find interface ";
                           fmt_opt explicit_name;
                           Lit " between hosts "; Val (PStr nodename_a);
                           Lit " and "; fmt_opt nodename_b;
                           Lit (". Are all names correct?..." ++ Regex.NL)])])
              else
                ((None, None),
                 [(LWarn, [Lit "Couldn't find fitting interface between hosts ";
                           Val (PStr nodename_a);
                           Lit " and "; fmt_opt nodename_b;
                           Lit (". Are both names correct?..." ++ Regex.NL)])])
          | Some _ => ((corresponding_interface_name, corresponding_host), [])
          end
      end
  end.

(** [_get_passable_identifiers_from_node_and_interface_name]:
    [(process_group_id, interface_name)]. *)
Definition _get_passable_identifiers_from_node_and_interface_name
    (corresponding_interface_name : option string)
    (corresponding_node : option Node.t) : option Z * option string :=
  match corresponding_node with
  | None => (None, None)
  | Some node => (Some (Node.pid node), corresponding_interface_name)
  end.

(** [_get_mininet_agnostic_identifiers_from_identifier_string]:
    [(process_group_id, interface_name, identifier_string)]. *)
Definition _get_mininet_agnostic_identifiers_from_identifier_string
    (net : Mininet) (identifier_string : option string)
    : option Z * option string * option string :=
  let '(corresponding_interface_name, corresponding_host) :=
    fst (_get_node_and_interface_name_from_identifier_string
           net identifier_string) in
  let '(process_group_id, interface_name) :=
    _get_passable_identifiers_from_node_and_interface_name
      corresponding_interface_name corresponding_host in
  (process_group_id, interface_name, identifier_string).

(** [_is_string_in_arrow_pattern]. *)
Definition _is_string_in_arrow_pattern (identifier_string : string) : bool :=
  match Regex.match_implicit_link identifier_string with
  | Some _ => true
  | None =>
      match Regex.match_explicit_link identifier_string with
      | Some _ => true
      | None => false
      end
  end.


(** ** Transfer encoding of an identifier: [repr] and [ast.literal_eval]

    Both are Python built-ins.  [repr] is modelled on the values the
    controller passes to it: [None], integers, strings and tuples of these.
    [literal_eval] is modelled on the literal syntax such a [repr] can emit:
    [None], [True], [False], decimal integers, short string literals and one
    level of parenthesised tuples; any other text is reported as a failure.
    The model is therefore [literal_eval] on the texts the controller
    writes, not on every text: list, dictionary and set displays, nested
    tuples, floating point and prefixed literals are evaluated by Python
    and are failures here, and a number written with leading zeros is read
    here and refused by Python.  A name other than the three constants is
    a failure whatever characters it holds. *)

Module Literal.

Definition QUOTE : ascii := "'"%char.
Definition DQUOTE : ascii := "034"%char.
Definition BACKSLASH : ascii := "\"%char.
Definition TAB : ascii := "009"%char.
Definition CR : ascii := "013"%char.

(** *** [repr] *)

(** One lower-case hexadecimal digit. *)
Definition hex_digit (n : N) : ascii :=
  (if n <? 10 then ascii_of_N (48 + n) else ascii_of_N (87 + n))%N.

(** The escape [\xHH] of a character. *)
Definition hex_escape (c : ascii) : string :=
  let n := N_of_ascii c in
  String BACKSLASH (String "x"
    (String (hex_digit (n / 16)) (String (hex_digit (n mod 16)) ""))).

(** [c in s] for a character. *)
Fixpoint contains (s : string) (c : ascii) : bool :=
  match s with
  | EmptyString => false
  | String c' s' => Ascii.eqb c' c || contains s' c
  end.

(** The quote [repr] chooses: a double quote when the string holds a single
    quote and no double quote, a single quote otherwise. *)
Definition choose_quote (s : string) : ascii :=
  if contains s QUOTE && negb (contains s DQUOTE) then DQUOTE else QUOTE.

(** Printable characters above ASCII, for 8-bit characters: all of
    Latin-1 but the C1 controls, the no-break space and the soft hyphen. *)
Definition printable_high (n : N) : bool :=
  (negb (n <=? 160) && negb (n =? 173))%N.

(** What [repr] writes for one character inside the quotes [q]. *)
Definition escape_char (q c : ascii) : string :=
  let n := N_of_ascii c in
  if Ascii.eqb c q || Ascii.eqb c BACKSLASH then String BACKSLASH (String c "")
  else if Ascii.eqb c TAB then String BACKSLASH "t"
  else if Ascii.eqb c Regex.LF then String BACKSLASH "n"
  else if Ascii.eqb c CR then String BACKSLASH "r"
  else if ((n <? 32) || (n =? 127))%N then hex_escape c
  else if (n <? 127)%N then String c ""
  else if printable_high n then String c ""
  else hex_escape c.

Fixpoint escape (q : ascii) (s : string) : string :=
  match s with
  | EmptyString => EmptyString
  | String c s' => escape_char q c ++ escape q s'
  end.

Definition repr_str (s : string) : string :=
  let q := choose_quote s in
  String q (escape q s ++ String q "").

Definition repr_int (z : Z) : string :=
  NilZero.string_of_int (Z.to_int z).

(** An identifier tuple as a Python value. *)
Definition triple_value (t : option Z * option string * option string)
    : pyval :=
  let '(p, i, r) := t in
  PTuple [match p with Some z => PInt z | None => PNone end;
          match i with Some s => PStr s | None => PNone end;
          match r with Some s => PStr s | None => PNone end].

Definition repr_opt_int (o : option Z) : string :=
  match o with Some z => repr_int z | None => "None" end.

Definition repr_opt_str (o : option string) : string :=
  match o with Some s => repr_str s | None => "None" end.

(** [repr] of a three-element tuple. *)
Definition repr_triple (t : option Z * option string * option string)
    : string :=
  let '(p, i, r) := t in
  "(" ++ repr_opt_int p ++ ", " ++ repr_opt_str i ++ ", "
      ++ repr_opt_str r ++ ")".

(** *** [literal_eval]: tokens *)

Inductive token : Type :=
| TLParen
| TRParen
| TComma
| TName (s : string)
| TNumber (s : string)
| TString (s : string).

Inductive lex_state : Type :=
| LStart
| LName (acc : string)
| LNumber (acc : string)
| LStr (q : ascii) (acc : string)
| LEsc (q : ascii) (acc : string)
| LHex1 (q : ascii) (acc : string)
| LHex2 (q : ascii) (acc : string) (d : N).

Definition is_digit (c : ascii) : bool :=
  let n := N_of_ascii c in ((48 <=? n) && (n <=? 57))%N.

Definition hex_val (c : ascii) : option N :=
  let n := N_of_ascii c in
  (if (48 <=? n) && (n <=? 57) then Some (n - 48)
   else if (97 <=? n) && (n <=? 102) then Some (n - 87)
   else if (65 <=? n) && (n <=? 70) then Some (n - 55)
   else None)%N.

Definition snoc (acc : string) (c : ascii) : string :=
  acc ++ String c "".

(** A character read between two tokens: the tokens it completes and the
    state it leaves. *)
Definition from_start (c : ascii) : option (list token * lex_state) :=
  if Ascii.eqb c "(" then Some ([TLParen], LStart)
  else if Ascii.eqb c ")" then Some ([TRParen], LStart)
  else if Ascii.eqb c "," then Some ([TComma], LStart)
  else if Ascii.eqb c " " then Some ([], LStart)
  else if Ascii.eqb c QUOTE || Ascii.eqb c DQUOTE then Some ([], LStr c "")
  else if is_digit c || Ascii.eqb c "-" then Some ([], LNumber (String c ""))
  else if Regex.is_word c then Some ([], LName (String c ""))
  else None.

Definition emit (t : token) (r : option (list token * lex_state))
    : option (list token * lex_state) :=
  match r with
  | Some (ts, st) => Some (t :: ts, st)
  | None => None
  end.

Definition step (st : lex_state) (c : ascii)
    : option (list token * lex_state) :=
  match st with
  | LStart => from_start c
  | LName acc =>
      if Regex.is_word c then Some ([], LName (snoc acc c))
      else emit (TName acc) (from_start c)
  | LNumber acc =>
      if is_digit c then Some ([], LNumber (snoc acc c))
      else emit (TNumber acc) (from_start c)
  | LStr q acc =>
      if Ascii.eqb c q then Some ([TString acc], LStart)
      else if Ascii.eqb c BACKSLASH then Some ([], LEsc q acc)
      else if Ascii.eqb c Regex.LF || Ascii.eqb c CR then None
      else Some ([], LStr q (snoc acc c))
  | LEsc q acc =>
      if Ascii.eqb c BACKSLASH || Ascii.eqb c QUOTE || Ascii.eqb c DQUOTE
      then Some ([], LStr q (snoc acc c))
      else if Ascii.eqb c "t" then Some ([], LStr q (snoc acc TAB))
      else if Ascii.eqb c "n" then Some ([], LStr q (snoc acc Regex.LF))
      else if Ascii.eqb c "r" then Some ([], LStr q (snoc acc CR))
      else if Ascii.eqb c "x" then Some ([], LHex1 q acc)
      else None
  | LHex1 q acc =>
      match hex_val c with
      | Some d => Some ([], LHex2 q acc d)
      | None => None
      end
  | LHex2 q acc d =>
      match hex_val c with
      | Some e => Some ([], LStr q (snoc acc (ascii_of_N (16 * d + e))))
      | None => None
      end
  end.

(** End of the text: a name or a number ends there, an open string literal
    is an error. *)
Definition finish (st : lex_state) : option (list token) :=
  match st with
  | LStart => Some []
  | LName acc => Some [TName acc]
  | LNumber acc => Some [TNumber acc]
  | _ => None
  end.

Fixpoint lex (st : lex_state) (s : string) : option (list token) :=
  match s with
  | EmptyString => finish st
  | String c s' =>
      match step st c with
      | Some (ts, st') =>
          match lex st' s' with
          | Some ts' => Some (ts ++ ts')
          | None => None
          end
      | None => None
      end
  end.

(** *** [literal_eval]: values *)

Definition atom_of_token (t : token) : option pyval :=
  match t with
  | TName s =>
      if String.eqb s "None" then Some PNone
      else if String.eqb s "True" then Some (PBool true)
      else if String.eqb s "False" then Some (PBool false)
      else None
  | TNumber s =>
      match NilZero.int_of_string s with
      | Some d => Some (PInt (Z.of_int d))
      | None => None
      end
  | TString s => Some (PStr s)
  | _ => None
  end.

(** The members of a tuple display, after its opening parenthesis. *)
Fixpoint parse_items (ts : list token) : option (list pyval) :=
  match ts with
  | [TRParen] => Some []
  | [t; TRParen] =>
      match atom_of_token t with
      | Some v => Some [v]
      | None => None
      end
  | t :: TComma :: ts' =>
      match atom_of_token t, parse_items ts' with
      | Some v, Some vs => Some (v :: vs)
      | _, _ => None
      end
  | _ => None
  end.

(** [literal_eval(s)]; [None] when it raises. *)
Definition literal_eval (s : string) : option pyval :=
  match lex LStart s with
  | Some [t] => atom_of_token t
  | Some [TLParen; t; TRParen] => atom_of_token t
  | Some (TLParen :: ts) =>
      match parse_items ts with
      | Some vs => Some (PTuple vs)
      | None => None
      end
  | _ => None
  end.

(** A delimiter that follows a member of a tuple display. *)
Definition delimiter (c : ascii) : Prop := c = ","%char \/ c = ")"%char.

(** A string of decimal digits. *)
Fixpoint all_digits (s : string) : bool :=
  match s with
  | EmptyString => true
  | String c s' => is_digit c && all_digits s'
  end.

End Literal.


(** ** Operations on configuration values *)

(** The values [for x in v] visits; [None] when [v] is not iterable. *)
Fixpoint chars (s : string) : list pyval :=
  match s with
  | EmptyString => []
  | String c s' => PStr (String c "") :: chars s'
  end.

Definition py_iter (v : pyval) : option (list pyval) :=
  match v with
  | PList l => Some l
  | PTuple l => Some l
  | PDict d => Some (map (fun kv => PStr (fst kv)) d)
  | PStr s => Some (chars s)
  | _ => None
  end.

Definition is_str (k : string) (v : pyval) : bool :=
  match v with
  | PStr s => String.eqb s k
  | _ => false
  end.

(** [k in v] for a string [k]; [None] when it raises. *)
Definition py_contains (v : pyval) (k : string) : option bool :=
  match v with
  | PDict d => Some (dict_mem d k)
  | PList l => Some (existsb (is_str k) l)
  | PTuple l => Some (existsb (is_str k) l)
  | PStr s =>
      Some (match String.index 0 k s with Some _ => true | None => false end)
  | _ => None
  end.

(** [v.get(k, default)]; only a [dict] has the method. *)
Definition py_get (v : pyval) (k : string) (default : pyval)
    : option pyval :=
  match v with
  | PDict d => Some (dict_get_default d k default)
  | _ => None
  end.

(** [list(v.keys())[0]]. *)
Definition first_key (v : pyval) : option string :=
  match v with
  | PDict ((k, _) :: _) => Some k
  | _ => None
  end.

(** [v[n]]. *)
Definition py_index (v : pyval) (n : nat) : option pyval :=
  match v with
  | PList l => nth_error l n
  | PTuple l => nth_error l n
  | PStr s =>
      match String.get n s with
      | Some c => Some (PStr (String c ""))
      | None => None
      end
  | _ => None
  end.

(** [a + b] where a string is expected: defined on two strings. *)
Definition str_add (a b : pyval) : option pyval :=
  match a, b with
  | PStr x, PStr y => Some (PStr (x ++ y))
  | _, _ => None
  end.

(** [literal_eval(v)] of a configuration value. *)
Definition literal_eval_value (v : pyval) : option pyval :=
  match v with
  | PStr s => Literal.literal_eval s
  | _ => None
  end.

(** ** ConfigFileFaultControllerStarter: the transferred identifiers *)

(** The loop that fills [new_identifier_strings]. *)
Definition new_identifier_strings (net : Mininet)
    (identifiers : list (option string)) : list pyval :=
  map (fun identifier_string =>
         PStr (Literal.repr_triple
                 (_get_mininet_agnostic_identifiers_from_identifier_string
                    net identifier_string)))
      identifiers.

(** ** ConfigFileFaultController: building the fault units *)

Record LinkInjector : Type := {
  target_interface : pyval;
  target_namespace_pid : pyval;
  link_tag : pyval;
  fault_target_protocol : pyval;
  fault_target_dst_ports : pyval;
  fault_target_src_ports : pyval;
  link_fault_type : string;
  link_fault_pattern : pyval;
  link_fault_args : pyval;
  link_fault_pattern_args : pyval;
  link_pre_injection_time : pyval;
  link_injection_time : pyval;
  link_post_injection_time : pyval }.

Record NodeInjector : Type := {
  target_process_pid : pyval;
  node_fault_type : string;
  node_tag : pyval;
  node_pre_injection_time : pyval;
  node_injection_time : pyval;
  node_post_injection_time : pyval;
  node_fault_pattern : pyval;
  node_fault_args : pyval;
  node_fault_pattern_args : pyval }.

Inductive injector : Type :=
| ILink (i : LinkInjector)
| INode (n : NodeInjector).

Definition tag (u : injector) : pyval :=
  match u with
  | ILink i => link_tag i
  | INode n => node_tag n
  end.

(** The state the construction threads: how many tokens [uuid.uuid4] has
    handed out, and the log. *)
Record cfg_state : Type := { next_uuid : nat; log : list log_record }.

(** A computation that may raise: [None] is a propagating exception. *)
Definition M (A : Type) : Type := cfg_state -> option (A * cfg_state).

Definition ret {A : Type} (a : A) : M A := fun st => Some (a, st).

Definition bind {A B : Type} (m : M A) (f : A -> M B) : M B :=
  fun st =>
    match m st with
    | Some (a, st') => f a st'
    | None => None
    end.

(** A step that raises when the operation is undefined. *)
Definition lift {A : Type} (o : option A) : M A :=
  fun st =>
    match o with
    | Some a => Some (a, st)
    | None => None
    end.

Definition write_log (lvl : log_level) (msg : list fragment) : M unit :=
  fun st =>
    Some (tt, {| next_uuid := next_uuid st; log := log st ++ [(lvl, msg)] |}).

Declare Scope cfg_scope.
Delimit Scope cfg_scope with cfg.
Notation "x <- m ;; k" := (bind m (fun x => k))
  (at level 61, m at next level, right associativity) : cfg_scope.
Notation "' p <- m ;; k" := (bind m (fun p => k))
  (at level 61, p pattern, m at next level, right associativity) : cfg_scope.
Notation "m ;;; k" := (bind m (fun _ => k))
  (at level 61, right associativity) : cfg_scope.

(** A loop that collects what each iteration appends. *)
Fixpoint for_each {A B : Type} (f : A -> M (list B)) (l : list A)
    : M (list B) :=
  match l with
  | [] => ret []
  | a :: l' =>
      (bs <- f a ;; bs' <- for_each f l' ;; ret (bs ++ bs'))%cfg
  end.

Definition protocols : list string :=
  ["ICMP"; "IGMP"; "IP"; "TCP"; "UDP"; "IPv6"; "IPv6-ICMP"; "any"].

(** [v in protocols]. *)
Definition in_protocols (v : pyval) : bool :=
  match v with
  | PStr s => existsb (String.eqb s) protocols
  | _ => false
  end.

(** [_get_target_arguments_from_fault_dict]:
    [(fault_target_protocol, src_port, dst_port)]. *)
Definition _get_target_arguments_from_fault_dict (fault_dict : pyval)
    : M (pyval * pyval * pyval) :=
  (has <- lift (py_contains fault_dict "target_traffic") ;;
   if has : bool then
     traffic_object <- lift (py_get fault_dict "target_traffic" PNone) ;;
     p <- lift (py_get traffic_object "protocol" (PStr "any")) ;;
     p' <- (if negb (in_protocols p) then
              write_log LError
                [Lit "Fault target protocol "; Val p;
                 Lit " is unknown, injecting any instead"] ;;;
              ret (PStr "any")
            else ret p) ;;
     src_port <- lift (py_get traffic_object "src_port" PNone) ;;
     dst_port <- lift (py_get traffic_object "dst_port" PNone) ;;
     ret (p', src_port, dst_port)
   else ret (PStr "any", PNone, PNone))%cfg.

Section Construction.

(** The tokens [str(uuid.uuid4())] returns, in the order of the calls. *)
Variable uuid4 : nat -> string.

Definition fresh_tag : M pyval :=
  fun st =>
    Some (PStr (uuid4 (next_uuid st)),
          {| next_uuid := S (next_uuid st); log := log st |}).

(** The body of the loop over [config.get(faults)]: the units one fault
    entry appends to [self.faults]. *)
Definition config_fault_object (fault_object : pyval) : M (list injector) :=
  (fault_type <- lift (first_key fault_object) ;;
   fault_dict <- lift (py_get fault_object fault_type PNone) ;;
   '(fault_target_protocol, src_port, dst_port) <-
      _get_target_arguments_from_fault_dict fault_dict ;;
   fault_args <- lift (py_get fault_dict "type_args" PNone) ;;
   tag0 <- lift (py_get fault_dict "tag" PNone) ;;
   tag <- (match tag0 with PNone => fresh_tag | _ => ret tag0 end) ;;
   fault_pattern <- lift (py_get fault_dict "pattern" (PStr "persistent")) ;;
   fault_pattern_args <- lift (py_get fault_dict "pattern_args" PNone) ;;
   pre_injection_time <- lift (py_get fault_dict "pre_injection_time" PNone) ;;
   injection_time <- lift (py_get fault_dict "injection_time" PNone) ;;
   post_injection_time <-
      lift (py_get fault_dict "post_injection_time" PNone) ;;
   fault_type_value <- lift (py_get fault_dict "type" PNone) ;;
   match fault_type_value with
   | PNone => write_log LWarn [Lit ("No fault type set" ++ Regex.NL)] ;;; ret []
   | PStr ty =>
       match Regex.match_prefix_word "link_fault:" ty with
       | Some fault_type =>
           identifiers <- lift (py_get fault_dict "identifiers" PNone) ;;
           identifier_strings <- lift (py_iter identifiers) ;;
           for_each (fun identifier_string =>
             identifier_tuple <- lift (literal_eval_value identifier_string) ;;
             node_process_pid <- lift (py_index identifier_tuple 0) ;;
             corresponding_interface_name <-
               lift (py_index identifier_tuple 1) ;;
             node_string_reference <- lift (py_index identifier_tuple 2) ;;
             tag_at <- lift (str_add tag (PStr "@")) ;;
             actual_tag <- lift (str_add tag_at node_string_reference) ;;
             ret [ILink
               {| target_interface := corresponding_interface_name;
                  target_namespace_pid := node_process_pid;
                  link_tag := actual_tag;
                  fault_target_protocol := fault_target_protocol;
                  fault_target_dst_ports := dst_port;
                  fault_target_src_ports := src_port;
                  link_fault_type := fault_type;
                  link_fault_pattern := fault_pattern;
                  link_fault_args := fault_args;
                  link_fault_pattern_args := fault_pattern_args;
                  link_pre_injection_time := pre_injection_time;
                  link_injection_time := injection_time;
                  link_post_injection_time := post_injection_time |}])
             identifier_strings
       | None =>
           match Regex.match_prefix_word "node_fault:" ty with
           | Some fault_type =>
               identifiers <- lift (py_get fault_dict "identifiers" PNone) ;;
               identifier_strings <- lift (py_iter identifiers) ;;
               for_each (fun identifier_string =>
                 identifier_tuple <-
                   lift (literal_eval_value identifier_string) ;;
                 node_process_pid <- lift (py_index identifier_tuple 0) ;;
                 node_string_reference <- lift (py_index identifier_tuple 2) ;;
                 tag_at <- lift (str_add tag (PStr "@")) ;;
                 actual_tag <- lift (str_add tag_at node_string_reference) ;;
                 ret [INode
                   {| target_process_pid := node_process_pid;
                      node_fault_type := fault_type;
                      node_tag := actual_tag;
                      node_pre_injection_time := pre_injection_time;
                      node_injection_time := injection_time;
                      node_post_injection_time := post_injection_time;
                      node_fault_pattern := fault_pattern;
                      node_fault_args := fault_args;
                      node_fault_pattern_args := fault_pattern_args |}])
                 identifier_strings
           | None =>
               write_log LWarn
                 [Lit "Fault type unknown:'"; Val fault_type_value;
                  Lit ("'" ++ Regex.NL)] ;;;
               ret []
           end
       end
   | _ => lift None
   end)%cfg.

(** [_configByFile]: the final value of [self.faults]. *)
Definition _configByFile (config : pyval) : M (list injector) :=
  (faults <- lift (py_get config "faults" PNone) ;;
   fault_objects <- lift (py_iter faults) ;;
   for_each config_fault_object fault_objects)%cfg.

End Construction.


(** The protocol a unit was built with is a known one. *)
Definition known_protocol (u : injector) : Prop :=
  match u with
  | ILink i => in_protocols (fault_target_protocol i) = true
  | INode _ => True
  end.

(** The text the controller transfers for an identifier triple whose
    reference is [r]. *)
Definition transferred (t : option Z * option string * string) : pyval :=
  PStr (Literal.repr_triple (fst (fst t), snd (fst t), Some (snd t))).

(** The tag of the entry: the one configured, or the next token. *)
Definition entry_tag (uuid4 : nat -> string) (d : list (string * pyval))
    (st : cfg_state) : string :=
  match dict_get d "tag" with
  | Some (PStr s) => s
  | _ => uuid4 (next_uuid st)
  end.

(** ** The control channel *)

Definition MESSAGE_SETUP_DONE : string := "m_faultinjector_ready".
Definition MESSAGE_SETUP_ERROR : string := "m_faultinjector_setuperror".
Definition MESSAGE_START_INJECTING : string := "m_faultinjector_go".
Definition MESSAGE_INJECTION_DONE : string := "m_faultinjector_done".
Definition MESSAGE_WRITE_LOGS : string := "m_write_logs".

(** One direction of the channel: the messages written and not yet read,
    oldest first.  Both ends of each pipe stay open in the controller, so
    a reader never sees the end of the stream. *)
Definition pipe : Type := list string.

(** [poll()]: is a message pending? *)
Definition poll (p : pipe) : bool :=
  match p with
  | [] => false
  | _ :: _ => true
  end.

(** [send_bytes(m)]. *)
Definition send_bytes (p : pipe) (m : string) : pipe := p ++ [m].

(** [recv_bytes()]: the oldest message and the pipe without it; [None]
    when nothing is pending, where the call blocks. *)
Definition recv_bytes (p : pipe) : option (string * pipe) :=
  match p with
  | [] => None
  | m :: p' => Some (m, p')
  end.

(** ** ConfigFileFaultControllerStarter: [go] and [is_active] *)

Module Starter.

(** The fields of the object the two methods use; [atexit] counts the
    registered calls of [notify_to_write_to_logfile]. *)
Record t : Type := mk {
  faults_are_active : bool;
  logger_active : bool;
  send_pipe_mininet_to_faults : pipe;
  recv_pipe_faults_to_mininet : pipe;
  atexit : nat }.

(** The object as [__init__] leaves it, given the state of the two pipes. *)
Definition init (logger : bool) (to_faults to_mininet : pipe) : t :=
  mk false logger to_faults to_mininet 0.

Definition go (self : t) : t :=
  mk true
     (logger_active self)
     (send_bytes (send_pipe_mininet_to_faults self) MESSAGE_START_INJECTING)
     (recv_pipe_faults_to_mininet self)
     (if logger_active self then S (atexit self) else atexit self).

(** [is_active]: the value returned and the object afterwards; [None] when
    the call blocks. *)
Definition is_active (self : t) : option (bool * t) :=
  if negb (faults_are_active self) then Some (false, self)
  else if negb (poll (recv_pipe_faults_to_mininet self)) then Some (true, self)
  else
    match recv_bytes (recv_pipe_faults_to_mininet self) with
    | None => None
    | Some (potential_done_message, rest) =>
        if String.eqb potential_done_message MESSAGE_INJECTION_DONE then
          Some (false,
                mk false (logger_active self)
                   (send_pipe_mininet_to_faults self) rest (atexit self))
        else
          Some (true,
                mk (faults_are_active self) (logger_active self)
                   (send_pipe_mininet_to_faults self) rest (atexit self))
    end.

(** What happens to the controller between and during its calls: the
    injector writes a message, or the caller calls [is_active]. *)
Inductive action : Type :=
| Arrives (m : string)
| CallIsActive.

Definition arrive (m : string) (self : t) : t :=
  mk (faults_are_active self) (logger_active self)
     (send_pipe_mininet_to_faults self)
     (send_bytes (recv_pipe_faults_to_mininet self) m) (atexit self).

(** The values the calls of [is_active] return along a sequence of
    actions, and the final object; [None] when a call blocks. *)
Fixpoint run (acts : list action) (self : t) : option (list bool * t) :=
  match acts with
  | [] => Some ([], self)
  | Arrives m :: acts' => run acts' (arrive m self)
  | CallIsActive :: acts' =>
      match is_active self with
      | None => None
      | Some (b, self') =>
          match run acts' self' with
          | None => None
          | Some (bs, self'') => Some (b :: bs, self'')
          end
      end
  end.

End Starter.

(** ** ConfigFileFaultController: the run sequence [go]

    The coroutine is followed through the events it causes.  The fault
    units and the event loop are outside the module: the order in which the
    units finish, and how each finishes, is the schedule. *)

Module Run.

Inductive awaitable : Type := LogTask | LogTaskActivator.

Inductive event : Type :=
| Debug (msg : string)
| FaultCoroutine (i : nat)
| CreateTask (a : awaitable)
| CreateCoroutine (a : awaitable)
| FaultReturned (i : nat)
| FaultRaised (i : nat)
| Send (m : string)
| LoggerStop
| Await (a : awaitable).

Inductive outcome : Type := Returned | Raised.

(** How [await asyncio.gather(...)] ends. *)
Inductive join : Type :=
| Joined
| Raises
| Suspended.

(** [await asyncio.gather(...)] over the units still [pending], along a
    schedule: the wait ends when no unit is pending, raises with the first
    unit that raises, and stays suspended when the schedule ends first. *)
Fixpoint gather (pending : list nat) (schedule : list (nat * outcome))
    : list event * join :=
  match pending with
  | [] => ([], Joined)
  | _ :: _ =>
      match schedule with
      | [] => ([], Suspended)
      | (i, o) :: schedule' =>
          if existsb (Nat.eqb i) pending then
            match o with
            | Returned =>
                let (evs, j) :=
                  gather (filter (fun k => negb (Nat.eqb i k)) pending)
                         schedule' in
                (FaultReturned i :: evs, j)
            | Raised => ([FaultRaised i], Raises)
            end
          else gather pending schedule'
      end
  end.

(** The events of [go] for [n] fault units in [self.faults]; [logger]
    tells whether [self.fault_logger] is set. *)
Definition go (n : nat) (logger : bool) (schedule : list (nat * outcome))
    : list event :=
  [Debug ("Initiating faults" ++ Regex.NL)]
  ++ map FaultCoroutine (seq 0 n)
  ++ (if logger then [CreateTask LogTask; CreateCoroutine LogTaskActivator]
      else [])
  ++ [Debug ("All faults scheduled." ++ Regex.NL)]
  ++ (let (evs, j) := gather (seq 0 n) schedule in
      evs ++
      match j with
      | Joined =>
          Send MESSAGE_INJECTION_DONE
          :: (if logger
              then [LoggerStop; Await LogTask; Await LogTaskActivator]
              else [])
      | Raises => []
      | Suspended => []
      end).

(** An event of a fault unit that finishes. *)
Definition unit_event (e : event) : Prop :=
  match e with
  | FaultReturned _ => True
  | FaultRaised _ => True
  | _ => False
  end.

(** An event of the part of [go] that precedes the join. *)
Definition setup_event (e : event) : Prop :=
  match e with
  | Debug _ => True
  | FaultCoroutine _ => True
  | CreateTask _ => True
  | CreateCoroutine _ => True
  | _ => False
  end.

(** [go], cut at the join. *)
Definition before_join (n : nat) (logger : bool)
    (schedule : list (nat * outcome)) : list event :=
  [Debug ("Initiating faults" ++ Regex.NL)]
  ++ map FaultCoroutine (seq 0 n)
  ++ (if logger then [CreateTask LogTask; CreateCoroutine LogTaskActivator]
      else [])
  ++ [Debug ("All faults scheduled." ++ Regex.NL)]
  ++ fst (gather (seq 0 n) schedule).

Definition teardown (logger : bool) : list event :=
  if logger then [LoggerStop; Await LogTask; Await LogTaskActivator] else [].

(** The steps that tear the logger down. *)
Definition is_teardown (e : event) : bool :=
  match e with
  | LoggerStop => true
  | Await _ => true
  | _ => false
  end.

End Run.

(** ** Vocabulary of the statements about resolution *)

(** The endpoint of [link] on the side of [a], when [link] joins the
    nodes named [a] and [b] in either orientation. *)
Definition corresponding_side (a b : string) (link : Link.t)
    : option Intf.t :=
  let n1 := Node.name (Intf.node (Link.intf1 link)) in
  let n2 := Node.name (Intf.node (Link.intf2 link)) in
  if String.eqb n1 a && String.eqb n2 b then Some (Link.intf1 link)
  else if String.eqb n1 b && String.eqb n2 a then Some (Link.intf2 link)
  else None.

(** The side of [a] on the last link of [ls] that joins [a] and [b]. *)
Fixpoint last_side (a b : string) (ls : list Link.t) : option Intf.t :=
  match ls with
  | [] => None
  | link :: ls' =>
      match last_side a b ls' with
      | Some side => Some side
      | None => corresponding_side a b link
      end
  end.

(** The side of [a] on the first link of [ls] that joins [a] and [b]. *)
Fixpoint first_side (a b : string) (ls : list Link.t) : option Intf.t :=
  match ls with
  | [] => None
  | link :: ls' =>
      match corresponding_side a b link with
      | Some side => Some side
      | None => first_side a b ls'
      end
  end.

(** Does the side of [a] on [link] carry the interface name [i]? *)
Definition side_named (a b i : string) (link : Link.t) : bool :=
  match corresponding_side a b link with
  | Some side => String.eqb (Intf.name side) i
  | None => false
  end.

(** The triple the controller hands over for an identifier string. *)
Definition resolve (net : Mininet) (identifier_string : string)
    : option Z * option string * option string :=
  _get_mininet_agnostic_identifiers_from_identifier_string
    net (Some identifier_string).

(** A small topology: two hosts joined by two links, the second one
    entered from the side of [h2]. *)
Module Example.
Definition h1 : Node.t := Node.mk "h1" 101.
Definition h2 : Node.t := Node.mk "h2" 102.
Definition link0 : Link.t :=
  Link.mk (Intf.mk "h1_eth0" h1) (Intf.mk "h2_eth0" h2).
Definition link1 : Link.t :=
  Link.mk (Intf.mk "h2_eth1" h2) (Intf.mk "h1_eth1" h1).
Definition net : Mininet :=
  {| hosts := [h1; h2]; links := [link0; link1] |}.
End Example.

(** ** ConfigFileFaultControllerStarter: the transferred configuration

    The configuration tree is mutated in place.  It is a tree: no two
    places of it hold the same object (the YAML text has no alias), so an
    assignment inside one entry is the replacement of that entry. *)

(** [d[k] = v]: the value is replaced where the key is bound, and the
    binding is added last otherwise. *)
Fixpoint dict_set (d : list (string * pyval)) (k : string) (v : pyval)
    : list (string * pyval) :=
  match d with
  | [] => [(k, v)]
  | (k', v') :: d' =>
      if String.eqb k' k then (k', v) :: d'
      else (k', v') :: dict_set d' k v
  end.

(** [v[k] = x] for a string key; only a [dict] takes it. *)
Definition py_setitem (v : pyval) (k : string) (x : pyval) : option pyval :=
  match v with
  | PDict d => Some (PDict (dict_set d k x))
  | _ => None
  end.

(** [v[k]] for a string key: the value bound, [None] for a [KeyError] or
    a value that is not a [dict]. *)
Definition py_getitem (v : pyval) (k : string) : option pyval :=
  match v with
  | PDict d => dict_get d k
  | _ => None
  end.

(** [v[0] = x]: defined on a non-empty [list].  (On a [dict] the
    assignment binds the integer key 0, which the mappings of the model,
    keyed by strings, do not hold: the model stops there.) *)
Definition py_setitem_0 (v : pyval) (x : pyval) : option pyval :=
  match v with
  | PList (_ :: l) => Some (PList (x :: l))
  | _ => None
  end.

(** An identifier read from the configuration, as the resolver takes it:
    a string or [None]; [re.match] raises on anything else. *)
Definition as_identifier (v : pyval) : option (option string) :=
  match v with
  | PStr s => Some (Some s)
  | PNone => Some None
  | _ => None
  end.

Definition of_opt_str (o : option string) : pyval :=
  match o with Some s => PStr s | None => PNone end.

Definition of_opt_int (o : option Z) : pyval :=
  match o with Some z => PInt z | None => PNone end.

(** The resolver as a step that writes its warnings to the log. *)
Definition resolve_logged (net : Mininet) (identifier_string : option string)
    : M (option string * option Node.t) :=
  fun st =>
    let r := _get_node_and_interface_name_from_identifier_string
               net identifier_string in
    Some (fst r, {| next_uuid := next_uuid st; log := log st ++ snd r |}).

(** [_get_mininet_agnostic_identifiers_from_identifier_string] as a step
    that writes the warnings of the resolver to the log. *)
Definition agnostic_logged (net : Mininet) (identifier_string : option string)
    : M (option Z * option string * option string) :=
  fun st =>
    Some (_get_mininet_agnostic_identifiers_from_identifier_string
            net identifier_string,
          {| next_uuid := next_uuid st;
             log := log st ++
                    snd (_get_node_and_interface_name_from_identifier_string
                           net identifier_string) |}).

(** The elements of a sequence after each was replaced in place. *)
Definition rebuild (v : pyval) (elements : list pyval) : pyval :=
  match v with
  | PList _ => PList elements
  | PTuple _ => PTuple elements
  | _ => v
  end.

(** The body of the loop over [yml_config.get(faults)]: the fault object
    after the iteration. *)
Definition build_fault_object (net : Mininet) (fault_object : pyval)
    : M pyval :=
  (fault_type <- lift (first_key fault_object) ;;
   fault_dict <- lift (py_get fault_object fault_type PNone) ;;
   identifiers <- lift (py_get fault_dict "identifiers" PNone) ;;
   identifier_strings <- lift (py_iter identifiers) ;;
   new_identifier_strings <-
     for_each (fun identifier_string =>
       s <- lift (as_identifier identifier_string) ;;
       node_identifying_tuple <- agnostic_logged net s ;;
       ret [PStr (Literal.repr_triple node_identifying_tuple)])
       identifier_strings ;;
   fault_dict <-
     lift (py_setitem fault_dict "identifiers" (PList new_identifier_strings)) ;;
   fault_object <- lift (py_setitem fault_object fault_type fault_dict) ;;
   type_value <- lift (py_get fault_dict "type" PNone) ;;
   if is_str "link_fault:redirect" type_value then
     fault_type_args <- lift (py_get fault_dict "type_args" PNone) ;;
     potential_interface_name <- lift (py_index fault_type_args 0) ;;
     match potential_interface_name with
     | PStr s =>
         interface_name <-
           (if _is_string_in_arrow_pattern s then
              r <- resolve_logged net (Some s) ;;
              ret (of_opt_str (fst r))
            else ret potential_interface_name) ;;
         link_fault <- lift (py_getitem fault_object "link_fault") ;;
         type_args <- lift (py_getitem link_fault "type_args") ;;
         type_args <- lift (py_setitem_0 type_args interface_name) ;;
         link_fault <- lift (py_setitem link_fault "type_args" type_args) ;;
         lift (py_setitem fault_object "link_fault" link_fault)
     | _ => lift None
     end
   else ret fault_object)%cfg.

Section Builder.

(** The tokens [str(uuid.uuid4())] returns in the controller. *)
Variable uuid4 : nat -> string.

(** The body of the loop over the log commands: the command after the
    iteration. *)
Definition build_command (net : Mininet) (debug_command : pyval) : M pyval :=
  (tag0 <- lift (py_get debug_command "tag" PNone) ;;
   debug_command' <-
     match tag0 with
     | PNone =>
         t <- fresh_tag uuid4 ;;
         lift (py_setitem debug_command "tag" t)
     | _ => ret debug_command
     end ;;
   host_string <- lift (py_get debug_command "host" PNone) ;;
   s <- lift (as_identifier host_string) ;;
   node_identifying_tuple <- agnostic_logged net s ;;
   lift (py_setitem debug_command' "host"
           (of_opt_int (fst (fst node_identifying_tuple)))))%cfg.

(** [_build_yml_with_mininet_agnostic_identifiers]: the configuration it
    returns. *)
Definition _build_yml_with_mininet_agnostic_identifiers (net : Mininet)
    (yml_config : pyval) : M pyval :=
  (faults <- lift (py_get yml_config "faults" PNone) ;;
   fault_objects <- lift (py_iter faults) ;;
   fault_objects' <-
     for_each (fun fault_object =>
                 o <- build_fault_object net fault_object ;; ret [o])
              fault_objects ;;
   yml_config <-
     lift (py_setitem yml_config "faults" (rebuild faults fault_objects')) ;;
   has_log <- lift (py_contains yml_config "log") ;;
   if negb has_log then ret yml_config
   else
     log_section <- lift (py_getitem yml_config "log") ;;
     commands <- lift (py_get log_section "commands" PNone) ;;
     match commands with
     | PNone => ret yml_config
     | _ =>
         debug_commands <- lift (py_iter commands) ;;
         debug_commands' <-
           for_each (fun debug_command =>
                       c <- build_command net debug_command ;; ret [c])
                    debug_commands ;;
         log_section <-
           lift (py_setitem log_section "commands"
                   (rebuild commands debug_commands')) ;;
         lift (py_setitem yml_config "log" log_section)
     end)%cfg.

End Builder.

(** ** Vocabulary of the statements about the transferred configuration *)

(** The warnings the resolver writes for a list of identifiers. *)
Definition resolution_warnings (net : Mininet)
    (identifiers : list (option string)) : list log_record :=
  concat (map (fun s =>
                 snd (_get_node_and_interface_name_from_identifier_string
                        net s))
              identifiers).

(** A state with records added to its log. *)
Definition logged (st : cfg_state) (records : list log_record) : cfg_state :=
  {| next_uuid := next_uuid st; log := log st ++ records |}.

(** The fault unit the injector is expected to build for one identifier
    triple of an entry: a link unit when [is_link], a node unit
    otherwise. *)
Definition expected_unit (is_link : bool) (d : list (string * pyval))
    (targs : pyval * pyval * pyval) (kind tag : string)
    (t : option Z * option string * string) : injector :=
  if is_link then
    ILink
      {| target_interface := of_opt_str (snd (fst t));
         target_namespace_pid := of_opt_int (fst (fst t));
         link_tag := PStr (tag ++ "@" ++ snd t);
         fault_target_protocol := fst (fst targs);
         fault_target_dst_ports := snd targs;
         fault_target_src_ports := snd (fst targs);
         link_fault_type := kind;
         link_fault_pattern := dict_get_default d "pattern" (PStr "persistent");
         link_fault_args := dict_get_default d "type_args" PNone;
         link_fault_pattern_args := dict_get_default d "pattern_args" PNone;
         link_pre_injection_time :=
           dict_get_default d "pre_injection_time" PNone;
         link_injection_time := dict_get_default d "injection_time" PNone;
         link_post_injection_time :=
           dict_get_default d "post_injection_time" PNone |}
  else
    INode
      {| target_process_pid := of_opt_int (fst (fst t));
         node_fault_type := kind;
         node_tag := PStr (tag ++ "@" ++ snd t);
         node_pre_injection_time :=
           dict_get_default d "pre_injection_time" PNone;
         node_injection_time := dict_get_default d "injection_time" PNone;
         node_post_injection_time :=
           dict_get_default d "post_injection_time" PNone;
         node_fault_pattern := dict_get_default d "pattern" (PStr "persistent");
         node_fault_args := dict_get_default d "type_args" PNone;
         node_fault_pattern_args := dict_get_default d "pattern_args" PNone |}.

(** The identifier triple the controller resolves for a reference. *)
Definition resolved_triple (net : Mininet) (ref : string)
    : option Z * option string * string :=
  (fst (fst (resolve net ref)), snd (fst (resolve net ref)), ref).

(** ** ConfigFileFaultController: the logger, the object and the process *)

(** The arguments [FaultLogger] is constructed with. *)
Record FaultLogger : Type := {
  interval : option Z;
  log_filepath : pyval;
  commands : pyval }.

Section Logger.

(** [int(s)] for a string [s]; [None] when it raises. *)
Variable int_of_str : string -> option Z.

(** [int(v)]. *)
Definition py_int (v : pyval) : option Z :=
  match v with
  | PInt z => Some z
  | PBool b => Some (if b then 1 else 0)%Z
  | PStr s => int_of_str s
  | _ => None
  end.

(** [_config_logger]: the value of [self.fault_logger]. *)
Definition _config_logger (config : pyval) : M (option FaultLogger) :=
  (log_config <- lift (py_get config "log" PNone) ;;
   match log_config with
   | PNone => ret None
   | _ =>
       interval_value <- lift (py_get log_config "interval" (PInt 0)) ;;
       interval <- lift (py_int interval_value) ;;
       path <- lift (py_get log_config "path" PNone) ;;
       commands <- lift (py_get log_config "commands" (PList [])) ;;
       ret (Some {| interval := if (interval =? 0)%Z then None
                                else Some interval;
                    log_filepath := path;
                    commands := commands |})
   end)%cfg.

End Logger.

(** [_get_base_config_dict], given what [yaml.safe_load] reads from the
    file at a path. *)
Definition _get_base_config_dict (safe_load : string -> pyval)
    (filepath_to_config_file : option string) : M pyval :=
  match filepath_to_config_file with
  | None =>
      (write_log LError [Lit "Filepath to config file is missing"] ;;;
       ret PNone)%cfg
  | Some path => ret (safe_load path)
  end.

Module Process.

(** What the injector process does, in order. *)
Inductive event : Type :=
| Ev (e : Run.event)
| Info (msg : string)
| Error (msg : string).

(** How the process ends: it returns from its entry point, an exception
    ends it, or it waits without end (in a blocking receive, in the
    polling loop of the log listener, or for a task that does not end). *)
Inductive ending : Type :=
| Exits
| Dies
| WaitsForMessage
| PollsForMessage
| WaitsForTask.

(** [listen_for_log_write], given the messages the controller still sends:
    the events, and the messages left; [None] when no message ever comes
    and the loop polls without end. *)
Definition listen_for_log_write (logger : bool) (from_mininet : pipe)
    : option (list event * pipe) :=
  if poll from_mininet then
    match recv_bytes from_mininet with
    | Some (potential_go_message, rest) =>
        if String.eqb potential_go_message MESSAGE_WRITE_LOGS then
          Some (if logger then [Ev Run.LoggerStop] else [], rest)
        else
          Some ([Error ("Received unexpected message while waiting for log-to-file message"
                        ++ Regex.NL)], rest)
    | None => None
    end
  else None.

Section Entry.

Variable uuid4 : nat -> string.
Variable int_of_str : string -> option Z.

(** [ConfigFileFaultController.__init__]: the fault units and the logger,
    then the ready message. *)
Definition init (agnostic_config : pyval)
    : M (list injector * option FaultLogger * list event) :=
  (faults <- _configByFile uuid4 agnostic_config ;;
   fault_logger <- _config_logger int_of_str agnostic_config ;;
   ret (faults, fault_logger,
        [Ev (Run.Debug ("FI: Sending setup finished command" ++ Regex.NL));
         Ev (Run.Send MESSAGE_SETUP_DONE)]))%cfg.

(** [wait_until_go], for an object with [n] fault units: [from_mininet]
    holds the messages the controller sends over the life of the process,
    [schedule] tells how the units finish and [log_task_ends] whether the
    task of the logger ends once the logger is stopped; when it does not,
    the last step of [go], the wait for the listener, is not reached. *)
Definition wait_until_go (n : nat) (logger : bool) (from_mininet : pipe)
    (schedule : list (nat * Run.outcome)) (log_task_ends : bool)
    : list event * ending :=
  let waiting :=
    Info ("Fault injector is waiting for go command" ++ Regex.NL) in
  match recv_bytes from_mininet with
  | None => ([waiting], WaitsForMessage)
  | Some (potential_go_message, rest) =>
      if String.eqb potential_go_message MESSAGE_START_INJECTING then
        let run := map Ev (Run.go n logger schedule) in
        match snd (Run.gather (seq 0 n) schedule) with
        | Run.Joined =>
            if logger then
              if log_task_ends then
                match listen_for_log_write logger rest with
                | Some (evs, _) => (waiting :: run ++ evs, Exits)
                | None => (waiting :: run, PollsForMessage)
                end
              else (waiting :: removelast run, WaitsForTask)
            else (waiting :: run, Exits)
        | Run.Raises => (waiting :: run, Dies)
        | Run.Suspended => (waiting :: run, WaitsForTask)
        end
      else ([waiting], Exits)
  end.

(** [entrypoint_for_fault_controller]. *)
Definition entrypoint_for_fault_controller (agnostic_config : pyval)
    (from_mininet : pipe) (schedule : list (nat * Run.outcome))
    (log_task_ends : bool) (st : cfg_state) : list event * ending :=
  match init agnostic_config st with
  | None => ([], Dies)
  | Some ((faults, fault_logger, evs), _) =>
      let (evs', e) :=
        wait_until_go (length faults)
          (match fault_logger with Some _ => true | None => false end)
          from_mininet schedule log_task_ends in
      (evs ++ evs', e)
  end.

End Entry.

(** The messages a run of the process writes to the controller. *)
Fixpoint sent (evs : list event) : list string :=
  match evs with
  | [] => []
  | Ev (Run.Send m) :: evs' => m :: sent evs'
  | _ :: evs' => sent evs'
  end.

(** The fault units that were started. *)
Fixpoint started (evs : list event) : list nat :=
  match evs with
  | [] => []
  | Ev (Run.FaultCoroutine i) :: evs' => i :: started evs'
  | _ :: evs' => started evs'
  end.

End Process.

(** ** ConfigFileFaultControllerStarter: the constructor and the exit *)

Module Session.

(** The end of [__init__]: the blocking receive of the first message of
    the injector, and the object it leaves; [None] when no message ever
    comes.  The debug records tell what was received. *)
Definition await_setup (logger_active : bool) (from_faults : pipe)
    : option (Starter.t * list log_record) :=
  match recv_bytes from_faults with
  | None => None
  | Some (response, rest) =>
      Some (Starter.mk false logger_active [] rest 0,
            [(LDebug, [Lit ("Fault process started" ++ Regex.NL)]);
             (LDebug, [Lit ("Received message from FI" ++ Regex.NL)]);
             if String.eqb response MESSAGE_SETUP_DONE then
               (LDebug,
                [Lit ("FaultController has signalled that it's ready"
                      ++ Regex.NL)])
             else
               (LDebug,
                [Lit "FaultController has sent weird message: ";
                 Val (PStr response); Lit Regex.NL])])
  end.

(** [notify_to_write_to_logfile], run once per registration when the
    controller exits: the messages written to the injector in all. *)
Definition at_exit (self : Starter.t) : pipe :=
  Starter.send_pipe_mininet_to_faults self
  ++ repeat MESSAGE_WRITE_LOGS (Starter.atexit self).

(** The value of [logger_active] the constructor computes from the
    configuration: [log in config]. *)
Definition logger_active_of (config : pyval) : option bool :=
  py_contains config "log".

End Session.

(** * Properties *)

(** ** The patterns *)

Section RegexFacts.
Import Regex.

Lemma word_star_app (w r : string) :
  all_word w = true ->
  (forall c r', r = String c r' -> is_word c = false) ->
  word_star (w ++ r) = (w, r).
Proof.
  intros Hw Hr. induction w as [|c w IH]; simpl in *.
  - destruct r as [|c r']; [reflexivity|].
    simpl. now rewrite (Hr c r' eq_refl).
  - apply andb_true_iff in Hw as [Hc Hw].
    now rewrite Hc, (IH Hw).
Qed.

Lemma word_star_all_word (w : string) :
  all_word w = true -> word_star w = (w, EmptyString).
Proof.
  intros Hw. induction w as [|c w IH]; simpl in *; [reflexivity|].
  apply andb_true_iff in Hw as [Hc Hw].
  now rewrite Hc, (IH Hw).
Qed.

Lemma literal_inv (p s r : string) :
  literal p s = Some r -> s = (p ++ r)%string.
Proof.
  revert s. induction p as [|c p IH]; intros s H; simpl in *.
  - now injection H.
  - destruct s as [|c' s']; [discriminate|].
    destruct (Ascii.eqb_spec c c') as [->|]; [|discriminate].
    now rewrite (IH _ H).
Qed.

(** The written form [a->b] of an implicit link reference matches, with
    groups [a] and [b]. *)
Lemma match_implicit_link_syntax (a b : string) :
  all_word a = true -> all_word b = true ->
  match_implicit_link (a ++ "->" ++ b) = Some (a, b).
Proof.
  intros Ha Hb. unfold match_implicit_link.
  rewrite (word_star_app a ("->" ++ b)); auto.
  - simpl. now rewrite (word_star_all_word b Hb).
  - intros c r' [= <- _]. reflexivity.
Qed.

(** The written form [a->b:i] of an explicit link reference matches, with
    groups [a], [b] and [i]. *)
Lemma match_explicit_link_syntax (a b i : string) :
  all_word a = true -> all_word b = true -> all_word i = true ->
  match_explicit_link (a ++ "->" ++ b ++ ":" ++ i) = Some (a, b, i).
Proof.
  intros Ha Hb Hi. unfold match_explicit_link.
  rewrite (word_star_app a ("->" ++ b ++ ":" ++ i)); auto.
  - simpl. rewrite (word_star_app b (String ":" i)); auto.
    + simpl. now rewrite (word_star_all_word i Hi).
    + intros c r' [= <- _]. reflexivity.
  - intros c r' [= <- _]. reflexivity.
Qed.

(** No string matches both link patterns. *)
Lemma explicit_excludes_implicit (s : string) (g : string * string * string) :
  match_explicit_link s = Some g -> match_implicit_link s = None.
Proof.
  unfold match_explicit_link, match_implicit_link.
  destruct (word_star s) as [g0 r0].
  destruct (literal "->" r0) as [r1|]; [|discriminate].
  destruct (word_star r1) as [g1 r2].
  destruct (literal ":" r2) as [r3|] eqn:Hl; [|discriminate].
  apply literal_inv in Hl. subst r2. intros _.
  simpl. destruct r3; reflexivity.
Qed.

End RegexFacts.

(** ** The three shapes of an identifier *)

Lemma parse_identifier_explicit (s a b i : string) :
  Regex.match_explicit_link s = Some (a, b, i) ->
  parse_identifier s = (a, Some b, Some i).
Proof.
  intros H. unfold parse_identifier.
  now rewrite (explicit_excludes_implicit s _ H), H.
Qed.

Lemma parse_identifier_implicit (s a b : string) :
  Regex.match_implicit_link s = Some (a, b) ->
  parse_identifier s = (a, Some b, None).
Proof.
  intros H. unfold parse_identifier. now rewrite H.
Qed.

Lemma parse_identifier_bare (s : string) :
  Regex.match_implicit_link s = None ->
  Regex.match_explicit_link s = None ->
  parse_identifier s = (s, None, None).
Proof.
  intros H1 H2. unfold parse_identifier. now rewrite H1, H2.
Qed.

(** ** The scan over the links *)

Lemma truthy_nonempty (i : string) : i <> "" -> truthy (Some i) = true.
Proof.
  intros H. simpl. now apply String.eqb_neq in H as ->.
Qed.

(** One round of the loop, read through [corresponding_side]. *)
Lemma scan_links_cons (link : Link.t) (ls : list Link.t) (a b : string)
    (e ci : option string) (ch : option Node.t) :
  scan_links (link :: ls) a (Some b) e ci ch =
  match corresponding_side a b link with
  | Some side =>
      if truthy e then
        if eq_opt (Intf.name side) e
        then (Some (Intf.name side), Some (Intf.node side))
        else scan_links ls a (Some b) e None None
      else scan_links ls a (Some b) e
             (Some (Intf.name side)) (Some (Intf.node side))
  | None => scan_links ls a (Some b) e ci ch
  end.
Proof.
  cbn [scan_links eq_opt]. unfold corresponding_side.
  destruct (_ && _); [reflexivity|].
  destruct (_ && _); reflexivity.
Qed.

(** With a non-empty explicit name the scan stops at the first link whose
    side of [a] carries that name, and holds nothing otherwise. *)
Lemma scan_links_explicit (ls : list Link.t) (a b i : string) :
  i <> "" ->
  scan_links ls a (Some b) (Some i) None None =
  match find (side_named a b i) ls with
  | Some link =>
      match corresponding_side a b link with
      | Some side => (Some (Intf.name side), Some (Intf.node side))
      | None => (None, None)
      end
  | None => (None, None)
  end.
Proof.
  intros Hi. pose proof (truthy_nonempty i Hi) as Ht.
  induction ls as [|link ls IH]; [reflexivity|].
  rewrite scan_links_cons, Ht. cbn [find eq_opt].
  unfold side_named at 1.
  destruct (corresponding_side a b link) as [side|] eqn:Hc; [|exact IH].
  destruct (String.eqb (Intf.name side) i); [|exact IH].
  now rewrite Hc.
Qed.

(** Without an explicit name, or with an empty one, the scan runs to the
    end and keeps the last link that joins [a] and [b]. *)
Lemma scan_links_implicit (ls : list Link.t) (a b : string)
    (e ci : option string) (ch : option Node.t) :
  truthy e = false ->
  scan_links ls a (Some b) e ci ch =
  match last_side a b ls with
  | Some side => (Some (Intf.name side), Some (Intf.node side))
  | None => (ci, ch)
  end.
Proof.
  intros Ht. revert ci ch.
  induction ls as [|link ls IH]; intros ci ch; [reflexivity|].
  rewrite scan_links_cons, Ht. cbn [last_side].
  destruct (corresponding_side a b link) as [side|];
    rewrite IH; now destruct (last_side a b ls).
Qed.

(** No link has an endpoint on a node without a name. *)
Lemma scan_links_bare (ls : list Link.t) (a : string)
    (e ci : option string) (ch : option Node.t) :
  scan_links ls a None e ci ch = (ci, ch).
Proof.
  induction ls as [|link ls IH]; [reflexivity|].
  cbn [scan_links eq_opt]. now rewrite andb_false_r.
Qed.

Lemma last_side_app (a b : string) (pre post : list Link.t)
    (link : Link.t) (side : Intf.t) :
  corresponding_side a b link = Some side ->
  (forall l, In l post -> corresponding_side a b l = None) ->
  last_side a b (pre ++ link :: post) = Some side.
Proof.
  intros Hs Hpost.
  assert (Hp : last_side a b post = None).
  { induction post as [|l post IH]; [reflexivity|].
    simpl. rewrite IH by (intros; apply Hpost; now right).
    apply Hpost. now left. }
  induction pre as [|l pre IH]; simpl.
  - now rewrite Hp.
  - now rewrite IH.
Qed.

Lemma last_side_in (a b : string) (ls : list Link.t) (side : Intf.t) :
  last_side a b ls = Some side ->
  exists link, In link ls /\ corresponding_side a b link = Some side.
Proof.
  induction ls as [|l ls IH]; simpl; [discriminate|].
  destruct (last_side a b ls) as [sd|].
  - intros [= ->]. destruct IH as [link [Hin Hc]]; [reflexivity|].
    exists link. split; [now right | exact Hc].
  - intros H. exists l. split; [now left | exact H].
Qed.

Lemma last_side_none (a b : string) (ls : list Link.t) :
  last_side a b ls = None ->
  forall link, In link ls -> corresponding_side a b link = None.
Proof.
  induction ls as [|l ls IH]; simpl; [intros _ ? []|].
  destruct (last_side a b ls) as [sd|]; [discriminate|].
  intros H link [<-|Hin]; [exact H | now apply IH].
Qed.

(** ** Resolution of identifier strings *)

Ltac unfold_resolve :=
  unfold resolve, _get_mininet_agnostic_identifiers_from_identifier_string,
    _get_node_and_interface_name_from_identifier_string.

(** Resolution of a link reference, read off the result of the scan. *)
Lemma resolve_link (net : Mininet) (s a b : string) (e : option string) :
  parse_identifier s = (a, Some b, e) ->
  resolve net s =
  match scan_links (links net) a (Some b) e None None with
  | (Some i, Some h) => (Some (Node.pid h), Some i, Some s)
  | _ => (None, None, Some s)
  end.
Proof.
  intros Hp. unfold_resolve. rewrite Hp.
  destruct (scan_links (links net) a (Some b) e None None) as [[i|] [h|]];
    try reflexivity; now destruct (truthy e).
Qed.

(** C1, as stated, fails: the reference [h1->h2:] is in explicit link
    syntax with the empty interface name, and it resolves to the interface
    [h1_eth1], which is neither the requested name nor absent. *)
Lemma explicit_empty_name_counterexample :
  Regex.match_explicit_link "h1->h2:" = Some ("h1", "h2", "")
  /\ resolve Example.net "h1->h2:"
     = (Some 101%Z, Some "h1_eth1", Some "h1->h2:")
  /\ Some "h1_eth1" <> Some ""
  /\ Some "h1_eth1" <> @None string.
Proof.
  repeat split; try reflexivity; discriminate.
Qed.

(** C1 (amended): for every reference string in explicit link syntax
    [a->b:i] with a non-empty interface name [i], resolution against any
    topology returns either the process id of the host on the side of [a]
    of a link between [a] and [b] whose endpoint there is named [i],
    together with the interface name [i] itself, or an identifier with
    absent process handle and absent interface name, the latter exactly
    when no link between [a] and [b] has its endpoint on the side of [a]
    named [i], and in particular when no such link carries an endpoint
    named [i] at all.  The interface name returned is never different
    from [i]. *)
Theorem explicit_link_resolution (net : Mininet) (s a b i : string) :
  Regex.match_explicit_link s = Some (a, b, i) ->
  i <> "" ->
  ((exists link side,
      In link (links net)
      /\ corresponding_side a b link = Some side
      /\ Intf.name side = i
      /\ resolve net s = (Some (Node.pid (Intf.node side)), Some i, Some s))
   \/ (resolve net s = (None, None, Some s)
       /\ forall link side,
            In link (links net) ->
            corresponding_side a b link = Some side ->
            Intf.name side <> i))
  /\ ((forall link,
         In link (links net) ->
         corresponding_side a b link <> None ->
         Intf.name (Link.intf1 link) <> i
         /\ Intf.name (Link.intf2 link) <> i) ->
      resolve net s = (None, None, Some s))
  /\ (forall j, snd (fst (resolve net s)) = Some j -> j = i).
Proof.
  intros Hm Hi.
  rewrite (resolve_link net s a b (Some i) (parse_identifier_explicit _ _ _ _ Hm)).
  rewrite (scan_links_explicit _ a b i Hi).
  destruct (find (side_named a b i) (links net)) as [link|] eqn:Hf.
  - apply find_some in Hf as [Hin Hn]. unfold side_named in Hn.
    destruct (corresponding_side a b link) as [side|] eqn:Hc; [|discriminate].
    apply String.eqb_eq in Hn.
    split; [|split].
    + left. exists link, side. rewrite Hn. auto.
    + intros Hnone. exfalso.
      destruct (Hnone link Hin) as [H1 H2]; [congruence|].
      unfold corresponding_side in Hc.
      destruct (_ && _); [injection Hc as <-; contradiction|].
      destruct (_ && _); [injection Hc as <-; contradiction|discriminate].
    + intros j [= <-]. exact Hn.
  - split; [|split].
    + right. split; [reflexivity|].
      intros link side Hin Hc Hn.
      pose proof (find_none _ _ Hf link Hin) as Hfalse.
      unfold side_named in Hfalse. rewrite Hc in Hfalse.
      apply String.eqb_neq in Hfalse. contradiction.
    + reflexivity.
    + discriminate.
Qed.

(** A reference that names the interface of the second link. *)
Lemma explicit_link_resolution_witness :
  resolve Example.net "h1->h2:h1_eth1"
  = (Some 101%Z, Some "h1_eth1", Some "h1->h2:h1_eth1")
  /\ (forall j,
        snd (fst (resolve Example.net "h1->h2:h1_eth1")) = Some j ->
        j = "h1_eth1").
Proof.
  split; [reflexivity|].
  apply (explicit_link_resolution Example.net "h1->h2:h1_eth1"
           "h1" "h2" "h1_eth1"); [reflexivity | discriminate].
Defined.

(** C2, as stated, fails: two links join [h1] and [h2]; the first one in
    the enumeration has [h1_eth0] on the side of [h1], and the implicit
    reference [h1->h2] resolves to [h1_eth1], the interface of the second. *)
Lemma implicit_first_match_counterexample :
  Regex.match_implicit_link "h1->h2" = Some ("h1", "h2")
  /\ links Example.net = [Example.link0; Example.link1]
  /\ corresponding_side "h1" "h2" Example.link0
     = Some (Intf.mk "h1_eth0" Example.h1)
  /\ corresponding_side "h1" "h2" Example.link1
     = Some (Intf.mk "h1_eth1" Example.h1)
  /\ first_side "h1" "h2" (links Example.net)
     = Some (Intf.mk "h1_eth0" Example.h1)
  /\ resolve Example.net "h1->h2" = (Some 101%Z, Some "h1_eth1", Some "h1->h2")
  /\ resolve Example.net "h1->h2" <> (Some 101%Z, Some "h1_eth0", Some "h1->h2").
Proof.
  repeat split; try reflexivity; discriminate.
Qed.

(** C2 (amended): for every implicit link reference [a->b] resolved
    against a topology in which more than one link structurally connects
    [a] and [b] (and also when exactly one does), the resolver returns the
    interface and the host of the last structurally matching link in the
    enumeration order of the links. *)
Theorem implicit_link_last_match (net : Mininet) (s a b : string)
    (pre post : list Link.t) (link : Link.t) (side : Intf.t) :
  Regex.match_implicit_link s = Some (a, b) ->
  links net = pre ++ link :: post ->
  corresponding_side a b link = Some side ->
  (forall l, In l post -> corresponding_side a b l = None) ->
  resolve net s
  = (Some (Node.pid (Intf.node side)), Some (Intf.name side), Some s)
  /\ fst (_get_node_and_interface_name_from_identifier_string net (Some s))
     = (Some (Intf.name side), Some (Intf.node side)).
Proof.
  intros Hm Hl Hc Hpost.
  pose proof (parse_identifier_implicit _ _ _ Hm) as Hp.
  pose proof (last_side_app a b pre post link side Hc Hpost) as Hlast.
  split.
  - rewrite (resolve_link net s a b None Hp).
    rewrite (scan_links_implicit _ a b None None None eq_refl).
    now rewrite Hl, Hlast.
  - unfold _get_node_and_interface_name_from_identifier_string.
    rewrite Hp, (scan_links_implicit _ a b None None None eq_refl).
    now rewrite Hl, Hlast.
Qed.

(** Two links join [h1] and [h2]; the second one is the last. *)
Lemma implicit_link_last_match_witness :
  resolve Example.net "h1->h2" = (Some 101%Z, Some "h1_eth1", Some "h1->h2").
Proof.
  apply (implicit_link_last_match Example.net "h1->h2" "h1" "h2"
           [Example.link0] [] Example.link1 (Intf.mk "h1_eth1" Example.h1));
    try reflexivity.
  intros l [].
Defined.

Lemma find_host_some (hs : list Node.t) (h : string) (n : Node.t) :
  find_host hs h = Some n -> In n hs /\ Node.name n = h.
Proof.
  induction hs as [|m hs IH]; simpl; [discriminate|].
  destruct (String.eqb_spec (Node.name m) h) as [He|_].
  - intros [= <-]. split; [now left | exact He].
  - intros H. destruct (IH H) as [Hin Hn]. split; [now right | exact Hn].
Qed.

Lemma find_host_none (hs : list Node.t) (h : string) :
  (forall n, In n hs -> Node.name n <> h) -> find_host hs h = None.
Proof.
  induction hs as [|m hs IH]; intros H; simpl; [reflexivity|].
  destruct (String.eqb_spec (Node.name m) h) as [He|_].
  - exfalso. apply (H m); [now left | exact He].
  - apply IH. intros n Hin. apply H. now right.
Qed.

Lemma find_host_in (hs : list Node.t) (h : string) (n : Node.t) :
  In n hs -> Node.name n = h -> exists n', find_host hs h = Some n'.
Proof.
  induction hs as [|m hs IH]; simpl; [intros []|].
  intros Hin Hn.
  destruct (String.eqb_spec (Node.name m) h) as [_|Hne]; [now exists m|].
  destruct Hin as [->|Hin]; [contradiction | now apply IH].
Qed.

(** C3: for every bare-name reference [h], one that matches neither link
    pattern: if the host set holds a host named [h], resolution returns the
    process id of such a host (the first one in the enumeration of the
    hosts), an absent interface name and [h] itself; if no host is named
    [h], it returns an absent process id, an absent interface name and [h].
    The resolver is a total function: it returns in both cases. *)
Theorem bare_name_resolution (net : Mininet) (h : string) :
  Regex.match_implicit_link h = None ->
  Regex.match_explicit_link h = None ->
  (forall n,
     In n (hosts net) -> Node.name n = h ->
     exists n',
       In n' (hosts net) /\ Node.name n' = h
       /\ find_host (hosts net) h = Some n'
       /\ resolve net h = (Some (Node.pid n'), None, Some h))
  /\ ((forall n, In n (hosts net) -> Node.name n <> h) ->
      resolve net h = (None, None, Some h)).
Proof.
  intros H1 H2. pose proof (parse_identifier_bare h H1 H2) as Hp.
  split.
  - intros n Hin Hn.
    destruct (find_host_in _ _ _ Hin Hn) as [n' Hf].
    destruct (find_host_some _ _ _ Hf) as [Hin' Hn'].
    exists n'. repeat split; auto.
    unfold_resolve. now rewrite Hp, Hf.
  - intros Hnone. unfold_resolve.
    rewrite Hp, (find_host_none _ _ Hnone), scan_links_bare.
    reflexivity.
Qed.

(** The host [h2] of the example, and a name that no host carries. *)
Lemma bare_name_resolution_witness :
  resolve Example.net "h2" = (Some 102%Z, None, Some "h2")
  /\ resolve Example.net "s1" = (None, None, Some "s1").
Proof.
  split.
  - destruct (bare_name_resolution Example.net "h2" eq_refl eq_refl)
      as [Hsome _].
    destruct (Hsome Example.h2) as [n' [_ [_ [Hf Hr]]]];
      [right; now left | reflexivity |].
    injection Hf as <-. exact Hr.
  - destruct (bare_name_resolution Example.net "s1" eq_refl eq_refl)
      as [_ Hnone].
    apply Hnone. intros n [<-|[<-|[]]]; discriminate.
Defined.

(** C9: for every reference string of the form [a->b:], explicit link
    syntax whose captured interface name is empty (it is in arrow pattern
    for [_is_string_in_arrow_pattern]), the resolver behaves
    exactly as for the implicit reference [a->b]: it returns the same
    interface, the same host and writes the same warning, and when a link
    joins [a] and [b] it returns the interface of such a link instead of
    failing. *)
Theorem empty_explicit_name_is_implicit (net : Mininet) (s s' a b : string) :
  Regex.match_explicit_link s = Some (a, b, "") ->
  Regex.match_implicit_link s' = Some (a, b) ->
  _is_string_in_arrow_pattern s = true
  /\ _get_node_and_interface_name_from_identifier_string net (Some s)
     = _get_node_and_interface_name_from_identifier_string net (Some s')
  /\ (forall link side,
        In link (links net) ->
        corresponding_side a b link = Some side ->
        exists link' side',
          In link' (links net)
          /\ corresponding_side a b link' = Some side'
          /\ _get_node_and_interface_name_from_identifier_string net (Some s)
             = ((Some (Intf.name side'), Some (Intf.node side')), [])).
Proof.
  intros Hs Hs'.
  pose proof (parse_identifier_explicit _ _ _ _ Hs) as Hp.
  pose proof (parse_identifier_implicit _ _ _ Hs') as Hp'.
  split.
  { unfold _is_string_in_arrow_pattern.
    now rewrite (explicit_excludes_implicit s _ Hs), Hs. }
  unfold _get_node_and_interface_name_from_identifier_string.
  rewrite Hp, Hp'.
  rewrite (scan_links_implicit _ a b (Some "") None None eq_refl).
  rewrite (scan_links_implicit _ a b None None None eq_refl).
  split; [reflexivity|].
  intros link side Hin Hc.
  destruct (last_side a b (links net)) as [side'|] eqn:Hl.
  - destruct (last_side_in _ _ _ _ Hl) as [link' [Hin' Hc']].
    now exists link', side'.
  - rewrite (last_side_none _ _ _ Hl link Hin) in Hc. discriminate.
Qed.

(** The reference [h1->h2:] on the example topology. *)
Lemma empty_explicit_name_is_implicit_witness :
  _get_node_and_interface_name_from_identifier_string
    Example.net (Some "h1->h2:")
  = _get_node_and_interface_name_from_identifier_string
      Example.net (Some "h1->h2").
Proof.
  apply (empty_explicit_name_is_implicit Example.net "h1->h2:" "h1->h2"
           "h1" "h2" eq_refl eq_refl).
Defined.

(** ** The controller's view of the handshake *)

Section StarterFacts.
Import Starter.

Lemma is_active_returns (self : t) :
  exists b self', is_active self = Some (b, self').
Proof.
  unfold is_active.
  destruct (faults_are_active self); cbn [negb]; [|eauto].
  destruct (recv_pipe_faults_to_mininet self) as [|m rest];
    cbn [poll negb recv_bytes]; [eauto|].
  destruct (String.eqb m MESSAGE_INJECTION_DONE); eauto.
Qed.

Lemma run_returns (acts : list action) (self : t) :
  exists bs self', run acts self = Some (bs, self').
Proof.
  revert self. induction acts as [|[m|] acts IH]; intros self; cbn [run].
  - eauto.
  - apply IH.
  - destruct (is_active_returns self) as [b [self' ->]].
    destruct (IH self') as [bs [self'' ->]]. eauto.
Qed.

(** An inactive controller answers [False] and stays inactive, whatever
    arrives. *)
Lemma run_inactive (acts : list action) (self : t) (bs : list bool)
    (self' : t) :
  faults_are_active self = false ->
  run acts self = Some (bs, self') ->
  Forall (fun b => b = false) bs /\ faults_are_active self' = false.
Proof.
  revert self bs. induction acts as [|[m|] acts IH]; intros self bs Hf;
    cbn [run].
  - intros [= <- <-]. auto.
  - apply IH. exact Hf.
  - unfold is_active. rewrite Hf. cbn [negb].
    destruct (run acts self) as [[bs0 self0]|] eqn:Hr; [|discriminate].
    intros [= <- <-]. destruct (IH _ _ Hf Hr) as [Hall Hf'].
    split; [constructor; auto | exact Hf'].
Qed.

Lemma run_idle (k : nat) (self : t) :
  faults_are_active self = true ->
  recv_pipe_faults_to_mininet self = [] ->
  run (repeat CallIsActive k) self = Some (repeat true k, self).
Proof.
  intros Hf Hp. induction k as [|k IH]; cbn [repeat run]; [reflexivity|].
  unfold is_active. rewrite Hf, Hp. cbn [negb poll]. now rewrite IH.
Qed.

(** C5: [is_active] never blocks, alone or along any sequence of calls
    and arrivals; before [go] it returns [False]; after [go], while no
    message is pending, each call returns [True] and leaves the object, and
    so the channel, as it was; a call that reads the done message sets the
    flag to false and returns [False], and so does every later call,
    whatever arrives; a call that finds no pending message leaves the
    object unchanged. *)
Theorem is_active_protocol :
  (forall self, is_active self <> None)
  /\ (forall acts self, run acts self <> None)
  /\ (forall logger to_faults to_mininet acts bs self',
        run acts (init logger to_faults to_mininet) = Some (bs, self') ->
        Forall (fun b => b = false) bs)
  /\ (forall self k,
        recv_pipe_faults_to_mininet self = [] ->
        run (repeat CallIsActive k) (go self)
        = Some (repeat true k, go self))
  /\ (forall self rest,
        faults_are_active self = true ->
        recv_pipe_faults_to_mininet self = MESSAGE_INJECTION_DONE :: rest ->
        exists self',
          is_active self = Some (false, self')
          /\ faults_are_active self' = false
          /\ recv_pipe_faults_to_mininet self' = rest
          /\ forall acts bs self'',
               run acts self' = Some (bs, self'') ->
               Forall (fun b => b = false) bs)
  /\ (forall self b self',
        poll (recv_pipe_faults_to_mininet self) = false ->
        is_active self = Some (b, self') ->
        self' = self).
Proof.
  repeat apply conj.
  - intros self. destruct (is_active_returns self) as [b [self' ->]].
    discriminate.
  - intros acts self. destruct (run_returns acts self) as [bs [self' ->]].
    discriminate.
  - intros logger p q acts bs self' Hr.
    apply (run_inactive acts (init logger p q) bs self' eq_refl Hr).
  - intros self k Hp. apply run_idle; [reflexivity | exact Hp].
  - intros self rest Hf Hp. unfold is_active. rewrite Hf, Hp.
    cbn [negb poll recv_bytes]. rewrite String.eqb_refl.
    eexists. repeat split.
    intros acts bs self'' Hr.
    eapply run_inactive; [|exact Hr]. reflexivity.
  - intros self b self' Hp. unfold is_active.
    destruct (faults_are_active self); cbn [negb].
    + rewrite Hp. cbn [negb]. now intros [= _ <-].
    + now intros [= _ <-].
Qed.

(** A controller that is started, polled twice, receives the done message
    and is polled twice more. *)
Lemma is_active_protocol_witness :
  run [CallIsActive; CallIsActive] (go (init true [] []))
  = Some ([true; true], go (init true [] []))
  /\ run [CallIsActive; Arrives "late"; CallIsActive]
         (arrive MESSAGE_INJECTION_DONE (go (init true [] [])))
     <> None.
Proof.
  destruct is_active_protocol as [_ [Hrun [_ [Hidle _]]]].
  split.
  - apply (Hidle (init true [] []) 2). reflexivity.
  - apply Hrun.
Defined.

(** C10: after [go], when the pending message at the head of the channel
    from the injector is not the done message, a call of [is_active]
    removes it from the channel, returns [True] and leaves the controller
    marked active; nothing else of the object changes, and the message is
    not in the channel for later calls. *)
Theorem is_active_discards_unexpected (self : t) (m : string)
    (rest : pipe) :
  recv_pipe_faults_to_mininet self = m :: rest ->
  m <> MESSAGE_INJECTION_DONE ->
  is_active (go self)
  = Some (true,
          mk true (logger_active (go self))
             (send_pipe_mininet_to_faults (go self)) rest
             (atexit (go self)))
  /\ forall s, faults_are_active s = true ->
       recv_pipe_faults_to_mininet s = m :: rest ->
       exists s', is_active s = Some (true, s')
         /\ faults_are_active s' = true
         /\ recv_pipe_faults_to_mininet s' = rest.
Proof.
  intros Hp Hm. apply String.eqb_neq in Hm.
  split.
  - unfold is_active. cbn [go faults_are_active recv_pipe_faults_to_mininet
      negb]. rewrite Hp. cbn [poll negb recv_bytes]. now rewrite Hm.
  - intros s Hf Hs. unfold is_active. rewrite Hf, Hs.
    cbn [negb poll recv_bytes]. rewrite Hm.
    eexists. repeat split.
Qed.

(** A setup-error message that reaches a started controller. *)
Lemma is_active_discards_unexpected_witness :
  is_active (go (init false [] [MESSAGE_SETUP_ERROR; MESSAGE_INJECTION_DONE]))
  = Some (true,
          mk true false [MESSAGE_START_INJECTING] [MESSAGE_INJECTION_DONE] 0).
Proof.
  apply (is_active_discards_unexpected
           (init false [] [MESSAGE_SETUP_ERROR; MESSAGE_INJECTION_DONE])
           MESSAGE_SETUP_ERROR [MESSAGE_INJECTION_DONE]);
    [reflexivity | discriminate].
Defined.

End StarterFacts.

(** ** The run sequence of the injector *)

Section RunFacts.
Import Run.

Lemma gather_unit_events (schedule : list (nat * outcome))
    (pending : list nat) :
  Forall unit_event (fst (gather pending schedule)).
Proof.
  revert pending.
  induction schedule as [|[i o] schedule IH]; intros pending;
    destruct pending as [|p pending]; cbn [gather fst]; try constructor.
  destruct (existsb (Nat.eqb i) (p :: pending)); [|apply IH].
  destruct o.
  - specialize (IH (filter (fun k => negb (Nat.eqb i k)) (p :: pending))).
    destruct (gather _ schedule) as [evs j]. cbn [fst] in *.
    constructor; [exact I | exact IH].
  - repeat constructor.
Qed.

(** When the join ends normally, every pending unit has returned. *)
Lemma gather_joined (schedule : list (nat * outcome)) (pending : list nat) :
  snd (gather pending schedule) = Joined ->
  forall i, In i pending -> In (FaultReturned i) (fst (gather pending schedule)).
Proof.
  revert pending.
  induction schedule as [|[k o] schedule IH]; intros pending;
    destruct pending as [|p pending]; cbn [gather fst snd].
  - intros _ i [].
  - discriminate.
  - intros _ i [].
  - destruct (existsb (Nat.eqb k) (p :: pending)) eqn:Hk; [|apply IH].
    destruct o; [|intros H; discriminate H].
    specialize (IH (filter (fun j => negb (Nat.eqb k j)) (p :: pending))).
    destruct (gather _ schedule) as [evs j]. cbn [fst snd] in *.
    intros Hj i Hi.
    destruct (Nat.eqb_spec k i) as [->|Hne]; [now left|].
    right. apply (IH Hj). apply filter_In. split; [exact Hi|].
    now apply Nat.eqb_neq in Hne as ->.
Qed.

(** When every pending unit returns along the schedule, the join ends
    normally. *)
Lemma gather_completes (order : list nat) (pending : list nat) :
  (forall i, In i pending -> In i order) ->
  snd (gather pending (map (fun i => (i, Returned)) order)) = Joined.
Proof.
  revert pending.
  induction order as [|k order IH]; intros pending Hall;
    destruct pending as [|p pending]; cbn [map gather snd];
    try reflexivity.
  - destruct (Hall p). now left.
  - destruct (existsb (Nat.eqb k) (p :: pending)) eqn:Hk.
    + specialize (IH (filter (fun j => negb (Nat.eqb k j)) (p :: pending))).
      destruct (gather _ (map _ order)) as [evs j]. cbn [snd] in *.
      apply IH. intros i Hi. apply filter_In in Hi as [Hi Hne].
      destruct (Hall i Hi) as [->|Ho]; [|exact Ho].
      now rewrite Nat.eqb_refl in Hne.
    + apply IH. intros i Hi.
      destruct (Hall i Hi) as [->|Ho]; [|exact Ho].
      assert (existsb (Nat.eqb i) (p :: pending) = true) as He.
      { apply existsb_exists. exists i. split; [exact Hi|].
        apply Nat.eqb_refl. }
      congruence.
Qed.

(** The one place of an element that occurs once. *)
Lemma split_unique {A : Type} (x : A) (l1 l2 pre post : list A) :
  ~ In x l1 -> ~ In x l2 ->
  l1 ++ x :: l2 = pre ++ x :: post ->
  pre = l1 /\ post = l2.
Proof.
  revert pre. induction l1 as [|a l1 IH]; intros pre H1 H2 He.
  - destruct pre as [|b pre]; cbn in He.
    + injection He as <-. auto.
    + injection He as <- ->. exfalso. apply H2.
      apply in_or_app. right. now left.
  - destruct pre as [|b pre]; cbn in He.
    + injection He as -> _. exfalso. apply H1. now left.
    + injection He as <- He.
      destruct (IH pre) as [-> ->]; auto.
      intros Hin. apply H1. now right.
Qed.

Lemma go_cut (n : nat) (logger : bool) (schedule : list (nat * outcome)) :
  go n logger schedule =
  before_join n logger schedule ++
  match snd (gather (seq 0 n) schedule) with
  | Joined => Send MESSAGE_INJECTION_DONE :: teardown logger
  | _ => []
  end.
Proof.
  unfold go, before_join, teardown.
  destruct (gather (seq 0 n) schedule) as [evs j]. cbn [fst snd].
  rewrite <- !app_assoc. destruct j; reflexivity.
Qed.

Lemma before_join_events (n : nat) (logger : bool)
    (schedule : list (nat * outcome)) :
  Forall (fun e => setup_event e \/ unit_event e)
         (before_join n logger schedule).
Proof.
  unfold before_join.
  apply Forall_app. split; [repeat constructor|].
  apply Forall_app. split.
  { apply Forall_forall. intros e He. apply in_map_iff in He as [i [<- _]].
    left. exact I. }
  apply Forall_app. split; [destruct logger; repeat constructor|].
  apply Forall_app. split; [repeat constructor|].
  eapply Forall_impl; [|apply gather_unit_events]. auto.
Qed.

Lemma before_join_plain (n : nat) (logger : bool)
    (schedule : list (nat * outcome)) (e : event) :
  In e (before_join n logger schedule) ->
  is_teardown e = false /\ e <> Send MESSAGE_INJECTION_DONE.
Proof.
  intros He.
  pose proof (before_join_events n logger schedule) as Hall.
  rewrite Forall_forall in Hall. specialize (Hall e He).
  destruct e; cbn in Hall; try tauto; split; try reflexivity; discriminate.
Qed.

Lemma teardown_no_send (logger : bool) :
  ~ In (Send MESSAGE_INJECTION_DONE) (teardown logger).
Proof.
  destruct logger; cbn; intuition discriminate.
Qed.

(** C4: in the run sequence of the injector, for every number of fault
    units, with or without a logger and along every schedule of the units:
    where the done message is sent, every fault unit has returned before
    it, no step of the logger teardown and no other done message precedes
    it, and what follows it is exactly the teardown of the logger (stop,
    await the log task, await the listener) when a logger exists and
    nothing otherwise; a teardown step occurs only with a logger and only
    in a run that sends the done message; and when every unit returns, the
    done message is sent. *)
Theorem done_after_join_before_teardown (n : nat) (logger : bool)
    (schedule : list (nat * outcome)) :
  (forall pre post,
     go n logger schedule = pre ++ Send MESSAGE_INJECTION_DONE :: post ->
     (forall i, i < n -> In (FaultReturned i) pre)
     /\ (forall e, In e pre ->
           is_teardown e = false /\ e <> Send MESSAGE_INJECTION_DONE)
     /\ post = (if logger
                then [LoggerStop; Await LogTask; Await LogTaskActivator]
                else []))
  /\ (forall e,
        In e (go n logger schedule) -> is_teardown e = true ->
        logger = true /\ In (Send MESSAGE_INJECTION_DONE) (go n logger schedule))
  /\ (forall order,
        (forall i, i < n -> In i order) ->
        In (Send MESSAGE_INJECTION_DONE)
           (go n logger (map (fun i => (i, Returned)) order))).
Proof.
  split; [|split].
  - intros pre post Hgo. rewrite go_cut in Hgo.
    destruct (snd (gather (seq 0 n) schedule)) eqn:Hj.
    + apply split_unique in Hgo as [-> ->].
      * split; [|split].
        -- intros i Hi. unfold before_join.
           do 4 (apply in_or_app; right).
           apply gather_joined; [exact Hj|]. apply in_seq. lia.
        -- apply before_join_plain.
        -- reflexivity.
      * intros Hin. now apply before_join_plain in Hin as [_ Hne].
      * apply teardown_no_send.
    + exfalso. rewrite app_nil_r in Hgo.
      assert (Hin : In (Send MESSAGE_INJECTION_DONE)
                       (before_join n logger schedule)).
      { rewrite Hgo. apply in_or_app. right. now left. }
      now apply before_join_plain in Hin as [_ Hne].
    + exfalso. rewrite app_nil_r in Hgo.
      assert (Hin : In (Send MESSAGE_INJECTION_DONE)
                       (before_join n logger schedule)).
      { rewrite Hgo. apply in_or_app. right. now left. }
      now apply before_join_plain in Hin as [_ Hne].
  - intros e He Ht. rewrite go_cut in *.
    apply in_app_or in He as [He|He].
    + apply before_join_plain in He as [Hf _]. congruence.
    + destruct (snd (gather (seq 0 n) schedule)); try contradiction.
      split.
      * destruct He as [<-|He]; [discriminate|].
        destruct logger; [reflexivity | contradiction].
      * apply in_or_app. right. now left.
  - intros order Hall. rewrite go_cut.
    rewrite (gather_completes order (seq 0 n)).
    + apply in_or_app. right. now left.
    + intros i Hi. apply Hall. apply in_seq in Hi. lia.
Qed.

(** Two units that return in the order 1, 0, with a logger. *)
Lemma done_after_join_before_teardown_witness :
  go 2 true [(1, Returned); (0, Returned)]
  = [Debug ("Initiating faults" ++ Regex.NL); FaultCoroutine 0;
     FaultCoroutine 1; CreateTask LogTask; CreateCoroutine LogTaskActivator;
     Debug ("All faults scheduled." ++ Regex.NL);
     FaultReturned 1; FaultReturned 0]
    ++ Send MESSAGE_INJECTION_DONE
    :: [LoggerStop; Await LogTask; Await LogTaskActivator]
  /\ In (Send MESSAGE_INJECTION_DONE)
        (go 2 true (map (fun i => (i, Returned)) [1; 0])).
Proof.
  split; [reflexivity|].
  apply (done_after_join_before_teardown 2 true []).
  intros i Hi. destruct i as [|[|i]]; cbn; auto. lia.
Defined.

End RunFacts.

(** ** The transfer encoding *)

Section LiteralFacts.
Import Literal.

Lemma snoc_app (acc : string) (c : ascii) (s : string) :
  (snoc acc c ++ s = acc ++ String c s)%string.
Proof.
  unfold snoc. induction acc as [|a acc IH]; cbn; [reflexivity|].
  now rewrite IH.
Qed.

Lemma append_nil_r (s : string) : (s ++ "" = s)%string.
Proof.
  induction s as [|a s IH]; cbn; [reflexivity | now rewrite IH].
Qed.

Lemma append_assoc (s1 s2 s3 : string) :
  ((s1 ++ s2) ++ s3 = s1 ++ s2 ++ s3)%string.
Proof.
  induction s1 as [|a s1 IH]; cbn; [reflexivity | now rewrite IH].
Qed.

(** What [repr] writes for one character reads back as that character. *)
Lemma lex_escape_char (q c : ascii) (acc tl : string) :
  q = QUOTE \/ q = DQUOTE ->
  lex (LStr q acc) (escape_char q c ++ tl) = lex (LStr q (snoc acc c)) tl.
Proof.
  intros [-> | ->];
    destruct c as [[] [] [] [] [] [] [] []];
    cbn; repeat (destruct (lex _ tl)); reflexivity.
Qed.

Lemma choose_quote_cases (s : string) :
  choose_quote s = QUOTE \/ choose_quote s = DQUOTE.
Proof.
  unfold choose_quote. destruct (_ && _); auto.
Qed.

(** A string literal written by [repr], from after its opening quote. *)
Lemma lex_escape (q : ascii) (s acc r : string) :
  q = QUOTE \/ q = DQUOTE ->
  lex (LStr q acc) (escape q s ++ String q r) =
  match lex LStart r with
  | Some ts => Some (TString (acc ++ s) :: ts)
  | None => None
  end.
Proof.
  intros Hq. revert acc. induction s as [|c s IH]; intros acc.
  - cbn [escape append lex step]. rewrite Ascii.eqb_refl, append_nil_r.
    reflexivity.
  - cbn [escape]. rewrite append_assoc, (lex_escape_char q c _ _ Hq), IH.
    now rewrite snoc_app.
Qed.

Lemma lex_repr_str (s r : string) :
  lex LStart (repr_str s ++ r) =
  match lex LStart r with
  | Some ts => Some (TString s :: ts)
  | None => None
  end.
Proof.
  unfold repr_str. cbn [append lex step].
  assert (Hs : from_start (choose_quote s)
               = Some ([], LStr (choose_quote s) "")).
  { destruct (choose_quote_cases s) as [-> | ->]; reflexivity. }
  rewrite Hs, append_assoc. cbn [append].
  rewrite (lex_escape _ s "" r (choose_quote_cases s)). cbn [append].
  now destruct (lex LStart r).
Qed.

Lemma lex_name_None (c : ascii) (r : string) :
  delimiter c ->
  lex LStart ("None" ++ String c r) =
  match lex LStart (String c r) with
  | Some ts => Some (TName "None" :: ts)
  | None => None
  end.
Proof.
  intros [-> | ->]; cbn; now destruct (lex LStart r).
Qed.

Lemma lex_silent (st st' : lex_state) (c : ascii) (s : string) :
  step st c = Some ([], st') -> lex st (String c s) = lex st' s.
Proof.
  intros H. cbn [lex]. rewrite H. now destruct (lex st' s).
Qed.

Lemma lex_digits (ds acc : string) (c : ascii) (r : string) :
  all_digits ds = true ->
  lex (LNumber acc) (ds ++ String c r) = lex (LNumber (acc ++ ds)) (String c r).
Proof.
  revert acc. induction ds as [|d ds IH]; intros acc Hd.
  - now rewrite append_nil_r.
  - cbn in Hd. apply andb_true_iff in Hd as [Hd Hds].
    cbn [append].
    rewrite (lex_silent (LNumber acc) (LNumber (snoc acc d)))
      by (cbn [step]; now rewrite Hd).
    now rewrite (IH _ Hds), snoc_app.
Qed.

Lemma lex_number_end (acc : string) (c : ascii) (r : string) :
  delimiter c ->
  lex (LNumber acc) (String c r) =
  match lex LStart (String c r) with
  | Some ts => Some (TNumber acc :: ts)
  | None => None
  end.
Proof.
  intros [-> | ->]; cbn; now destruct (lex LStart r).
Qed.

Lemma string_of_uint_digits (d : Decimal.uint) :
  all_digits (NilEmpty.string_of_uint d) = true.
Proof.
  induction d; cbn; auto.
Qed.

Lemma pos_to_uint_nonnil (p : positive) : Pos.to_uint p <> Decimal.Nil.
Proof.
  intros H. pose proof (DecimalPos.Unsigned.of_to p) as Ho.
  rewrite H in Ho. discriminate.
Qed.

(** The decimal form of an integer: an optional sign and at least one
    digit, which reads back as the integer. *)
Lemma repr_int_shape (z : Z) :
  exists (c : ascii) (ds : string),
    repr_int z = String c ds
    /\ (is_digit c || Ascii.eqb c "-")%bool = true
    /\ all_digits ds = true.
Proof.
  unfold repr_int, NilZero.string_of_int, NilZero.string_of_uint.
  destruct z as [|p|p]; cbn [Z.to_int].
  - exists "0"%char, ""%string. auto.
  - pose proof (pos_to_uint_nonnil p) as Hn.
    pose proof (string_of_uint_digits (Pos.to_uint p)) as Hd.
    destruct (Pos.to_uint p) eqn:Hp; [contradiction|..];
      cbn in *; eexists _, _; (split; [reflexivity|]); auto.
  - pose proof (string_of_uint_digits (Pos.to_uint p)) as Hd.
    exists "-"%char. eexists. split; [reflexivity|]. split; [reflexivity|].
    destruct (Pos.to_uint p); cbn in *; auto.
Qed.

Lemma from_start_number (c : ascii) :
  (is_digit c || Ascii.eqb c "-")%bool = true ->
  from_start c = Some ([], LNumber (String c "")).
Proof.
  destruct c as [[] [] [] [] [] [] [] []]; cbn; intros H;
    try discriminate H; reflexivity.
Qed.

Lemma lex_repr_int (z : Z) (c : ascii) (r : string) :
  delimiter c ->
  lex LStart (repr_int z ++ String c r) =
  match lex LStart (String c r) with
  | Some ts => Some (TNumber (repr_int z) :: ts)
  | None => None
  end.
Proof.
  intros Hc. destruct (repr_int_shape z) as [c0 [ds [-> [Hc0 Hds]]]].
  cbn [append].
  rewrite (lex_silent LStart (LNumber (String c0 "")))
    by (apply from_start_number, Hc0).
  now rewrite (lex_digits ds _ c r Hds), (lex_number_end _ c r Hc).
Qed.

Lemma atom_of_token_repr_int (z : Z) :
  atom_of_token (TNumber (repr_int z)) = Some (PInt z).
Proof.
  unfold atom_of_token, repr_int.
  rewrite NilZero.isi.
  - now rewrite DecimalZ.of_to.
  - destruct z as [|p|p]; cbn; try discriminate.
    intros [= H]. now apply pos_to_uint_nonnil in H.
  - destruct z as [|p|p]; cbn; try discriminate.
    intros [= H]. now apply pos_to_uint_nonnil in H.
Qed.

Lemma lex_emit (st st' : lex_state) (t : token) (c : ascii) (s : string) :
  step st c = Some ([t], st') ->
  lex st (String c s) =
  match lex st' s with
  | Some ts => Some (t :: ts)
  | None => None
  end.
Proof.
  intros H. cbn [lex]. now rewrite H.
Qed.

Lemma lex_repr_opt_int (p : option Z) (c : ascii) (r : string) :
  delimiter c ->
  lex LStart (repr_opt_int p ++ String c r) =
  match lex LStart (String c r) with
  | Some ts =>
      Some (match p with
            | Some z => TNumber (repr_int z)
            | None => TName "None"
            end :: ts)
  | None => None
  end.
Proof.
  intros Hc. destruct p as [z|]; cbn [repr_opt_int].
  - now apply lex_repr_int.
  - now apply lex_name_None.
Qed.

Lemma lex_repr_opt_str (o : option string) (c : ascii) (r : string) :
  delimiter c ->
  lex LStart (repr_opt_str o ++ String c r) =
  match lex LStart (String c r) with
  | Some ts =>
      Some (match o with
            | Some s => TString s
            | None => TName "None"
            end :: ts)
  | None => None
  end.
Proof.
  intros Hc. destruct o as [s|]; cbn [repr_opt_str].
  - apply lex_repr_str.
  - now apply lex_name_None.
Qed.

(** The tokens of a transferred identifier. *)
Lemma lex_repr_triple (p : option Z) (i r : option string) :
  lex LStart (repr_triple (p, i, r)) =
  Some [TLParen;
        match p with Some z => TNumber (repr_int z) | None => TName "None" end;
        TComma;
        match i with Some s => TString s | None => TName "None" end;
        TComma;
        match r with Some s => TString s | None => TName "None" end;
        TRParen].
Proof.
  unfold repr_triple. cbn [append].
  rewrite (lex_emit LStart LStart TLParen) by reflexivity.
  rewrite lex_repr_opt_int by (now left).
  rewrite (lex_emit LStart LStart TComma) by reflexivity.
  rewrite (lex_silent LStart LStart) by reflexivity.
  rewrite lex_repr_opt_str by (now left).
  rewrite (lex_emit LStart LStart TComma) by reflexivity.
  rewrite (lex_silent LStart LStart) by reflexivity.
  rewrite lex_repr_opt_str by (now right).
  rewrite (lex_emit LStart LStart TRParen) by reflexivity.
  reflexivity.
Qed.

(** What [literal_eval] reads from the [repr] of an identifier tuple is
    that tuple. *)
Lemma literal_eval_repr_triple (t : option Z * option string * option string) :
  literal_eval (repr_triple t) = Some (triple_value t).
Proof.
  destruct t as [[p i] r]. unfold literal_eval.
  rewrite lex_repr_triple.
  destruct p as [z|], i as [i|], r as [r|];
    cbn [parse_items triple_value];
    rewrite ?atom_of_token_repr_int; reflexivity.
Qed.

(** C6: for every identifier triple (optional process handle, optional
    interface name, reference string, the reference itself being absent
    for a log command without host), the text [repr] writes for the tuple
    is read back by [literal_eval] as a tuple equal to the original one:
    its three members are the process handle, the interface name and the
    reference; this holds for each identifier string the controller puts
    into the transferred configuration. *)
Theorem transfer_round_trip :
  (forall t : option Z * option string * option string,
     literal_eval_value (PStr (repr_triple t)) = Some (triple_value t))
  /\ (forall (p : option Z) (i : option string) (r : string),
        exists v,
          literal_eval (repr_triple (p, i, Some r)) = Some v
          /\ py_index v 0
             = Some (match p with Some z => PInt z | None => PNone end)
          /\ py_index v 1
             = Some (match i with Some s => PStr s | None => PNone end)
          /\ py_index v 2 = Some (PStr r))
  /\ (forall net identifiers,
        map literal_eval_value (new_identifier_strings net identifiers)
        = map (fun s =>
                 Some (triple_value
                   (_get_mininet_agnostic_identifiers_from_identifier_string
                      net s)))
              identifiers).
Proof.
  split; [|split].
  - intros t. apply literal_eval_repr_triple.
  - intros p i r. eexists. split; [apply literal_eval_repr_triple|].
    repeat split.
  - intros net identifiers. unfold new_identifier_strings.
    rewrite map_map. apply map_ext. intros s.
    apply literal_eval_repr_triple.
Qed.

End LiteralFacts.

(** ** Construction of the fault units *)

Lemma bind_inv {A B : Type} (m : M A) (f : A -> M B) (st : cfg_state)
    (r : B * cfg_state) :
  bind m f st = Some r ->
  exists a st', m st = Some (a, st') /\ f a st' = Some r.
Proof.
  unfold bind. destruct (m st) as [[a st']|]; [|discriminate].
  intros H. now exists a, st'.
Qed.

Lemma lift_inv {A : Type} (o : option A) (st : cfg_state) (a : A)
    (st' : cfg_state) :
  lift o st = Some (a, st') -> o = Some a /\ st' = st.
Proof.
  unfold lift. destruct o; [|discriminate]. now intros [= -> ->].
Qed.

Lemma in_protocols_any : in_protocols (PStr "any") = true.
Proof. reflexivity. Qed.

(** Whenever the extraction returns, the protocol it returns is one of
    the known ones. *)
Lemma target_arguments_protocol (fault_dict : pyval) (st st' : cfg_state)
    (p src dst : pyval) :
  _get_target_arguments_from_fault_dict fault_dict st
  = Some ((p, src, dst), st') ->
  in_protocols p = true.
Proof.
  unfold _get_target_arguments_from_fault_dict. intros H.
  apply bind_inv in H as [has [st0 [_ H]]].
  destruct has.
  - apply bind_inv in H as [tr [st1 [_ H]]].
    apply bind_inv in H as [p0 [st2 [_ H]]].
    apply bind_inv in H as [p' [st3 [Hp H]]].
    apply bind_inv in H as [s0 [st4 [_ H]]].
    apply bind_inv in H as [d0 [st5 [_ H]]].
    injection H as <- _ _ _.
    destruct (in_protocols p0) eqn:Hin; cbn [negb] in Hp.
    + now injection Hp as <- _.
    + apply bind_inv in Hp as [u [st6 [_ Hp]]]. now injection Hp as <- _.
  - now injection H as <- _ _ _.
Qed.

(** The extraction on a fault entry whose traffic section is a mapping. *)
Lemma target_arguments_section (d tt : list (string * pyval))
    (st : cfg_state) :
  dict_get d "target_traffic" = Some (PDict tt) ->
  let p := dict_get_default tt "protocol" (PStr "any") in
  _get_target_arguments_from_fault_dict (PDict d) st =
  Some ((if in_protocols p then p else PStr "any",
         dict_get_default tt "src_port" PNone,
         dict_get_default tt "dst_port" PNone),
        if in_protocols p then st
        else {| next_uuid := next_uuid st;
                log := log st ++
                  [(LError, [Lit "Fault target protocol "; Val p;
                             Lit " is unknown, injecting any instead"])] |}).
Proof.
  intros Hd p.
  assert (Hdd : dict_get_default d "target_traffic" PNone = PDict tt)
    by (unfold dict_get_default; now rewrite Hd).
  unfold _get_target_arguments_from_fault_dict, bind, lift.
  cbn [py_contains py_get]. unfold dict_mem. rewrite Hd, Hdd.
  cbn [py_get]. fold p.
  destruct (in_protocols p); reflexivity.
Qed.

(** The extraction on a fault entry without traffic section. *)
Lemma target_arguments_default (d : list (string * pyval)) (st : cfg_state) :
  dict_get d "target_traffic" = None ->
  _get_target_arguments_from_fault_dict (PDict d) st
  = Some ((PStr "any", PNone, PNone), st).
Proof.
  intros Hd. unfold _get_target_arguments_from_fault_dict, bind, lift.
  cbn [py_contains]. unfold dict_mem. now rewrite Hd.
Qed.

Lemma for_each_units {A B : Type} (P : B -> Prop) (f : A -> M (list B))
    (l : list A) :
  (forall a st bs st', f a st = Some (bs, st') -> Forall P bs) ->
  forall st bs st', for_each f l st = Some (bs, st') -> Forall P bs.
Proof.
  intros Hf. induction l as [|a l IH]; intros st bs st' H; cbn in H.
  - injection H as <- _. constructor.
  - apply bind_inv in H as [bs0 [st0 [H0 H]]].
    apply bind_inv in H as [bs1 [st1 [H1 H]]].
    injection H as <- _. apply Forall_app. split; eauto.
Qed.

Ltac bind_step H x st' Hx :=
  apply bind_inv in H as [x [st' [Hx H]]].

Lemma config_fault_object_protocol (uuid4 : nat -> string)
    (fault_object : pyval) (st st' : cfg_state) (units : list injector) :
  config_fault_object uuid4 fault_object st = Some (units, st') ->
  Forall known_protocol units.
Proof.
  unfold config_fault_object. intros H.
  bind_step H fault_type st0 H0.
  bind_step H fault_dict st1 H1.
  bind_step H targs st2 Ht. destruct targs as [[proto src] dst].
  apply target_arguments_protocol in Ht.
  bind_step H fault_args st3 H3.
  bind_step H tag0 st4 H4.
  bind_step H tg st5 H5.
  bind_step H pat st6 H6.
  bind_step H pargs st7 H7.
  bind_step H pre st8 H8.
  bind_step H inj st9 H9.
  bind_step H post st10 H10.
  bind_step H ftv st11 H11.
  destruct ftv as [| | |ty| | |]; try discriminate H.
  - bind_step H u st12 H12. injection H as <- _. constructor.
  - destruct (Regex.match_prefix_word "link_fault:" ty) as [kind|].
    + bind_step H ids st12 H12. bind_step H idl st13 H13.
      revert H. apply for_each_units.
      intros a s bs s' Ha.
      bind_step Ha v0 s0 Hv0. bind_step Ha v1 s1 Hv1.
      bind_step Ha v2 s2 Hv2. bind_step Ha v3 s3 Hv3.
      bind_step Ha v4 s4 Hv4. bind_step Ha v5 s5 Hv5.
      injection Ha as <- _. repeat constructor. exact Ht.
    + destruct (Regex.match_prefix_word "node_fault:" ty) as [kind|].
      * bind_step H ids st12 H12. bind_step H idl st13 H13.
        revert H. apply for_each_units.
        intros a s bs s' Ha.
        bind_step Ha v0 s0 Hv0. bind_step Ha v1 s1 Hv1.
        bind_step Ha v2 s2 Hv2. bind_step Ha v3 s3 Hv3.
        bind_step Ha v4 s4 Hv4.
        injection Ha as <- _. repeat constructor.
      * bind_step H u st12 H12. injection H as <- _. constructor.
Qed.

(** C8: for every fault entry with a [target_traffic] section: the
    extraction returns and never raises; the protocol it returns is one of
    the eight known ones; a protocol value that is not one of them is
    replaced by [any] and reported with one error record in the log, a
    known one is returned as it is and nothing is logged; a missing
    protocol field defaults to [any], missing ports to absent ports; for
    an entry without the section the result is [any] with absent ports;
    and no link fault unit is ever built with a protocol outside the
    known ones. *)
Theorem unknown_protocol_coerced (d tt : list (string * pyval))
    (st : cfg_state) :
  dict_get d "target_traffic" = Some (PDict tt) ->
  (exists p src dst st',
     _get_target_arguments_from_fault_dict (PDict d) st
     = Some ((p, src, dst), st')
     /\ in_protocols p = true
     /\ src = dict_get_default tt "src_port" PNone
     /\ dst = dict_get_default tt "dst_port" PNone
     /\ (forall v, dict_get tt "protocol" = Some v ->
           in_protocols v = false ->
           p = PStr "any"
           /\ log st' = log st ++
                [(LError, [Lit "Fault target protocol "; Val v;
                           Lit " is unknown, injecting any instead"])])
     /\ (forall v, dict_get tt "protocol" = Some v ->
           in_protocols v = true -> p = v /\ st' = st)
     /\ (dict_get tt "protocol" = None -> p = PStr "any" /\ st' = st)
     /\ (dict_get tt "src_port" = None -> src = PNone)
     /\ (dict_get tt "dst_port" = None -> dst = PNone))
  /\ (forall d', dict_get d' "target_traffic" = None ->
        _get_target_arguments_from_fault_dict (PDict d') st
        = Some ((PStr "any", PNone, PNone), st))
  /\ (forall uuid4 fault_object st0 st1 units u,
        config_fault_object uuid4 fault_object st0 = Some (units, st1) ->
        In (ILink u) units ->
        in_protocols (fault_target_protocol u) = true).
Proof.
  intros Hd. split; [|split].
  - pose proof (target_arguments_section d tt st Hd) as Hr. cbn zeta in Hr.
    eexists _, _, _, _. split; [exact Hr|].
    unfold dict_get_default.
    split; [|split; [reflexivity|split; [reflexivity|]]].
    { destruct (dict_get tt "protocol") as [v|]; [|reflexivity].
      now destruct (in_protocols v) eqn:Hv. }
    split; [|split; [|split; [|split]]].
    + intros v Hv Hin. rewrite Hv, Hin. now split.
    + intros v Hv Hin. rewrite Hv, Hin. now split.
    + intros Hv. rewrite Hv. now split.
    + intros Hv. now rewrite Hv.
    + intros Hv. now rewrite Hv.
  - intros d' Hd'. now apply target_arguments_default.
  - intros uuid4 fault_object st0 st1 units u Hc Hin.
    pose proof (config_fault_object_protocol _ _ _ _ _ Hc) as Hall.
    rewrite Forall_forall in Hall. exact (Hall _ Hin).
Qed.

(** An entry whose protocol is [SCTP]. *)
Lemma unknown_protocol_coerced_witness :
  exists p src dst st',
    _get_target_arguments_from_fault_dict
      (PDict [("target_traffic", PDict [("protocol", PStr "SCTP")])])
      {| next_uuid := 0; log := [] |}
    = Some ((p, src, dst), st')
    /\ in_protocols p = true.
Proof.
  destruct (unknown_protocol_coerced
              [("target_traffic", PDict [("protocol", PStr "SCTP")])]
              [("protocol", PStr "SCTP")]
              {| next_uuid := 0; log := [] |} eq_refl)
    as [[p [src [dst [st' [H1 [H2 _]]]]]] _].
  exists p, src, dst, st'. split; [exact H1 | exact H2].
Defined.

Lemma for_each_map {A B C : Type} (f : B -> M (list C)) (h : A -> B)
    (g : A -> C) (l : list A) (st : cfg_state) :
  (forall a, f (h a) st = Some ([g a], st)) ->
  for_each f (map h l) st = Some (map g l, st).
Proof.
  intros Hf. induction l as [|a l IH]; [reflexivity|].
  cbn [map for_each]. unfold bind at 1. rewrite Hf.
  unfold bind at 1. now rewrite IH.
Qed.

(** A type that names a node fault does not name a link fault. *)
Lemma node_fault_not_link_fault (ty kind : string) :
  Regex.match_prefix_word "node_fault:" ty = Some kind ->
  Regex.match_prefix_word "link_fault:" ty = None.
Proof.
  unfold Regex.match_prefix_word.
  destruct ty as [|c ty]; [discriminate|].
  cbn [Regex.literal].
  destruct (Ascii.eqb_spec "n" c) as [<-|]; [reflexivity | discriminate].
Qed.

Lemma target_arguments_returns (d : list (string * pyval)) (st : cfg_state) :
  dict_get d "target_traffic" = None
  \/ (exists tt, dict_get d "target_traffic" = Some (PDict tt)) ->
  exists r st1,
    _get_target_arguments_from_fault_dict (PDict d) st = Some (r, st1)
    /\ next_uuid st1 = next_uuid st.
Proof.
  intros [Hd | [tt Hd]].
  - rewrite (target_arguments_default d st Hd). eauto.
  - rewrite (target_arguments_section d tt st Hd).
    eexists _, _. split; [reflexivity|].
    now destruct (in_protocols _).
Qed.

Lemma dict_get_default_some (d : list (string * pyval)) (k : string)
    (v default : pyval) :
  dict_get d k = Some v -> dict_get_default d k default = v.
Proof.
  intros H. unfold dict_get_default. now rewrite H.
Qed.

(** The tag of the units of an entry, after the step that reads or
    generates it. *)
Lemma entry_tag_step (uuid4 : nat -> string) (d : list (string * pyval))
    (st0 st1 : cfg_state) :
  next_uuid st1 = next_uuid st0 ->
  (forall v, dict_get d "tag" = Some v -> v = PNone \/ exists s, v = PStr s) ->
  exists st2,
    match dict_get_default d "tag" PNone with
    | PNone => fresh_tag uuid4
    | _ => ret (dict_get_default d "tag" PNone)
    end st1 = Some (PStr (entry_tag uuid4 d st0), st2).
Proof.
  intros Hn Htag. unfold entry_tag, dict_get_default.
  destruct (dict_get d "tag") as [v|] eqn:Hv.
  - destruct (Htag v eq_refl) as [-> | [s ->]].
    + unfold fresh_tag. rewrite Hn. eauto.
    + unfold ret. eauto.
  - unfold fresh_tag. rewrite Hn. eauto.
Qed.

Lemma for_each_forall2 {A B C : Type} (Q : A -> C -> Prop)
    (f : B -> M (list C)) (h : A -> B) (l : list A) (st : cfg_state) :
  (forall a, exists u, f (h a) st = Some ([u], st) /\ Q a u) ->
  exists us, for_each f (map h l) st = Some (us, st) /\ Forall2 Q l us.
Proof.
  intros Hf. induction l as [|a l [us [IH HQ]]].
  - exists []. split; [reflexivity | constructor].
  - destruct (Hf a) as [u [Hu Hq]]. exists (u :: us).
    cbn [map for_each]. unfold bind at 1. rewrite Hu.
    unfold bind at 1. rewrite IH. split; [reflexivity|].
    now constructor.
Qed.

Lemma forall2_nth {A C : Type} (Q : A -> C -> Prop) (l : list A)
    (us : list C) :
  Forall2 Q l us ->
  length us = length l
  /\ forall k a, nth_error l k = Some a ->
       exists u, nth_error us k = Some u /\ Q a u.
Proof.
  induction 1 as [|a u l us Hq _ [IHl IHn]].
  - split; [reflexivity|]. intros [|k] a H; discriminate H.
  - split; [cbn; now rewrite IHl|].
    intros [|k] b H; cbn in *.
    + injection H as <-. now exists u.
    + now apply IHn.
Qed.

(** C7, as stated, fails: an entry of type [link_fault:delay] with one
    identifier, as the controller transfers it, and the tag 5 (a number,
    as YAML reads it) makes the loop body raise when it concatenates the
    tag with [@], and so does an entry whose traffic section is [None];
    no unit is built from either, and [_configByFile] raises on a
    configuration that holds one of them. *)
Lemma ill_typed_entry_counterexample :
  Regex.match_prefix_word "link_fault:" "link_fault:delay" = Some "delay"
  /\ length [transferred (Some 101%Z, Some "h1_eth0", "h1->h2")] = 1
  /\ config_fault_object (fun _ => "token")
       (PDict [("link_fault",
                PDict [("type", PStr "link_fault:delay");
                       ("tag", PInt 5);
                       ("identifiers",
                        PList [transferred
                                 (Some 101%Z, Some "h1_eth0", "h1->h2")])])])
       {| next_uuid := 0; log := [] |}
     = None
  /\ _configByFile (fun _ => "token")
       (PDict [("faults",
                PList [PDict [("link_fault",
                  PDict [("type", PStr "link_fault:delay");
                         ("tag", PInt 5);
                         ("identifiers",
                          PList [transferred
                                   (Some 101%Z, Some "h1_eth0", "h1->h2")])])]])])
       {| next_uuid := 0; log := [] |}
     = None
  /\ config_fault_object (fun _ => "token")
       (PDict [("link_fault",
                PDict [("type", PStr "link_fault:delay");
                       ("target_traffic", PNone);
                       ("identifiers",
                        PList [transferred
                                 (Some 101%Z, Some "h1_eth0", "h1->h2")])])])
       {| next_uuid := 0; log := [] |}
     = None.
Proof.
  repeat split.
Qed.

(** C7 (amended): for every fault entry whose type matches the link fault
    or the node fault pattern, whose tag is a string or absent, whose
    traffic section is a mapping or absent and whose identifier list holds
    N identifiers as the controller transfers them (the text of a triple
    with a string reference), the injector builds exactly N fault units
    from the entry, and the tag of the i-th unit is the tag of the entry
    (the next generated token when the tag is absent) followed by [@] and
    the reference string of the i-th identifier; for a configuration whose
    only fault entry it is, these are the units [_configByFile] returns. *)
Theorem fault_entry_expansion (uuid4 : nat -> string) (key : string)
    (d : list (string * pyval)) (rest : list (string * pyval))
    (ty kind : string)
    (triples : list (option Z * option string * string))
    (st : cfg_state) :
  dict_get d "type" = Some (PStr ty) ->
  Regex.match_prefix_word "link_fault:" ty = Some kind
  \/ Regex.match_prefix_word "node_fault:" ty = Some kind ->
  dict_get d "identifiers" = Some (PList (map transferred triples)) ->
  dict_get d "target_traffic" = None
  \/ (exists tt, dict_get d "target_traffic" = Some (PDict tt)) ->
  (forall v, dict_get d "tag" = Some v -> v = PNone \/ exists s, v = PStr s) ->
  exists units st',
    config_fault_object uuid4 (PDict ((key, PDict d) :: rest)) st
    = Some (units, st')
    /\ length units = length triples
    /\ (forall k t,
          nth_error triples k = Some t ->
          exists u,
            nth_error units k = Some u
            /\ tag u = PStr (entry_tag uuid4 d st ++ "@" ++ snd t))
    /\ (forall c,
          dict_get c "faults" = Some (PList [PDict ((key, PDict d) :: rest)]) ->
          _configByFile uuid4 (PDict c) st = Some (units, st')).
Proof.
  intros Hty Hkind Hids Htt Htag.
  destruct (target_arguments_returns d st Htt) as [[[proto src] dst] [st1 [Hta Hn]]].
  destruct (entry_tag_step uuid4 d st st1 Hn Htag) as [st2 Htg].
  set (Q := fun (t : option Z * option string * string) (u : injector) =>
              tag u = PStr (entry_tag uuid4 d st ++ "@" ++ snd t)).
  enough (exists units st',
            config_fault_object uuid4 (PDict ((key, PDict d) :: rest)) st
            = Some (units, st') /\ Forall2 Q triples units) as
      [units [st' [Hc HQ]]].
  { exists units, st'. split; [exact Hc|].
    destruct (forall2_nth Q triples units HQ) as [Hlen Hnth].
    split; [exact Hlen|]. split; [exact Hnth|].
    intros c Hf. unfold _configByFile.
    unfold bind at 1. cbn [lift py_get].
    rewrite (dict_get_default_some c "faults" _ PNone Hf).
    unfold bind at 1. cbn [lift py_iter for_each].
    unfold bind at 1. rewrite Hc.
    unfold bind at 1. cbn [ret]. now rewrite app_nil_r. }
  unfold config_fault_object.
  unfold bind at 1. cbn [lift first_key].
  assert (Hfd : dict_get_default ((key, PDict d) :: rest) key PNone = PDict d).
  { unfold dict_get_default. cbn [dict_get]. now rewrite String.eqb_refl. }
  unfold bind at 1. cbn [lift py_get]. rewrite Hfd.
  unfold bind at 1. rewrite Hta.
  unfold bind at 1. cbn [lift py_get].
  unfold bind at 1. cbn [lift py_get].
  unfold bind at 1. rewrite Htg.
  do 6 (unfold bind at 1; cbn [lift py_get]).
  rewrite (dict_get_default_some d "type" _ PNone Hty).
  assert (Hunit_tag : forall r,
            str_add (PStr (entry_tag uuid4 d st)) (PStr "@") = Some
              (PStr (entry_tag uuid4 d st ++ "@"))
            /\ str_add (PStr (entry_tag uuid4 d st ++ "@")) (PStr r)
               = Some (PStr (entry_tag uuid4 d st ++ "@" ++ r))).
  { intros r. split; [reflexivity|]. cbn [str_add].
    now rewrite append_assoc. }
  destruct Hkind as [Hlink | Hnode].
  - rewrite Hlink.
    unfold bind at 1. cbn [lift py_get].
    rewrite (dict_get_default_some d "identifiers" _ PNone Hids).
    unfold bind at 1. cbn [lift py_iter].
    match goal with
    | |- exists units st', for_each ?f _ _ = _ /\ _ =>
        destruct (for_each_forall2 Q f transferred triples st2) as [us [Hus HQ]]
    end.
    + intros [[p i] r]. unfold transferred, bind, lift, ret.
      cbn [fst snd literal_eval_value].
      rewrite literal_eval_repr_triple.
      cbn [Literal.triple_value py_index nth_error].
      destruct (Hunit_tag r) as [-> ->].
      eexists. split; [reflexivity|]. reflexivity.
    + exists us, st2. split; [exact Hus | exact HQ].
  - rewrite (node_fault_not_link_fault ty kind Hnode), Hnode.
    unfold bind at 1. cbn [lift py_get].
    rewrite (dict_get_default_some d "identifiers" _ PNone Hids).
    unfold bind at 1. cbn [lift py_iter].
    match goal with
    | |- exists units st', for_each ?f _ _ = _ /\ _ =>
        destruct (for_each_forall2 Q f transferred triples st2) as [us [Hus HQ]]
    end.
    + intros [[p i] r]. unfold transferred, bind, lift, ret.
      cbn [fst snd literal_eval_value].
      rewrite literal_eval_repr_triple.
      cbn [Literal.triple_value py_index nth_error].
      destruct (Hunit_tag r) as [-> ->].
      eexists. split; [reflexivity|]. reflexivity.
    + exists us, st2. split; [exact Hus | exact HQ].
Qed.

(** A delay fault on two identifiers of the example topology, without a
    tag. *)
Lemma fault_entry_expansion_witness :
  exists units st',
    config_fault_object (fun _ => "token")
      (PDict [("link_fault",
               PDict [("type", PStr "link_fault:delay");
                      ("identifiers",
                       PList (new_identifier_strings Example.net
                                [Some "h1->h2"; Some "h2->h1:h2_eth0"]))])])
      {| next_uuid := 0; log := [] |}
    = Some (units, st')
    /\ length units = 2
    /\ (exists u, nth_error units 1 = Some u
                  /\ tag u = PStr "token@h2->h1:h2_eth0").
Proof.
  destruct (fault_entry_expansion (fun _ => "token") "link_fault"
              [("type", PStr "link_fault:delay");
               ("identifiers",
                PList (new_identifier_strings Example.net
                         [Some "h1->h2"; Some "h2->h1:h2_eth0"]))]
              [] "link_fault:delay" "delay"
              [(Some 101%Z, Some "h1_eth1", "h1->h2");
               (Some 102%Z, Some "h2_eth0", "h2->h1:h2_eth0")]
              {| next_uuid := 0; log := [] |})
    as [units [st' [Hc [Hlen [Hnth _]]]]].
  - reflexivity.
  - left. reflexivity.
  - reflexivity.
  - left. reflexivity.
  - intros v H. discriminate H.
  - exists units, st'. split; [exact Hc|]. split; [exact Hlen|].
    exact (Hnth 1 _ eq_refl).
Defined.

(** * Further properties *)

(** ** The arrow pattern *)

Section ArrowFacts.
Import Regex.

Lemma word_star_spec (s w r : string) :
  word_star s = (w, r) ->
  s = (w ++ r)%string
  /\ all_word w = true
  /\ (forall c r', r = String c r' -> is_word c = false).
Proof.
  revert w r. induction s as [|c s IH]; intros w r H; cbn in H.
  - injection H as <- <-. repeat split. intros c r' Hr. discriminate Hr.
  - destruct (is_word c) eqn:Hc.
    + destruct (word_star s) as [w0 r0]. injection H as <- <-.
      destruct (IH w0 r0 eq_refl) as [-> [Hw Hr]].
      repeat split; cbn; [now rewrite Hc, Hw | exact Hr].
    + injection H as <- <-. repeat split.
      intros c' r' [= <- _]. exact Hc.
Qed.

Lemma at_end_cases (s : string) :
  at_end s = true <-> s = ""%string \/ s = NL.
Proof.
  unfold at_end, NL. split.
  - destruct s as [|c [|c' s]]; auto; try discriminate.
    intros H. apply Ascii.eqb_eq in H. subst. now right.
  - intros [-> | ->]; reflexivity.
Qed.

Lemma match_implicit_link_shape (s a b : string) :
  match_implicit_link s = Some (a, b) ->
  all_word a = true /\ all_word b = true
  /\ (s = (a ++ "->" ++ b)%string \/ s = (a ++ "->" ++ b ++ NL)%string).
Proof.
  unfold match_implicit_link.
  destruct (word_star s) as [g0 r0] eqn:H0.
  destruct (literal "->" r0) as [r1|] eqn:H1; [|discriminate].
  destruct (word_star r1) as [g1 r2] eqn:H2.
  destruct (at_end r2) eqn:H3; [|discriminate].
  intros [= <- <-].
  apply word_star_spec in H0 as [-> [Ha _]].
  apply word_star_spec in H2 as [-> [Hb _]].
  apply literal_inv in H1 as ->.
  apply at_end_cases in H3.
  repeat split; auto.
  destruct H3 as [-> | ->]; [left | right]; [|reflexivity].
  now rewrite append_nil_r.
Qed.

Lemma match_explicit_link_shape (s a b i : string) :
  match_explicit_link s = Some (a, b, i) ->
  all_word a = true /\ all_word b = true /\ all_word i = true
  /\ (s = (a ++ "->" ++ b ++ ":" ++ i)%string
      \/ s = (a ++ "->" ++ b ++ ":" ++ i ++ NL)%string).
Proof.
  unfold match_explicit_link.
  destruct (word_star s) as [g0 r0] eqn:H0.
  destruct (literal "->" r0) as [r1|] eqn:H1; [|discriminate].
  destruct (word_star r1) as [g1 r2] eqn:H2.
  destruct (literal ":" r2) as [r3|] eqn:H3; [|discriminate].
  destruct (word_star r3) as [g2 r4] eqn:H4.
  destruct (at_end r4) eqn:H5; [|discriminate].
  intros [= <- <- <-].
  apply word_star_spec in H0 as [-> [Ha _]].
  apply word_star_spec in H2 as [-> [Hb _]].
  apply word_star_spec in H4 as [-> [Hi _]].
  apply literal_inv in H1 as ->. apply literal_inv in H3 as ->.
  apply at_end_cases in H5.
  repeat split; auto.
  destruct H5 as [-> | ->]; [left | right]; [|reflexivity].
  now rewrite append_nil_r.
Qed.

(** The word class beyond ASCII: the letter e with an acute accent (code
    233) and the superscript two (code 178) are word characters, as they
    are for Python; the multiplication sign (code 215) and the hyphen are
    not.  A reference whose node name begins with the former is a link
    reference. *)
Lemma is_word_latin1 :
  is_word "233" = true /\ is_word "178" = true
  /\ is_word "215" = false /\ is_word "-" = false
  /\ match_implicit_link (String "233" "->b")
     = Some (String "233" "", "b"%string).
Proof.
  repeat split.
Qed.

Lemma is_word_LF : is_word LF = false.
Proof. reflexivity. Qed.

Lemma match_implicit_link_newline (a b : string) :
  all_word a = true -> all_word b = true ->
  match_implicit_link (a ++ "->" ++ b ++ NL) = Some (a, b).
Proof.
  intros Ha Hb. unfold match_implicit_link.
  rewrite (word_star_app a ("->" ++ b ++ NL)); auto.
  - cbn [literal Ascii.eqb append]. cbn.
    rewrite (word_star_app b NL); auto.
    intros c r' [= <- _]. reflexivity.
  - intros c r' [= <- _]. reflexivity.
Qed.

Lemma match_explicit_link_newline (a b i : string) :
  all_word a = true -> all_word b = true -> all_word i = true ->
  match_explicit_link (a ++ "->" ++ b ++ ":" ++ i ++ NL) = Some (a, b, i).
Proof.
  intros Ha Hb Hi. unfold match_explicit_link.
  rewrite (word_star_app a ("->" ++ b ++ ":" ++ i ++ NL)); auto.
  - cbn. rewrite (word_star_app b (String ":" (i ++ NL))); auto.
    + cbn. rewrite (word_star_app i NL); auto.
      intros c r' [= <- _]. reflexivity.
    + intros c r' [= <- _]. reflexivity.
  - intros c r' [= <- _]. reflexivity.
Qed.

(** X1: [_is_string_in_arrow_pattern] accepts exactly the strings made of
    a word, the arrow [->], a word, then nothing or a colon and a word,
    and at the very end possibly one line feed; a word is a possibly empty
    run of word characters, those of the class [\w] of a Python [str]
    pattern: the letters, the digits and the underscore of ASCII and, among
    the code points below 256, the alphanumeric characters of Latin-1. *)
Theorem arrow_pattern_shape (s : string) :
  _is_string_in_arrow_pattern s = true <->
  exists a b t,
    all_word a = true /\ all_word b = true
    /\ s = (a ++ "->" ++ b ++ t)%string
    /\ (t = ""%string \/ t = NL
        \/ exists i, all_word i = true
             /\ (t = (":" ++ i)%string \/ t = (":" ++ i ++ NL)%string)).
Proof.
  unfold _is_string_in_arrow_pattern. split.
  - destruct (match_implicit_link s) as [[a b]|] eqn:Hi.
    + intros _. apply match_implicit_link_shape in Hi as [Ha [Hb Hs]].
      exists a, b. destruct Hs as [-> | ->].
      * exists ""%string. rewrite append_nil_r. auto.
      * exists NL. auto 6.
    + destruct (match_explicit_link s) as [[[a b] i]|] eqn:He;
        [|discriminate].
      intros _. apply match_explicit_link_shape in He as [Ha [Hb [Hw Hs]]].
      exists a, b. destruct Hs as [-> | ->].
      * exists (":" ++ i)%string. repeat split; auto.
        right. right. exists i. auto.
      * exists (":" ++ i ++ NL)%string. repeat split; auto.
        right. right. exists i. auto.
  - intros [a [b [t [Ha [Hb [-> Ht]]]]]].
    destruct Ht as [-> | [-> | [i [Hi [-> | ->]]]]].
    + rewrite append_nil_r, (match_implicit_link_syntax a b Ha Hb).
      reflexivity.
    + now rewrite (match_implicit_link_newline a b Ha Hb).
    + rewrite (explicit_excludes_implicit _ _
                 (match_explicit_link_syntax a b i Ha Hb Hi)).
      now rewrite (match_explicit_link_syntax a b i Ha Hb Hi).
    + rewrite (explicit_excludes_implicit _ _
                 (match_explicit_link_newline a b i Ha Hb Hi)).
      now rewrite (match_explicit_link_newline a b i Ha Hb Hi).
Qed.

End ArrowFacts.

(** ** Further properties of the resolution *)

Lemma nonword_tail_not_at_end (c : ascii) (r : string) :
  c <> Regex.LF \/ r <> ""%string -> Regex.at_end (String c r) = false.
Proof.
  intros H. unfold Regex.at_end. destruct r as [|c' r]; [|reflexivity].
  destruct H as [H | H]; [|contradiction].
  now apply Ascii.eqb_neq.
Qed.

(** X2: a reference [a->b:i] whose interface name [i] holds a character
    that is not a word character of Python's class [\w] (the hyphen of
    [h1-eth0], say) is not in arrow pattern; it is read as a bare node
    name, and it resolves to an absent process handle and an absent
    interface unless a host carries the whole reference as its name. *)
Theorem nonword_interface_is_bare (net : Mininet) (a b w r : string)
    (c : ascii) :
  Regex.all_word a = true -> Regex.all_word b = true ->
  Regex.all_word w = true -> Regex.is_word c = false ->
  c <> Regex.LF \/ r <> ""%string ->
  let s := (a ++ "->" ++ b ++ ":" ++ w ++ String c r)%string in
  _is_string_in_arrow_pattern s = false
  /\ parse_identifier s = (s, None, None)
  /\ ((forall n, In n (hosts net) -> Node.name n <> s) ->
      resolve net s = (None, None, Some s)).
Proof.
  intros Ha Hb Hw Hc Hr s.
  set (t := String ":" (w ++ String c r)).
  assert (Wa : Regex.word_star s = (a, String "-" (String ">" (b ++ t)))).
  { apply (word_star_app a (String "-" (String ">" (b ++ t)))); [exact Ha|].
    now intros c0 r' [= <- _]. }
  assert (Wb : Regex.word_star (b ++ t) = (b, t)).
  { apply word_star_app; [exact Hb|]. now intros c0 r' [= <- _]. }
  assert (Ww : Regex.word_star (w ++ String c r) = (w, String c r)).
  { apply word_star_app; [exact Hw|]. now intros c0 r' [= <- _]. }
  assert (Hi : Regex.match_implicit_link s = None).
  { unfold Regex.match_implicit_link. rewrite Wa.
    cbn [Regex.literal Ascii.eqb Bool.eqb]. rewrite Wb. unfold t.
    destruct w; reflexivity. }
  assert (He : Regex.match_explicit_link s = None).
  { unfold Regex.match_explicit_link. rewrite Wa.
    cbn [Regex.literal Ascii.eqb Bool.eqb]. rewrite Wb. unfold t.
    cbn [Regex.literal Ascii.eqb Bool.eqb]. rewrite Ww.
    now rewrite (nonword_tail_not_at_end c r Hr). }
  pose proof (parse_identifier_bare s Hi He) as Hp.
  split; [|split].
  - unfold _is_string_in_arrow_pattern. now rewrite Hi, He.
  - exact Hp.
  - intros Hnone. unfold_resolve.
    rewrite Hp, (find_host_none _ _ Hnone), scan_links_bare. reflexivity.
Qed.

(** The interface [h1-eth0] exists on a link between [h1] and [h2], and
    the reference that names it resolves to nothing. *)
Lemma nonword_interface_is_bare_witness :
  resolve
    {| hosts := [Example.h1; Example.h2];
       links := [Link.mk (Intf.mk "h1-eth0" Example.h1)
                         (Intf.mk "h2-eth0" Example.h2)] |}
    "h1->h2:h1-eth0"
  = (None, None, Some "h1->h2:h1-eth0").
Proof.
  apply (nonword_interface_is_bare
           {| hosts := [Example.h1; Example.h2];
              links := [Link.mk (Intf.mk "h1-eth0" Example.h1)
                                (Intf.mk "h2-eth0" Example.h2)] |}
           "h1" "h2" "h1" "eth0" "-"); try reflexivity.
  - left. discriminate.
  - intros n [<- | [<- | []]]; discriminate.
Defined.

(** An endpoint of [link]: an interface name with its node. *)
Lemma scan_links_sound (ls : list Link.t) (a : string)
    (b e ci : option string) (ch : option Node.t) (i : string) (h : Node.t) :
  scan_links ls a b e ci ch = (Some i, Some h) ->
  (ci = Some i /\ ch = Some h)
  \/ (Node.name h = a
      /\ exists link,
           In link ls
           /\ (Link.intf1 link = Intf.mk i h \/ Link.intf2 link = Intf.mk i h)).
Proof.
  revert ci ch. induction ls as [|link ls IH]; intros ci ch H.
  - cbn in H. injection H as -> ->. now left.
  - cbn [scan_links] in H.
    assert (Hlater : forall ci' ch',
              (ci' = None /\ ch' = None) \/ (ci' = ci /\ ch' = ch) ->
              scan_links ls a b e ci' ch' = (Some i, Some h) ->
              (ci = Some i /\ ch = Some h)
              \/ (Node.name h = a
                  /\ exists l, In l (link :: ls)
                       /\ (Link.intf1 l = Intf.mk i h
                           \/ Link.intf2 l = Intf.mk i h))).
    { intros ci' ch' Hc Hs. destruct (IH _ _ Hs) as [[H1 H2] | [Hn [l [Hin Hl]]]].
      - destruct Hc as [[-> ->] | [-> ->]]; [discriminate | now left].
      - right. split; [exact Hn|]. exists l. split; [now right | exact Hl]. }
    destruct (String.eqb _ a && eq_opt _ b) eqn:C1.
    + apply andb_true_iff in C1 as [Hn1 _]. apply String.eqb_eq in Hn1.
      assert (Hhere : forall i' h',
                Some (Intf.name (Link.intf1 link)) = Some i' ->
                Some (Intf.node (Link.intf1 link)) = Some h' ->
                Node.name h' = a
                /\ exists l, In l (link :: ls)
                     /\ (Link.intf1 l = Intf.mk i' h'
                         \/ Link.intf2 l = Intf.mk i' h')).
      { intros i' h' [= <-] [= <-]. split; [exact Hn1|].
        exists link. split; [now left|]. left.
        now destruct (Link.intf1 link). }
      destruct (truthy e).
      * destruct (eq_opt _ e).
        -- injection H as Hi Hh. right. apply Hhere; congruence.
        -- apply (Hlater None None); auto.
      * destruct (IH _ _ H) as [[Hi Hh] | [Hn [l [Hin Hl]]]].
        -- right. now apply Hhere.
        -- right. split; [exact Hn|]. exists l. split; [now right | exact Hl].
    + destruct (eq_opt _ b && String.eqb _ a) eqn:C2.
      * apply andb_true_iff in C2 as [_ Hn2]. apply String.eqb_eq in Hn2.
        assert (Hhere : forall i' h',
                  Some (Intf.name (Link.intf2 link)) = Some i' ->
                  Some (Intf.node (Link.intf2 link)) = Some h' ->
                  Node.name h' = a
                  /\ exists l, In l (link :: ls)
                       /\ (Link.intf1 l = Intf.mk i' h'
                           \/ Link.intf2 l = Intf.mk i' h')).
        { intros i' h' [= <-] [= <-]. split; [exact Hn2|].
          exists link. split; [now left|]. right.
          now destruct (Link.intf2 link). }
        destruct (truthy e).
        -- destruct (eq_opt _ e).
           ++ injection H as Hi Hh. right. apply Hhere; congruence.
           ++ apply (Hlater None None); auto.
        -- destruct (IH _ _ H) as [[Hi Hh] | [Hn [l [Hin Hl]]]].
           ++ right. now apply Hhere.
           ++ right. split; [exact Hn|]. exists l.
              split; [now right | exact Hl].
      * apply (Hlater ci ch); auto.
Qed.

(** The scan returns an interface together with its host, or neither. *)
Lemma scan_links_paired (ls : list Link.t) (a : string)
    (b e : option string) :
  (exists i h, scan_links ls a b e None None = (Some i, Some h))
  \/ scan_links ls a b e None None = (None, None).
Proof.
  enough (forall ci ch,
            (exists i h, ci = Some i /\ ch = Some h)
            \/ (ci = None /\ ch = None) ->
            (exists i h, scan_links ls a b e ci ch = (Some i, Some h))
            \/ scan_links ls a b e ci ch = (None, None)) as H.
  { apply H. now right. }
  induction ls as [|link ls IH]; intros ci ch Hc.
  - cbn. destruct Hc as [[i [h [-> ->]]] | [-> ->]]; eauto.
  - cbn [scan_links].
    destruct (_ && _).
    + destruct (truthy e); [destruct (eq_opt _ e)|]; eauto.
      apply IH. eauto.
    + destruct (_ && _); [|now apply IH].
      destruct (truthy e); [destruct (eq_opt _ e)|]; eauto.
      apply IH. eauto.
Qed.

Lemma parse_identifier_arrow (s : string) :
  (_is_string_in_arrow_pattern s = true
   /\ exists a b e, parse_identifier s = (a, Some b, e))
  \/ (_is_string_in_arrow_pattern s = false
      /\ parse_identifier s = (s, None, None)).
Proof.
  unfold _is_string_in_arrow_pattern, parse_identifier.
  destruct (Regex.match_implicit_link s) as [[a b]|]; [left; eauto|].
  destruct (Regex.match_explicit_link s) as [[[a b] e]|]; [left; eauto|].
  now right.
Qed.

(** X3: whenever the resolver returns an interface for a reference, the
    reference is in arrow pattern, the interface is an endpoint of a link
    of the topology, the host returned with it is the node of that
    endpoint, and that host is the one named on the left of the arrow. *)
Theorem resolved_interface_is_an_endpoint (net : Mininet) (s i : string)
    (h : option Node.t) (w : list log_record) :
  _get_node_and_interface_name_from_identifier_string net (Some s)
  = ((Some i, h), w) ->
  exists host link,
    h = Some host
    /\ In link (links net)
    /\ (Link.intf1 link = Intf.mk i host \/ Link.intf2 link = Intf.mk i host)
    /\ Node.name host = fst (fst (parse_identifier s))
    /\ _is_string_in_arrow_pattern s = true
    /\ w = [].
Proof.
  unfold _get_node_and_interface_name_from_identifier_string.
  destruct (parse_identifier_arrow s) as [[Harrow [a [b [e Hp]]]] | [_ Hp]];
    rewrite Hp; cbn [fst].
  - destruct (scan_links (links net) a (Some b) e None None) as [ci ch] eqn:Hs.
    destruct ci as [i'|]; [|destruct (truthy e); discriminate].
    intros [= -> <- <-].
    destruct (scan_links_paired (links net) a (Some b) e)
      as [[i2 [h2 H2]] | H2]; rewrite H2 in Hs; [|discriminate].
    injection Hs as -> <-.
    destruct (scan_links_sound _ _ _ _ _ _ _ _ H2)
      as [[Hn _] | [Hn [link [Hin Hl]]]]; [discriminate|].
    exists h2, link. auto 7.
  - destruct (find_host (hosts net) s); [discriminate|].
    rewrite scan_links_bare. discriminate.
Qed.

(** The explicit reference to the second link of the example. *)
Lemma resolved_interface_is_an_endpoint_witness :
  exists host link,
    Some Example.h1 = Some host
    /\ In link (links Example.net)
    /\ (Link.intf1 link = Intf.mk "h1_eth1" host
        \/ Link.intf2 link = Intf.mk "h1_eth1" host)
    /\ Node.name host = fst (fst (parse_identifier "h1->h2:h1_eth1"))
    /\ _is_string_in_arrow_pattern "h1->h2:h1_eth1" = true
    /\ @nil log_record = [].
Proof.
  apply (resolved_interface_is_an_endpoint Example.net "h1->h2:h1_eth1").
  reflexivity.
Defined.

(** X4: for every identifier string the resolver ends in one of three
    ways: an interface with its host and no warning, for a reference in
    arrow pattern; a host without interface and no warning, for a bare
    name that a host carries; or neither host nor interface, with exactly
    one warning.  It never returns an interface without a host. *)
Theorem resolver_outcomes (net : Mininet) (s : string) :
  let r := _get_node_and_interface_name_from_identifier_string net (Some s) in
  (exists i host,
     r = ((Some i, Some host), [])
     /\ _is_string_in_arrow_pattern s = true)
  \/ (exists host,
        r = ((None, Some host), [])
        /\ _is_string_in_arrow_pattern s = false
        /\ Node.name host = s /\ In host (hosts net))
  \/ (exists msg, r = ((None, None), [(LWarn, msg)])).
Proof.
  cbv zeta. unfold _get_node_and_interface_name_from_identifier_string.
  destruct (parse_identifier_arrow s) as [[Harrow [a [b [e Hp]]]] | [Harrow Hp]];
    rewrite Hp.
  - destruct (scan_links_paired (links net) a (Some b) e)
      as [[i [h H]] | H]; rewrite H.
    + left. eauto.
    + right. right. destruct (truthy e); eauto.
  - destruct (find_host (hosts net) s) as [host|] eqn:Hf.
    + right. left. exists host.
      destruct (find_host_some _ _ _ Hf). auto.
    + right. right. rewrite scan_links_bare. cbn. eauto.
Qed.

Lemma corresponding_side_swap (a b : string) (link : Link.t) :
  a <> b ->
  match corresponding_side a b link with
  | Some side =>
      exists side',
        corresponding_side b a link = Some side'
        /\ ((side = Link.intf1 link /\ side' = Link.intf2 link)
            \/ (side = Link.intf2 link /\ side' = Link.intf1 link))
  | None => corresponding_side b a link = None
  end.
Proof.
  intros Hab. unfold corresponding_side.
  destruct (String.eqb_spec (Node.name (Intf.node (Link.intf1 link))) a) as [E1|E1];
  destruct (String.eqb_spec (Node.name (Intf.node (Link.intf2 link))) b) as [E2|E2];
  destruct (String.eqb_spec (Node.name (Intf.node (Link.intf1 link))) b) as [E3|E3];
  destruct (String.eqb_spec (Node.name (Intf.node (Link.intf2 link))) a) as [E4|E4];
    cbn [andb]; try congruence; eauto 6.
Qed.

(** X5: when the names [a] and [b] differ, the implicit references
    [a->b] and [b->a] resolve on the same link, the last one that joins
    the two nodes, to its two opposite endpoints: each reference gets the
    interface and the process id on the side of the node it names
    first. *)
Theorem implicit_link_both_directions (net : Mininet) (s s' a b : string)
    (pre post : list Link.t) (link : Link.t) (side : Intf.t) :
  a <> b ->
  Regex.match_implicit_link s = Some (a, b) ->
  Regex.match_implicit_link s' = Some (b, a) ->
  links net = pre ++ link :: post ->
  corresponding_side a b link = Some side ->
  (forall l, In l post -> corresponding_side a b l = None) ->
  exists side',
    resolve net s
    = (Some (Node.pid (Intf.node side)), Some (Intf.name side), Some s)
    /\ resolve net s'
       = (Some (Node.pid (Intf.node side')), Some (Intf.name side'), Some s')
    /\ ((side = Link.intf1 link /\ side' = Link.intf2 link)
        \/ (side = Link.intf2 link /\ side' = Link.intf1 link)).
Proof.
  intros Hab Hs Hs' Hl Hc Hpost.
  pose proof (corresponding_side_swap a b link Hab) as Hsw.
  rewrite Hc in Hsw. destruct Hsw as [side' [Hc' Hsides]].
  exists side'. split; [|split; [|exact Hsides]].
  - rewrite (resolve_link net s a b None (parse_identifier_implicit _ _ _ Hs)).
    rewrite (scan_links_implicit _ a b None None None eq_refl), Hl.
    now rewrite (last_side_app a b pre post link side Hc Hpost).
  - rewrite (resolve_link net s' b a None (parse_identifier_implicit _ _ _ Hs')).
    rewrite (scan_links_implicit _ b a None None None eq_refl), Hl.
    rewrite (last_side_app b a pre post link side' Hc'); [reflexivity|].
    intros l Hin. pose proof (corresponding_side_swap a b l Hab) as Hl'.
    now rewrite (Hpost l Hin) in Hl'.
Qed.

(** The two directions of the last link of the example. *)
Lemma implicit_link_both_directions_witness :
  exists side',
    resolve Example.net "h1->h2"
    = (Some 101%Z, Some "h1_eth1", Some "h1->h2")
    /\ resolve Example.net "h2->h1"
       = (Some (Node.pid (Intf.node side')), Some (Intf.name side'),
          Some "h2->h1")
    /\ ((Intf.mk "h1_eth1" Example.h1 = Link.intf1 Example.link1
         /\ side' = Link.intf2 Example.link1)
        \/ (Intf.mk "h1_eth1" Example.h1 = Link.intf2 Example.link1
            /\ side' = Link.intf1 Example.link1)).
Proof.
  apply (implicit_link_both_directions Example.net "h1->h2" "h2->h1"
           "h1" "h2" [Example.link0] [] Example.link1
           (Intf.mk "h1_eth1" Example.h1)); try reflexivity.
  - discriminate.
  - intros l [].
Defined.

(** ** The transferred configuration *)

Lemma dict_get_set_same (d : list (string * pyval)) (k : string) (v : pyval) :
  dict_get (dict_set d k v) k = Some v.
Proof.
  induction d as [|[k' v'] d IH]; cbn.
  - now rewrite String.eqb_refl.
  - destruct (String.eqb k' k) eqn:E; cbn; now rewrite E.
Qed.

Lemma dict_get_set_other (d : list (string * pyval)) (k k' : string)
    (v : pyval) :
  k' <> k -> dict_get (dict_set d k v) k' = dict_get d k'.
Proof.
  intros Hne. induction d as [|[k0 v0] d IH]; cbn.
  - destruct (String.eqb_spec k k'); [congruence | reflexivity].
  - destruct (String.eqb_spec k0 k) as [->|Hk]; cbn.
    + destruct (String.eqb_spec k k'); [congruence | reflexivity].
    + destruct (String.eqb k0 k'); [reflexivity | exact IH].
Qed.

Lemma dict_get_default_set_other (d : list (string * pyval)) (k k' : string)
    (v default : pyval) :
  k' <> k ->
  dict_get_default (dict_set d k v) k' default = dict_get_default d k' default.
Proof.
  intros Hne. unfold dict_get_default. now rewrite dict_get_set_other.
Qed.

Lemma dict_set_same (d : list (string * pyval)) (k : string) (v : pyval) :
  dict_get d k = Some v -> dict_set d k v = d.
Proof.
  induction d as [|[k' v'] d IH]; cbn; [discriminate|].
  destruct (String.eqb k' k).
  - now intros [= ->].
  - intros H. now rewrite (IH H).
Qed.

Lemma logged_logged (st : cfg_state) (r1 r2 : list log_record) :
  logged (logged st r1) r2 = logged st (r1 ++ r2).
Proof.
  unfold logged. cbn. now rewrite app_assoc.
Qed.

Lemma logged_nil (st : cfg_state) : logged st [] = st.
Proof.
  unfold logged. rewrite app_nil_r. now destruct st.
Qed.

(** The loop that fills [new_identifier_strings], with its warnings. *)
Lemma build_identifiers (net : Mininet) (ids : list (option string))
    (st : cfg_state) :
  for_each (fun identifier_string =>
              bind (lift (as_identifier identifier_string)) (fun s =>
              bind (agnostic_logged net s) (fun node_identifying_tuple =>
              ret [PStr (Literal.repr_triple node_identifying_tuple)])))
           (map of_opt_str ids) st
  = Some (new_identifier_strings net ids,
          logged st (resolution_warnings net ids)).
Proof.
  revert st. induction ids as [|s ids IH]; intros st.
  - cbn. unfold ret. now rewrite logged_nil.
  - cbn [map for_each]. unfold bind at 1.
    assert (Hs : as_identifier (of_opt_str s) = Some s) by now destruct s.
    unfold bind at 1. rewrite Hs. cbn [lift].
    unfold bind at 1. cbn [agnostic_logged ret].
    unfold bind at 1.
    change {| next_uuid := next_uuid st;
              log := log st ++
                snd (_get_node_and_interface_name_from_identifier_string net s) |}
      with (logged st
              (snd (_get_node_and_interface_name_from_identifier_string net s))).
    rewrite IH. cbn [ret]. rewrite logged_logged. reflexivity.
Qed.

Lemma bind_lift {A B : Type} (o : option A) (a : A) (f : A -> M B)
    (st : cfg_state) :
  o = Some a -> bind (lift o) f st = f a st.
Proof.
  intros ->. reflexivity.
Qed.

Lemma bind_ret {A B : Type} (a : A) (f : A -> M B) (st : cfg_state) :
  bind (ret a) f st = f a st.
Proof.
  reflexivity.
Qed.

Ltac lift_step tac := erewrite bind_lift by (tac; reflexivity).

(** X6: for a fault entry that is not a redirect fault and whose
    identifiers are strings (or [None]), the controller changes nothing
    but the identifier list: each identifier is replaced, in place and in
    order, by the text of its resolved triple, every warning of the
    resolver is appended to the log, and no token is generated. *)
Theorem build_replaces_identifiers (net : Mininet) (key : string)
    (d rest : list (string * pyval)) (ids : list (option string))
    (st : cfg_state) :
  dict_get d "identifiers" = Some (PList (map of_opt_str ids)) ->
  is_str "link_fault:redirect" (dict_get_default d "type" PNone) = false ->
  build_fault_object net (PDict ((key, PDict d) :: rest)) st
  = Some (PDict ((key,
                  PDict (dict_set d "identifiers"
                           (PList (new_identifier_strings net ids))))
                 :: rest),
          logged st (resolution_warnings net ids)).
Proof.
  intros Hids Hty. unfold build_fault_object.
  assert (Hfd : dict_get_default ((key, PDict d) :: rest) key PNone = PDict d).
  { unfold dict_get_default. cbn [dict_get]. now rewrite String.eqb_refl. }
  lift_step ltac:(cbn [first_key]).
  lift_step ltac:(cbn [py_get]; rewrite Hfd).
  lift_step ltac:(cbn [py_get];
                  rewrite (dict_get_default_some _ _ _ PNone Hids)).
  lift_step ltac:(cbn [py_iter]).
  unfold bind at 1. rewrite build_identifiers.
  lift_step ltac:(cbn [py_setitem]).
  lift_step ltac:(cbn [py_setitem dict_set]; rewrite String.eqb_refl).
  lift_step ltac:(cbn [py_get]).
  rewrite dict_get_default_set_other by discriminate.
  now rewrite Hty.
Qed.

(** An entry with one reference that resolves and one that does not. *)
Lemma build_replaces_identifiers_witness :
  exists st',
    build_fault_object Example.net
      (PDict [("link_fault",
               PDict [("type", PStr "link_fault:delay");
                      ("identifiers", PList [PStr "h1->h2"; PStr "h3"])])])
      {| next_uuid := 0; log := [] |}
    = Some (PDict [("link_fault",
                    PDict [("type", PStr "link_fault:delay");
                           ("identifiers",
                            PList [PStr "(101, 'h1_eth1', 'h1->h2')";
                                   PStr "(None, None, 'h3')"])])],
            st')
    /\ length (log st') = 1.
Proof.
  eexists. split.
  - apply (build_replaces_identifiers Example.net "link_fault"
             [("type", PStr "link_fault:delay");
              ("identifiers", PList [PStr "h1->h2"; PStr "h3"])]
             [] [Some "h1->h2"; Some "h3"]); reflexivity.
  - reflexivity.
Defined.

(** X7: for a redirect fault stored under the key [link_fault] whose
    first type argument is a string: when that string is in arrow pattern
    it is replaced, in place, by the interface name the resolver returns
    for it, which is [None] when the resolution fails, and the warning of
    that resolution is logged after those of the identifiers; when it is
    not in arrow pattern the type arguments stay as they are.  The other
    type arguments are kept. *)
Theorem build_redirect_target (net : Mininet)
    (d rest : list (string * pyval)) (ids : list (option string))
    (s : string) (args : list pyval) (st : cfg_state) :
  dict_get d "identifiers" = Some (PList (map of_opt_str ids)) ->
  dict_get d "type" = Some (PStr "link_fault:redirect") ->
  dict_get d "type_args" = Some (PList (PStr s :: args)) ->
  let r := _get_node_and_interface_name_from_identifier_string net (Some s) in
  let d1 := dict_set d "identifiers" (PList (new_identifier_strings net ids)) in
  build_fault_object net (PDict (("link_fault", PDict d) :: rest)) st
  = Some (PDict (("link_fault",
                  PDict (if _is_string_in_arrow_pattern s
                         then dict_set d1 "type_args"
                                (PList (of_opt_str (fst (fst r)) :: args))
                         else d1))
                 :: rest),
          logged st (resolution_warnings net ids ++
                     if _is_string_in_arrow_pattern s then snd r else [])).
Proof.
  intros Hids Hty Hargs r d1. unfold build_fault_object.
  assert (Hfd : dict_get_default (("link_fault", PDict d) :: rest)
                  "link_fault" PNone = PDict d) by reflexivity.
  assert (Hargs1 : dict_get d1 "type_args" = Some (PList (PStr s :: args))).
  { unfold d1. now rewrite dict_get_set_other by discriminate. }
  lift_step ltac:(cbn [first_key]).
  lift_step ltac:(cbn [py_get]; rewrite Hfd).
  lift_step ltac:(cbn [py_get];
                  rewrite (dict_get_default_some _ _ _ PNone Hids)).
  lift_step ltac:(cbn [py_iter]).
  unfold bind at 1. rewrite build_identifiers.
  lift_step ltac:(cbn [py_setitem]). fold d1.
  lift_step ltac:(cbn [py_setitem dict_set String.eqb Ascii.eqb Bool.eqb]).
  lift_step ltac:(cbn [py_get]).
  unfold d1 at 1. rewrite dict_get_default_set_other by discriminate.
  rewrite (dict_get_default_some _ _ _ PNone Hty).
  cbn [is_str]. rewrite String.eqb_refl.
  lift_step ltac:(cbn [py_get];
                  rewrite (dict_get_default_some _ _ _ PNone Hargs1)).
  lift_step ltac:(cbn [py_index nth_error]).
  cbv beta iota.
  destruct (_is_string_in_arrow_pattern s).
  - unfold bind at 1. unfold bind at 1. cbn [resolve_logged]. fold r.
    cbn [ret].
    lift_step ltac:(cbn [py_getitem dict_get String.eqb Ascii.eqb Bool.eqb]).
    lift_step ltac:(cbn [py_getitem]; rewrite Hargs1).
    lift_step ltac:(cbn [py_setitem_0]).
    lift_step ltac:(cbn [py_setitem]).
    cbn [lift py_setitem dict_set String.eqb Ascii.eqb Bool.eqb].
    f_equal. f_equal. unfold logged. cbn. now rewrite app_assoc.
  - rewrite bind_ret.
    lift_step ltac:(cbn [py_getitem dict_get String.eqb Ascii.eqb Bool.eqb]).
    lift_step ltac:(cbn [py_getitem]; rewrite Hargs1).
    lift_step ltac:(cbn [py_setitem_0]).
    lift_step ltac:(cbn [py_setitem]).
    cbn [lift py_setitem dict_set String.eqb Ascii.eqb Bool.eqb].
    rewrite (dict_set_same _ _ _ Hargs1), app_nil_r. reflexivity.
Qed.

(** A redirect whose target is a link reference that does not resolve:
    the first type argument becomes [None]. *)
Lemma build_redirect_target_witness :
  exists st',
    build_fault_object Example.net
      (PDict [("link_fault",
               PDict [("type", PStr "link_fault:redirect");
                      ("identifiers", PList [PStr "h1->h2"]);
                      ("type_args", PList [PStr "h2->h9"; PInt 7])])])
      {| next_uuid := 0; log := [] |}
    = Some (PDict [("link_fault",
                    PDict [("type", PStr "link_fault:redirect");
                           ("identifiers",
                            PList [PStr "(101, 'h1_eth1', 'h1->h2')"]);
                           ("type_args", PList [PNone; PInt 7])])],
            st').
Proof.
  eexists.
  apply (build_redirect_target Example.net
           [("type", PStr "link_fault:redirect");
            ("identifiers", PList [PStr "h1->h2"]);
            ("type_args", PList [PStr "h2->h9"; PInt 7])]
           [] [Some "h1->h2"] "h2->h9" [PInt 7]); reflexivity.
Defined.

Ltac lift_inv_step H x Hx :=
  let st' := fresh "st" in
  apply bind_inv in H as [x [st' [Hx H]]];
  apply lift_inv in Hx as [Hx ->].

(** X8: the redirect target is written back under the fixed key
    [link_fault].  For a fault object that has no such key, whatever its
    first key is, a redirect fault makes the construction of the
    transferred configuration raise: it never returns. *)
Theorem build_redirect_needs_link_fault_key (net : Mininet)
    (fault_object fault_dict : pyval) (key : string) (st : cfg_state) :
  first_key fault_object = Some key ->
  py_getitem fault_object "link_fault" = None ->
  py_get fault_object key PNone = Some fault_dict ->
  py_get fault_dict "type" PNone = Some (PStr "link_fault:redirect") ->
  build_fault_object net fault_object st = None.
Proof.
  intros Hkey Hlf Hfd Hty.
  destruct (build_fault_object net fault_object st) as [r|] eqn:H;
    [exfalso | reflexivity].
  unfold build_fault_object in H.
  lift_inv_step H ft H0. rewrite Hkey in H0. injection H0 as <-.
  lift_inv_step H fd0 H1. rewrite Hfd in H1. injection H1 as <-.
  lift_inv_step H ids H2.
  lift_inv_step H idl H3.
  apply bind_inv in H as [new [st1 [H4 H]]].
  lift_inv_step H fd1 H5.
  lift_inv_step H fo1 H6.
  lift_inv_step H tv H7.
  destruct fault_dict as [| | | | | |dd]; try discriminate H5.
  destruct fault_object as [| | | | | |fod]; try discriminate H6.
  cbn [py_setitem] in H5, H6. injection H5 as <-. injection H6 as <-.
  cbn [py_get] in Hty, H7. injection Hty as Hty. injection H7 as <-.
  rewrite dict_get_default_set_other, Hty in H by discriminate.
  cbn [is_str] in H. rewrite String.eqb_refl in H.
  lift_inv_step H fta H8.
  lift_inv_step H pot H9.
  destruct pot as [| | |s0| | |];
    try (unfold lift in H; discriminate H).
  apply bind_inv in H as [iname [st2 [H10 H]]].
  lift_inv_step H lf H11.
  cbn [py_getitem] in H11, Hlf.
  assert (Hne : "link_fault"%string <> key).
  { intros <-. destruct fod as [|[k v] fod]; [discriminate Hkey|].
    cbn [first_key] in Hkey. injection Hkey as ->.
    cbn [dict_get] in Hlf. rewrite String.eqb_refl in Hlf. discriminate. }
  rewrite (dict_get_set_other _ _ _ _ Hne) in H11. congruence.
Qed.

(** A redirect fault stored under the key [fault]. *)
Lemma build_redirect_needs_link_fault_key_witness :
  build_fault_object Example.net
    (PDict [("fault",
             PDict [("type", PStr "link_fault:redirect");
                    ("identifiers", PList [PStr "h1->h2"]);
                    ("type_args", PList [PStr "h2_eth0"])])])
    {| next_uuid := 0; log := [] |}
  = None.
Proof.
  apply (build_redirect_needs_link_fault_key Example.net _
           (PDict [("type", PStr "link_fault:redirect");
                   ("identifiers", PList [PStr "h1->h2"]);
                   ("type_args", PList [PStr "h2_eth0"])])
           "fault"); reflexivity.
Defined.

(** ** From the configuration to the fault units *)

Lemma target_arguments_ext (d1 d2 : list (string * pyval)) (st : cfg_state) :
  dict_get d1 "target_traffic" = dict_get d2 "target_traffic" ->
  _get_target_arguments_from_fault_dict (PDict d1) st
  = _get_target_arguments_from_fault_dict (PDict d2) st.
Proof.
  intros H. unfold _get_target_arguments_from_fault_dict.
  cbn [py_contains py_get]. unfold dict_mem, dict_get_default.
  now rewrite H.
Qed.

Lemma tag_of_entry (uuid4 : nat -> string) (tg r : string) :
  str_add (PStr tg) (PStr "@") = Some (PStr (tg ++ "@"))
  /\ str_add (PStr (tg ++ "@")) (PStr r) = Some (PStr (tg ++ "@" ++ r)).
Proof.
  split; [reflexivity|]. cbn [str_add]. now rewrite append_assoc.
Qed.

(** The units of an entry, field by field. *)
Lemma config_fault_object_units (uuid4 : nat -> string) (key : string)
    (d rest : list (string * pyval)) (ty kind : string) (is_link : bool)
    (ts : list (option Z * option string * string)) (st : cfg_state) :
  dict_get d "type" = Some (PStr ty) ->
  (if is_link
   then Regex.match_prefix_word "link_fault:" ty = Some kind
   else Regex.match_prefix_word "node_fault:" ty = Some kind) ->
  dict_get d "identifiers" = Some (PList (map transferred ts)) ->
  dict_get d "target_traffic" = None
  \/ (exists tt, dict_get d "target_traffic" = Some (PDict tt)) ->
  (forall v, dict_get d "tag" = Some v -> v = PNone \/ exists s, v = PStr s) ->
  exists targs st1 st2,
    _get_target_arguments_from_fault_dict (PDict d) st = Some (targs, st1)
    /\ config_fault_object uuid4 (PDict ((key, PDict d) :: rest)) st
       = Some (map (expected_unit is_link d targs kind (entry_tag uuid4 d st))
                   ts,
               st2)
    /\ log st2 = log st1
    /\ next_uuid st2
       = match dict_get_default d "tag" PNone with
         | PNone => S (next_uuid st)
         | _ => next_uuid st
         end.
Proof.
  intros Hty Hkind Hids Htt Htag.
  destruct (target_arguments_returns d st Htt)
    as [[[proto src] dst] [st1 [Hta Hn]]].
  destruct (entry_tag_step uuid4 d st st1 Hn Htag) as [st2 Htg].
  exists (proto, src, dst), st1, st2. split; [exact Hta|].
  assert (Hst2 : log st2 = log st1
                 /\ next_uuid st2
                    = match dict_get_default d "tag" PNone with
                      | PNone => S (next_uuid st)
                      | _ => next_uuid st
                      end).
  { revert Htg. unfold fresh_tag, ret.
    destruct (dict_get_default d "tag" PNone); intros [= _ <-]; cbn;
      auto. }
  split; [|exact Hst2].
  unfold config_fault_object.
  assert (Hfd : dict_get_default ((key, PDict d) :: rest) key PNone = PDict d).
  { unfold dict_get_default. cbn [dict_get]. now rewrite String.eqb_refl. }
  lift_step ltac:(cbn [first_key]).
  lift_step ltac:(cbn [py_get]; rewrite Hfd).
  unfold bind at 1. rewrite Hta.
  lift_step ltac:(cbn [py_get]).
  lift_step ltac:(cbn [py_get]).
  unfold bind at 1. rewrite Htg.
  do 5 lift_step ltac:(cbn [py_get]).
  lift_step ltac:(cbn [py_get];
                  rewrite (dict_get_default_some d "type" _ PNone Hty)).
  cbv beta iota.
  destruct is_link.
  - rewrite Hkind.
    lift_step ltac:(cbn [py_get];
                    rewrite (dict_get_default_some d "identifiers" _ PNone Hids)).
    lift_step ltac:(cbn [py_iter]).
    apply for_each_map. intros [[p i] r].
    unfold transferred. cbn [fst snd].
    lift_step ltac:(cbn [literal_eval_value];
                    rewrite literal_eval_repr_triple).
    do 3 lift_step ltac:(cbn [Literal.triple_value py_index nth_error]).
    destruct (tag_of_entry uuid4 (entry_tag uuid4 d st) r) as [T1 T2].
    lift_step ltac:(rewrite T1).
    lift_step ltac:(rewrite T2).
    destruct p, i; reflexivity.
  - rewrite (node_fault_not_link_fault ty kind Hkind), Hkind.
    lift_step ltac:(cbn [py_get];
                    rewrite (dict_get_default_some d "identifiers" _ PNone Hids)).
    lift_step ltac:(cbn [py_iter]).
    apply for_each_map. intros [[p i] r].
    unfold transferred. cbn [fst snd].
    lift_step ltac:(cbn [literal_eval_value];
                    rewrite literal_eval_repr_triple).
    do 2 lift_step ltac:(cbn [Literal.triple_value py_index nth_error]).
    destruct (tag_of_entry uuid4 (entry_tag uuid4 d st) r) as [T1 T2].
    lift_step ltac:(rewrite T1).
    lift_step ltac:(rewrite T2).
    destruct p; reflexivity.
Qed.

(** X9: what each fault unit receives.  For an entry whose type matches
    the link fault (or node fault) pattern with kind [kind], whose
    identifiers are the transferred texts of the triples [ts], whose tag
    is a string or absent and whose traffic section is a mapping or
    absent, the injector builds, in order, one link (or node) unit per
    triple, with exactly these fields: the process id and, for a link
    unit, the interface of the triple; the tag of the entry followed by
    [@] and the reference; the kind; the traffic filter the extraction
    returns; the pattern, which defaults to [persistent]; the other
    fields as configured, [None] when missing.  A token is consumed only
    when the tag is absent. *)
Theorem fault_unit_fields (uuid4 : nat -> string) (key : string)
    (d rest : list (string * pyval)) (ty kind : string) (is_link : bool)
    (ts : list (option Z * option string * string)) (st : cfg_state) :
  dict_get d "type" = Some (PStr ty) ->
  (if is_link
   then Regex.match_prefix_word "link_fault:" ty = Some kind
   else Regex.match_prefix_word "node_fault:" ty = Some kind) ->
  dict_get d "identifiers" = Some (PList (map transferred ts)) ->
  dict_get d "target_traffic" = None
  \/ (exists tt, dict_get d "target_traffic" = Some (PDict tt)) ->
  (forall v, dict_get d "tag" = Some v -> v = PNone \/ exists s, v = PStr s) ->
  exists targs st1 st2,
    _get_target_arguments_from_fault_dict (PDict d) st = Some (targs, st1)
    /\ config_fault_object uuid4 (PDict ((key, PDict d) :: rest)) st
       = Some (map (expected_unit is_link d targs kind (entry_tag uuid4 d st))
                   ts,
               st2)
    /\ log st2 = log st1
    /\ next_uuid st2
       = match dict_get_default d "tag" PNone with
         | PNone => S (next_uuid st)
         | _ => next_uuid st
         end.
Proof.
  apply config_fault_object_units.
Qed.

(** A node fault with a tag on one identifier. *)
Lemma fault_unit_fields_witness :
  exists st2,
    config_fault_object (fun _ => "token")
      (PDict [("node_fault",
               PDict [("type", PStr "node_fault:stress");
                      ("tag", PStr "T");
                      ("identifiers", PList [PStr "(102, None, 'h2')"])])])
      {| next_uuid := 0; log := [] |}
    = Some ([INode
               {| target_process_pid := PInt 102;
                  node_fault_type := "stress";
                  node_tag := PStr "T@h2";
                  node_pre_injection_time := PNone;
                  node_injection_time := PNone;
                  node_post_injection_time := PNone;
                  node_fault_pattern := PStr "persistent";
                  node_fault_args := PNone;
                  node_fault_pattern_args := PNone |}],
            st2)
    /\ next_uuid st2 = 0.
Proof.
  destruct (fault_unit_fields (fun _ => "token") "node_fault"
              [("type", PStr "node_fault:stress");
               ("tag", PStr "T");
               ("identifiers", PList [PStr "(102, None, 'h2')"])]
              [] "node_fault:stress" "stress" false
              [(Some 102%Z, None, "h2")]
              {| next_uuid := 0; log := [] |})
    as [targs [st1 [st2 [_ [Hc [_ Hn]]]]]].
  - reflexivity.
  - reflexivity.
  - reflexivity.
  - left. reflexivity.
  - intros v [= <-]. right. now exists "T"%string.
  - exists st2. split; [exact Hc | exact Hn].
Defined.

Lemma agnostic_reference (net : Mininet) (s : option string) :
  snd (_get_mininet_agnostic_identifiers_from_identifier_string net s) = s.
Proof.
  unfold _get_mininet_agnostic_identifiers_from_identifier_string.
  destruct (fst _) as [i h].
  now destruct (_get_passable_identifiers_from_node_and_interface_name i h).
Qed.

Lemma new_identifier_strings_transferred (net : Mininet)
    (refs : list string) :
  new_identifier_strings net (map Some refs)
  = map transferred (map (resolved_triple net) refs).
Proof.
  unfold new_identifier_strings. rewrite !map_map. apply map_ext.
  intros ref. unfold transferred, resolved_triple, resolve. cbn [fst snd].
  pose proof (agnostic_reference net (Some ref)) as H.
  destruct (_get_mininet_agnostic_identifiers_from_identifier_string
              net (Some ref)) as [[p i] r].
  cbn [fst snd] in *. now subst.
Qed.

(** X10: from the configuration file to the fault units.  For a fault
    entry that is not a redirect fault, with string identifiers [refs], a
    link or node fault type, a tag that is a string or absent and a
    traffic section that is a mapping or absent: the controller builds the
    transferred entry, logging the warnings of the resolver, and from that
    entry the injector builds one unit per reference, in order, whose
    process id and interface are those the controller resolved for the
    reference in the topology and whose tag ends in [@] and the
    reference. *)
Theorem controller_to_injector (net : Mininet) (uuid4 : nat -> string)
    (key : string) (d rest : list (string * pyval)) (ty kind : string)
    (is_link : bool) (refs : list string) (st_c st_i : cfg_state) :
  dict_get d "type" = Some (PStr ty) ->
  ty <> "link_fault:redirect"%string ->
  (if is_link
   then Regex.match_prefix_word "link_fault:" ty = Some kind
   else Regex.match_prefix_word "node_fault:" ty = Some kind) ->
  dict_get d "identifiers" = Some (PList (map PStr refs)) ->
  dict_get d "target_traffic" = None
  \/ (exists tt, dict_get d "target_traffic" = Some (PDict tt)) ->
  (forall v, dict_get d "tag" = Some v -> v = PNone \/ exists s, v = PStr s) ->
  exists fault_object' targs st_i1 st_i2,
    build_fault_object net (PDict ((key, PDict d) :: rest)) st_c
    = Some (fault_object',
            logged st_c (resolution_warnings net (map Some refs)))
    /\ _get_target_arguments_from_fault_dict (PDict d) st_i
       = Some (targs, st_i1)
    /\ config_fault_object uuid4 fault_object' st_i
       = Some (map (fun ref =>
                      expected_unit is_link d targs kind
                        (entry_tag uuid4 d st_i) (resolved_triple net ref))
                   refs,
               st_i2).
Proof.
  intros Hty Hne Hkind Hids Htt Htag.
  set (d' := dict_set d "identifiers"
               (PList (new_identifier_strings net (map Some refs)))).
  assert (Hsame : forall k, k <> "identifiers"%string ->
                    dict_get d' k = dict_get d k).
  { intros k Hk. unfold d'. now apply dict_get_set_other. }
  assert (Hb : build_fault_object net (PDict ((key, PDict d) :: rest)) st_c
               = Some (PDict ((key, PDict d') :: rest),
                       logged st_c (resolution_warnings net (map Some refs)))).
  { apply build_replaces_identifiers.
    - rewrite map_map. exact Hids.
    - rewrite (dict_get_default_some _ _ _ PNone Hty). cbn [is_str].
      now apply String.eqb_neq. }
  destruct (config_fault_object_units uuid4 key d' rest ty kind is_link
              (map (resolved_triple net) refs) st_i)
    as [targs [st1 [st2 [Hta [Hc _]]]]].
  - rewrite Hsame by discriminate. exact Hty.
  - exact Hkind.
  - unfold d'. rewrite dict_get_set_same.
    now rewrite new_identifier_strings_transferred.
  - rewrite Hsame by discriminate. exact Htt.
  - intros v. rewrite Hsame by discriminate. apply Htag.
  - exists (PDict ((key, PDict d') :: rest)), targs, st1, st2.
    split; [exact Hb|]. split.
    + rewrite <- Hta. apply target_arguments_ext.
      symmetry. apply Hsame. discriminate.
    + rewrite Hc, map_map. do 2 f_equal. apply map_ext. intros ref.
      assert (Htg : entry_tag uuid4 d' st_i = entry_tag uuid4 d st_i).
      { unfold entry_tag. now rewrite Hsame by discriminate. }
      rewrite Htg. unfold expected_unit, d'.
      now rewrite !dict_get_default_set_other by discriminate.
Qed.

(** A delay fault on the two directions of the example link. *)
Lemma controller_to_injector_witness :
  exists fault_object' st_c' units st_i',
    build_fault_object Example.net
      (PDict [("link_fault",
               PDict [("type", PStr "link_fault:delay");
                      ("identifiers", PList [PStr "h1->h2"; PStr "h2->h1"])])])
      {| next_uuid := 0; log := [] |}
    = Some (fault_object', st_c')
    /\ config_fault_object (fun _ => "token") fault_object'
         {| next_uuid := 0; log := [] |}
       = Some (units, st_i')
    /\ map tag units = [PStr "token@h1->h2"; PStr "token@h2->h1"].
Proof.
  destruct (controller_to_injector Example.net (fun _ => "token")
              "link_fault"
              [("type", PStr "link_fault:delay");
               ("identifiers", PList [PStr "h1->h2"; PStr "h2->h1"])]
              [] "link_fault:delay" "delay" true ["h1->h2"; "h2->h1"]
              {| next_uuid := 0; log := [] |}
              {| next_uuid := 0; log := [] |})
    as [fo' [targs [st1 [st2 [Hb [_ Hc]]]]]].
  - reflexivity.
  - discriminate.
  - reflexivity.
  - reflexivity.
  - left. reflexivity.
  - intros v H. discriminate H.
  - eexists fo', _, _, st2. split; [exact Hb|]. split; [exact Hc|].
    reflexivity.
Defined.

(** X11: an entry whose traffic section is a mapping or absent, and whose
    type is missing or [None], or is a string that matches neither the
    link fault nor the node fault pattern, is skipped by the injector: no
    unit is built, nothing is raised, and exactly one warning is written
    after whatever the extraction of the traffic filter logged (a traffic
    section that is no mapping makes that extraction raise before the type
    is looked at).  The identifiers of such an entry are not read, so they
    may be missing; a token is still consumed when the tag is absent. *)
Theorem entry_without_known_type_is_skipped (uuid4 : nat -> string)
    (key : string) (d rest : list (string * pyval)) (st : cfg_state) :
  dict_get d "target_traffic" = None
  \/ (exists tt, dict_get d "target_traffic" = Some (PDict tt)) ->
  dict_get_default d "type" PNone = PNone
  \/ (exists ty,
        dict_get_default d "type" PNone = PStr ty
        /\ Regex.match_prefix_word "link_fault:" ty = None
        /\ Regex.match_prefix_word "node_fault:" ty = None) ->
  exists targs st1 st',
    _get_target_arguments_from_fault_dict (PDict d) st = Some (targs, st1)
    /\ config_fault_object uuid4 (PDict ((key, PDict d) :: rest)) st
       = Some ([], st')
    /\ log st'
       = log st1 ++
         [(LWarn,
           match dict_get_default d "type" PNone with
           | PNone => [Lit ("No fault type set" ++ Regex.NL)]
           | v => [Lit "Fault type unknown:'"; Val v; Lit ("'" ++ Regex.NL)]
           end)]
    /\ next_uuid st'
       = match dict_get_default d "tag" PNone with
         | PNone => S (next_uuid st)
         | _ => next_uuid st
         end.
Proof.
  intros Htt Hty.
  destruct (target_arguments_returns d st Htt)
    as [[[proto src] dst] [st1 [Hta Hn]]].
  exists (proto, src, dst), st1.
  unfold config_fault_object.
  assert (Hfd : dict_get_default ((key, PDict d) :: rest) key PNone = PDict d).
  { unfold dict_get_default. cbn [dict_get]. now rewrite String.eqb_refl. }
  lift_step ltac:(cbn [first_key]).
  lift_step ltac:(cbn [py_get]; rewrite Hfd).
  unfold bind at 1. rewrite Hta.
  lift_step ltac:(cbn [py_get]).
  lift_step ltac:(cbn [py_get]).
  unfold bind at 1.
  set (st2 := {| next_uuid := match dict_get_default d "tag" PNone with
                              | PNone => S (next_uuid st)
                              | _ => next_uuid st
                              end;
                 log := log st1 |}).
  assert (Htg : exists tg,
            match dict_get_default d "tag" PNone with
            | PNone => fresh_tag uuid4
            | _ => ret (dict_get_default d "tag" PNone)
            end st1 = Some (tg, st2)).
  { unfold st2, fresh_tag, ret. rewrite <- Hn.
    destruct (dict_get_default d "tag" PNone); destruct st1; cbn; eauto. }
  destruct Htg as [tg ->].
  do 5 lift_step ltac:(cbn [py_get]).
  lift_step ltac:(cbn [py_get]).
  destruct Hty as [-> | [ty [-> [Hl Hnd]]]].
  - eexists. split; [reflexivity|]. split; [reflexivity|]. auto.
  - rewrite Hl, Hnd. eexists. split; [reflexivity|]. split; [reflexivity|].
    auto.
Qed.

(** An entry with a misspelt type and no identifiers. *)
Lemma entry_without_known_type_is_skipped_witness :
  exists st',
    config_fault_object (fun _ => "token")
      (PDict [("link_fault", PDict [("type", PStr "linkfault:delay")])])
      {| next_uuid := 0; log := [] |}
    = Some ([], st')
    /\ log st'
       = [(LWarn, [Lit "Fault type unknown:'"; Val (PStr "linkfault:delay");
                   Lit ("'" ++ Regex.NL)])].
Proof.
  destruct (entry_without_known_type_is_skipped (fun _ => "token")
              "link_fault" [("type", PStr "linkfault:delay")] []
              {| next_uuid := 0; log := [] |})
    as [targs [st1 [st' [Hta [Hc [Hlog _]]]]]].
  - left. reflexivity.
  - right. exists "linkfault:delay"%string. repeat split.
  - exists st'. split; [exact Hc|].
    rewrite Hlog. injection Hta as _ <-. reflexivity.
Defined.

(** ** The log section *)

(** X12: for a log command whose host is a string or is absent, the
    controller returns the command with its host replaced by the process
    id the resolver finds for it ([None] when the host is absent or does
    not resolve, the latter with a warning), with a tag in any case (its
    own when it has one, the next generated token otherwise) and with
    every other field as it was. *)
Theorem build_command_fields (uuid4 : nat -> string) (net : Mininet)
    (c : list (string * pyval)) (h : option string) (st : cfg_state) :
  dict_get_default c "host" PNone = of_opt_str h ->
  exists c' st',
    build_command uuid4 net (PDict c) st = Some (PDict c', st')
    /\ dict_get c' "host"
       = Some (of_opt_int
                 (fst (fst (_get_mininet_agnostic_identifiers_from_identifier_string
                              net h))))
    /\ dict_get c' "tag"
       = Some (match dict_get_default c "tag" PNone with
               | PNone => PStr (uuid4 (next_uuid st))
               | v => v
               end)
    /\ (forall k, k <> "tag"%string -> k <> "host"%string ->
          dict_get c' k = dict_get c k)
    /\ next_uuid st'
       = match dict_get_default c "tag" PNone with
         | PNone => S (next_uuid st)
         | _ => next_uuid st
         end
    /\ log st'
       = log st ++
         snd (_get_node_and_interface_name_from_identifier_string net h).
Proof.
  intros Hh. unfold build_command.
  assert (Hid : as_identifier (of_opt_str h) = Some h) by now destruct h.
  lift_step ltac:(cbn [py_get]).
  destruct (dict_get_default c "tag" PNone) eqn:Htag.
  1: { unfold bind at 1. unfold bind at 1. unfold fresh_tag at 1.
       cbv beta iota. unfold lift at 1. cbn [py_setitem]. cbv beta iota.
       lift_step ltac:(cbn [py_get]; rewrite Hh).
       lift_step ltac:(rewrite Hid).
       unfold bind at 1. cbn [agnostic_logged lift py_setitem].
       eexists _, _. split; [reflexivity|].
       split; [apply dict_get_set_same|].
       split; [rewrite dict_get_set_other by discriminate;
               apply dict_get_set_same|].
       split; [|split; reflexivity].
       intros k Hk1 Hk2. now rewrite !dict_get_set_other by congruence. }
  all: rewrite bind_ret;
    lift_step ltac:(cbn [py_get]; rewrite Hh);
    lift_step ltac:(rewrite Hid);
    unfold bind at 1; cbn [agnostic_logged lift py_setitem];
    eexists _, _; (split; [reflexivity|]);
    (split; [apply dict_get_set_same|]);
    (split; [rewrite dict_get_set_other by discriminate;
             unfold dict_get_default in Htag;
             destruct (dict_get c "tag"); [now subst | discriminate]|]);
    (split; [|split; reflexivity]);
    intros k Hk1 Hk2; now rewrite !dict_get_set_other by congruence.
Qed.

(** A command without tag on the host [h2]. *)
Lemma build_command_fields_witness :
  exists c' st',
    build_command (fun _ => "token") Example.net
      (PDict [("command", PStr "ip a"); ("host", PStr "h2")])
      {| next_uuid := 3; log := [] |}
    = Some (PDict c', st')
    /\ dict_get c' "host" = Some (PInt 102)
    /\ dict_get c' "tag" = Some (PStr "token")
    /\ dict_get c' "command" = Some (PStr "ip a")
    /\ next_uuid st' = 4.
Proof.
  destruct (build_command_fields (fun _ => "token") Example.net
              [("command", PStr "ip a"); ("host", PStr "h2")] (Some "h2")
              {| next_uuid := 3; log := [] |} eq_refl)
    as [c' [st' [Hb [Hh [Ht [Hk [Hn _]]]]]]].
  exists c', st'. split; [exact Hb|]. split; [exact Hh|].
  split; [exact Ht|]. split; [|exact Hn].
  rewrite Hk by discriminate. reflexivity.
Defined.

Lemma dict_mem_get (d : list (string * pyval)) (k : string) :
  dict_mem d k = true <-> exists v, dict_get d k = Some v.
Proof.
  unfold dict_mem. destruct (dict_get d k) as [v|]; split; eauto;
    try discriminate. intros [v H]. discriminate H.
Qed.

(** What the log section of a returned configuration looks like. *)
Lemma build_log_section (uuid4 : nat -> string) (net : Mininet)
    (yml_config yml_config' : pyval) (st st' : cfg_state) :
  _build_yml_with_mininet_agnostic_identifiers uuid4 net yml_config st
  = Some (yml_config', st') ->
  exists c',
    yml_config' = PDict c'
    /\ (dict_get c' "log" = None
        \/ exists l, dict_get c' "log" = Some (PDict l)).
Proof.
  unfold _build_yml_with_mininet_agnostic_identifiers. intros H.
  lift_inv_step H faults H0.
  lift_inv_step H fault_objects H1.
  apply bind_inv in H as [fos [st1 [H2 H]]].
  lift_inv_step H yml1 H3.
  destruct yml_config as [| | | | | |c]; try discriminate H3.
  cbn [py_setitem] in H3. injection H3 as <-.
  set (c1 := dict_set c "faults" (rebuild faults fos)) in *.
  lift_inv_step H has H4. cbn [py_contains] in H4. injection H4 as <-.
  destruct (dict_mem c1 "log") eqn:Hmem; cbn [negb] in H.
  - lift_inv_step H log_section H5. cbn [py_getitem] in H5.
    lift_inv_step H cm H6.
    destruct log_section as [| | | | | |l]; try discriminate H6.
    assert (Hend : forall y s, lift (py_setitem (PDict c1) "log" y) st1
                               = Some (yml_config', s) ->
                   (exists l', y = PDict l') ->
                   exists c', yml_config' = PDict c'
                     /\ (dict_get c' "log" = None
                         \/ exists l0, dict_get c' "log" = Some (PDict l0))).
    { intros y s Hy [l' ->]. cbn in Hy. injection Hy as <- _.
      eexists. split; [reflexivity|]. right. exists l'.
      apply dict_get_set_same. }
    destruct cm;
      try (lift_inv_step H dcs H7;
           apply bind_inv in H as [dcs' [st2 [H8 H]]];
           lift_inv_step H ls' H9; cbn [py_setitem] in H9;
           injection H9 as <-;
           unfold lift in H; cbn [py_setitem] in H; injection H as <- _;
           eexists; (split; [reflexivity|]); right; eexists;
           apply dict_get_set_same).
    injection H as <- _. exists c1. split; [reflexivity|]. right. eauto.
  - injection H as <- _. exists c1. split; [reflexivity|]. left.
    unfold dict_mem in Hmem. now destruct (dict_get c1 "log").
Qed.

(** X13: the controller and the injector agree on the logger.  Whenever
    the controller's construction of the transferred configuration
    returns, the flag [logger_active] it computes is defined; when the
    flag is false the injector configures no logger, and when it is true
    the log section is a mapping, so the injector configures a logger
    whenever its own construction returns.  The exit hook that sends the
    message to write the logs is therefore armed exactly for an injector
    that listens for it. *)
Theorem logger_flag_agrees (uuid4 : nat -> string)
    (int_of_str : string -> option Z) (net : Mininet)
    (yml_config yml_config' : pyval) (st st' : cfg_state) :
  _build_yml_with_mininet_agnostic_identifiers uuid4 net yml_config st
  = Some (yml_config', st') ->
  exists b,
    Session.logger_active_of yml_config' = Some b
    /\ (b = false ->
        forall s, _config_logger int_of_str yml_config' s = Some (None, s))
    /\ (b = true ->
        forall s r s',
          _config_logger int_of_str yml_config' s = Some (r, s') ->
          exists logger, r = Some logger).
Proof.
  intros H. destruct (build_log_section _ _ _ _ _ _ H) as [c' [-> Hlog]].
  unfold Session.logger_active_of. cbn [py_contains].
  exists (dict_mem c' "log"). split; [reflexivity|].
  unfold dict_mem, _config_logger. cbn [py_get]. unfold dict_get_default.
  destruct Hlog as [-> | [l ->]].
  - split; [|discriminate]. intros _ s. reflexivity.
  - split; [discriminate|]. intros _ s r s' Hc.
    rewrite (bind_lift _ (PDict l)) in Hc by reflexivity.
    lift_inv_step Hc iv H0. lift_inv_step Hc z H1.
    lift_inv_step Hc path H2. lift_inv_step Hc cmds H3.
    injection Hc as <- _. eauto.
Qed.

(** A configuration with one fault and one log command. *)
Lemma logger_flag_agrees_witness :
  exists yml_config' st' b,
    _build_yml_with_mininet_agnostic_identifiers (fun _ => "token")
      Example.net
      (PDict [("faults",
               PList [PDict [("node_fault",
                              PDict [("type", PStr "node_fault:stress");
                                     ("identifiers", PList [PStr "h1"])])]]);
              ("log", PDict [("commands",
                              PList [PDict [("command", PStr "ip a");
                                            ("host", PStr "h2")]])])])
      {| next_uuid := 0; log := [] |}
    = Some (yml_config', st')
    /\ Session.logger_active_of yml_config' = Some b
    /\ b = true.
Proof.
  destruct (_build_yml_with_mininet_agnostic_identifiers (fun _ => "token")
      Example.net
      (PDict [("faults",
               PList [PDict [("node_fault",
                              PDict [("type", PStr "node_fault:stress");
                                     ("identifiers", PList [PStr "h1"])])]]);
              ("log", PDict [("commands",
                              PList [PDict [("command", PStr "ip a");
                                            ("host", PStr "h2")]])])])
      {| next_uuid := 0; log := [] |}) as [[cfg' st']|] eqn:H.
  - destruct (logger_flag_agrees (fun _ => "token") (fun _ => None)
                Example.net _ cfg' _ st' H) as [b [Hb _]].
    exists cfg', st', b. split; [reflexivity|]. split; [exact Hb|].
    vm_compute in H. injection H as <- _.
    vm_compute in Hb. now injection Hb.
  - vm_compute in H. discriminate H.
Defined.

(** X14: the interval of the logger.  For a configuration whose log
    section is a mapping: without an interval, or with the interval 0, the
    logger is built with no interval (it runs once); with a non-zero
    integer it is built with that interval; with an interval that is
    [None] the construction raises.  The path and the commands are passed
    as configured, [None] and the empty list when missing. *)
Theorem logger_interval (int_of_str : string -> option Z)
    (c l : list (string * pyval)) (st : cfg_state) :
  dict_get c "log" = Some (PDict l) ->
  let logger_with i :=
    Some (Some {| interval := i;
                  log_filepath := dict_get_default l "path" PNone;
                  commands := dict_get_default l "commands" (PList []) |},
          st) in
  (dict_get l "interval" = None \/ dict_get l "interval" = Some (PInt 0) ->
   _config_logger int_of_str (PDict c) st = logger_with None)
  /\ (forall z, dict_get l "interval" = Some (PInt z) -> z <> 0%Z ->
        _config_logger int_of_str (PDict c) st = logger_with (Some z))
  /\ (dict_get l "interval" = Some PNone ->
      _config_logger int_of_str (PDict c) st = None).
Proof.
  intros Hlog logger_with. unfold logger_with, _config_logger.
  rewrite (bind_lift _ (PDict l))
    by (cbn [py_get]; now rewrite (dict_get_default_some _ _ _ PNone Hlog)).
  cbv beta iota.
  assert (Hrun : forall v z,
            dict_get_default l "interval" (PInt 0) = v ->
            py_int int_of_str v = Some z ->
            bind (lift (py_get (PDict l) "interval" (PInt 0)))
              (fun interval_value =>
               bind (lift (py_int int_of_str interval_value))
                 (fun interval0 =>
                  bind (lift (py_get (PDict l) "path" PNone))
                    (fun path =>
                     bind (lift (py_get (PDict l) "commands" (PList [])))
                       (fun commands0 =>
                        ret (Some {| interval := if (interval0 =? 0)%Z
                                                 then None else Some interval0;
                                     log_filepath := path;
                                     commands := commands0 |}))))) st
            = Some (Some {| interval := if (z =? 0)%Z then None else Some z;
                            log_filepath := dict_get_default l "path" PNone;
                            commands :=
                              dict_get_default l "commands" (PList []) |},
                    st)).
  { intros v z Hv Hz.
    rewrite (bind_lift _ v) by (cbn [py_get]; now rewrite Hv).
    rewrite (bind_lift _ z) by exact Hz.
    reflexivity. }
  split; [|split].
  - intros H. apply (Hrun (PInt 0) 0%Z); [|reflexivity].
    unfold dict_get_default. now destruct H as [-> | ->].
  - intros z Hz Hne. rewrite (Hrun (PInt z) z); [|
      unfold dict_get_default; now rewrite Hz | reflexivity].
    apply Z.eqb_neq in Hne. now rewrite Hne.
  - intros Hz.
    rewrite (bind_lift _ PNone)
      by (cbn [py_get]; unfold dict_get_default; now rewrite Hz).
    reflexivity.
Qed.

(** An interval of five. *)
Lemma logger_interval_witness :
  _config_logger (fun _ => None)
    (PDict [("faults", PList []);
            ("log", PDict [("interval", PInt 5); ("path", PStr "out.log")])])
    {| next_uuid := 0; log := [] |}
  = Some (Some {| interval := Some 5%Z;
                  log_filepath := PStr "out.log";
                  commands := PList [] |},
          {| next_uuid := 0; log := [] |}).
Proof.
  destruct (logger_interval (fun _ => None)
              [("faults", PList []);
               ("log", PDict [("interval", PInt 5); ("path", PStr "out.log")])]
              [("interval", PInt 5); ("path", PStr "out.log")]
              {| next_uuid := 0; log := [] |} eq_refl) as [_ [H _]].
  apply (H 5%Z); [reflexivity | discriminate].
Defined.

(** X15: a configuration that cannot be used.  Without a file path
    [_get_base_config_dict] logs one error and returns [None], and the
    construction of the transferred configuration then raises on it; on a
    configuration whose [faults] key is missing or [None], both that
    construction and the injector's [_configByFile] raise.  With an empty
    list of faults and no log section the configuration is returned as it
    is and the injector builds no unit. *)
Theorem unusable_configuration (uuid4 : nat -> string) (net : Mininet)
    (safe_load : string -> pyval) (st : cfg_state) :
  (_get_base_config_dict safe_load None st
   = Some (PNone,
           logged st [(LError, [Lit "Filepath to config file is missing"])])
   /\ bind (_get_base_config_dict safe_load None)
           (_build_yml_with_mininet_agnostic_identifiers uuid4 net) st
      = None)
  /\ (forall c,
        dict_get_default c "faults" PNone = PNone ->
        _build_yml_with_mininet_agnostic_identifiers uuid4 net (PDict c) st
        = None
        /\ _configByFile uuid4 (PDict c) st = None)
  /\ (forall c,
        dict_get c "faults" = Some (PList []) ->
        dict_get c "log" = None ->
        _build_yml_with_mininet_agnostic_identifiers uuid4 net (PDict c) st
        = Some (PDict c, st)
        /\ _configByFile uuid4 (PDict c) st = Some ([], st)).
Proof.
  split; [|split].
  - split; reflexivity.
  - intros c Hc.
    unfold _build_yml_with_mininet_agnostic_identifiers, _configByFile.
    split.
    + rewrite (bind_lift _ PNone) by (cbn [py_get]; now rewrite Hc).
      reflexivity.
    + rewrite (bind_lift _ PNone) by (cbn [py_get]; now rewrite Hc).
      reflexivity.
  - intros c Hf Hl.
    unfold _build_yml_with_mininet_agnostic_identifiers, _configByFile.
    split.
    + rewrite (bind_lift _ (PList []))
        by (cbn [py_get]; now rewrite (dict_get_default_some _ _ _ PNone Hf)).
      rewrite (bind_lift _ []) by reflexivity.
      unfold bind at 1. cbn [for_each ret rebuild].
      rewrite (bind_lift _ (PDict c))
        by (cbn [py_setitem]; now rewrite (dict_set_same _ _ _ Hf)).
      rewrite (bind_lift _ false)
        by (cbn [py_contains]; unfold dict_mem; now rewrite Hl).
      reflexivity.
    + rewrite (bind_lift _ (PList []))
        by (cbn [py_get]; now rewrite (dict_get_default_some _ _ _ PNone Hf)).
      rewrite (bind_lift _ []) by reflexivity.
      reflexivity.
Qed.

(** A configuration with an empty list of faults. *)
Lemma unusable_configuration_witness :
  _configByFile (fun _ => "token") (PDict [("faults", PList [])])
    {| next_uuid := 0; log := [] |}
  = Some ([], {| next_uuid := 0; log := [] |})
  /\ _configByFile (fun _ => "token") (PDict [("log", PNone)])
       {| next_uuid := 0; log := [] |}
     = None.
Proof.
  destruct (unusable_configuration (fun _ => "token") Example.net
              (fun _ => PNone) {| next_uuid := 0; log := [] |})
    as [_ [Hmissing Hempty]].
  split.
  - apply (Hempty [("faults", PList [])]); reflexivity.
  - apply (Hmissing [("log", PNone)]). reflexivity.
Defined.

(** ** The injector process *)

Section ProcessFacts.
Import Run Process.

Lemma sent_app (l1 l2 : list Process.event) :
  sent (l1 ++ l2) = sent l1 ++ sent l2.
Proof.
  induction l1 as [|e l1 IH]; [reflexivity|].
  destruct e as [[]| |]; cbn; now rewrite ?IH.
Qed.

Lemma started_app (l1 l2 : list Process.event) :
  started (l1 ++ l2) = started l1 ++ started l2.
Proof.
  induction l1 as [|e l1 IH]; [reflexivity|].
  destruct e as [[]| |]; cbn; now rewrite ?IH.
Qed.

Lemma sent_units (l : list Run.event) :
  Forall unit_event l -> sent (map Ev l) = [] /\ started (map Ev l) = [].
Proof.
  induction 1 as [|e l He _ [IH1 IH2]]; [now split|].
  destruct e; cbn in *; try contradiction; auto.
Qed.

Lemma sent_coroutines (k n : nat) :
  sent (map Ev (map FaultCoroutine (seq k n))) = []
  /\ started (map Ev (map FaultCoroutine (seq k n))) = seq k n.
Proof.
  revert k. induction n as [|n IH]; intros k; [now split|].
  cbn. destruct (IH (S k)) as [-> ->]. now split.
Qed.

Lemma before_join_sent_started (n : nat) (logger : bool)
    (schedule : list (nat * outcome)) :
  sent (map Ev (before_join n logger schedule)) = []
  /\ started (map Ev (before_join n logger schedule)) = seq 0 n.
Proof.
  unfold before_join.
  destruct (sent_units _ (gather_unit_events schedule (seq 0 n))) as [Hs Hst].
  destruct (sent_coroutines 0 n) as [Hc Hcs].
  rewrite !map_app, !sent_app, !started_app, Hc, Hcs, Hs, Hst.
  destruct logger; cbn; rewrite ?app_nil_r; split; reflexivity.
Qed.

(** The messages and the units of a run of [go]. *)
Lemma go_sent_started (n : nat) (logger : bool)
    (schedule : list (nat * outcome)) :
  sent (map Ev (go n logger schedule))
  = match snd (gather (seq 0 n) schedule) with
    | Joined => [MESSAGE_INJECTION_DONE]
    | _ => []
    end
  /\ started (map Ev (go n logger schedule)) = seq 0 n.
Proof.
  rewrite go_cut.
  destruct (before_join_sent_started n logger schedule) as [Hs Hst].
  rewrite map_app, sent_app, started_app, Hs, Hst.
  destruct (snd (gather (seq 0 n) schedule)), logger; cbn;
    rewrite ?app_nil_r; split; reflexivity.
Qed.

(** The same when the last step of a run with a logger is not reached. *)
Lemma go_removelast_sent_started (n : nat)
    (schedule : list (nat * outcome)) :
  snd (gather (seq 0 n) schedule) = Joined ->
  sent (removelast (map Ev (go n true schedule))) = [MESSAGE_INJECTION_DONE]
  /\ started (removelast (map Ev (go n true schedule))) = seq 0 n.
Proof.
  intros Hj. rewrite go_cut, Hj.
  change (Send MESSAGE_INJECTION_DONE :: teardown true)
    with ([Send MESSAGE_INJECTION_DONE; LoggerStop; Await LogTask]
          ++ [Await LogTaskActivator]).
  rewrite app_assoc, (map_app Ev _ [Await LogTaskActivator]).
  cbn [map]. rewrite removelast_last.
  destruct (before_join_sent_started n true schedule) as [Hs Hst].
  rewrite map_app, sent_app, started_app, Hs, Hst. cbn.
  rewrite app_nil_r. split; reflexivity.
Qed.

(** The messages and the units of [wait_until_go]. *)
Lemma wait_until_go_sent_started (n : nat) (logger : bool)
    (from_mininet : pipe) (schedule : list (nat * outcome))
    (log_task_ends : bool) :
  let evs := fst (wait_until_go n logger from_mininet schedule log_task_ends) in
  match from_mininet with
  | m :: _ =>
      if String.eqb m MESSAGE_START_INJECTING then
        sent evs
        = match snd (gather (seq 0 n) schedule) with
          | Joined => [MESSAGE_INJECTION_DONE]
          | _ => []
          end
        /\ started evs = seq 0 n
      else sent evs = [] /\ started evs = []
  | [] => sent evs = [] /\ started evs = []
  end.
Proof.
  cbv zeta. unfold wait_until_go.
  destruct from_mininet as [|m rest]; cbn [recv_bytes]; [now split|].
  destruct (String.eqb m MESSAGE_START_INJECTING); [|now split].
  destruct (go_sent_started n logger schedule) as [Hs Hst].
  destruct (snd (gather (seq 0 n) schedule)) eqn:Hj.
  - destruct logger.
    + destruct log_task_ends.
      * unfold listen_for_log_write.
        destruct rest as [|m' rest']; cbn [poll recv_bytes fst].
        -- cbn [sent started]. now rewrite Hs, Hst.
        -- destruct (String.eqb m' MESSAGE_WRITE_LOGS); cbn [fst sent started];
             rewrite sent_app, started_app, Hs, Hst; cbn;
             rewrite ?app_nil_r; split; reflexivity.
      * cbn [fst sent started].
        exact (go_removelast_sent_started n schedule Hj).
    + cbn [fst sent started]. now rewrite Hs, Hst.
  - cbn [fst sent started]. now rewrite Hs, Hst.
  - cbn [fst sent started]. now rewrite Hs, Hst.
Qed.

(** X16: the messages of the injector process.  Over its whole life the
    process writes nothing when its construction raises, and otherwise the
    ready message first, followed by the done message exactly when the
    first message it receives is the go message and all its fault units
    return; it never writes the setup-error message.  The fault units are
    started only after the go message: with any other first message none
    is started and the process exits. *)
Theorem injector_messages (uuid4 : nat -> string)
    (int_of_str : string -> option Z) (agnostic_config : pyval)
    (from_mininet : pipe) (schedule : list (nat * outcome))
    (log_task_ends : bool) (st : cfg_state) :
  let r := entrypoint_for_fault_controller uuid4 int_of_str agnostic_config
             from_mininet schedule log_task_ends st in
  (init uuid4 int_of_str agnostic_config st = None ->
   r = ([], Dies))
  /\ (forall faults fault_logger evs st',
        init uuid4 int_of_str agnostic_config st
        = Some ((faults, fault_logger, evs), st') ->
        match from_mininet with
        | m :: _ =>
            if String.eqb m MESSAGE_START_INJECTING then
              sent (fst r)
              = MESSAGE_SETUP_DONE ::
                match snd (gather (seq 0 (length faults)) schedule) with
                | Joined => [MESSAGE_INJECTION_DONE]
                | _ => []
                end
              /\ started (fst r) = seq 0 (length faults)
            else sent (fst r) = [MESSAGE_SETUP_DONE]
                 /\ started (fst r) = [] /\ snd r = Exits
        | [] => sent (fst r) = [MESSAGE_SETUP_DONE]
                /\ started (fst r) = [] /\ snd r = WaitsForMessage
        end)
  /\ ~ In MESSAGE_SETUP_ERROR (sent (fst r)).
Proof.
  cbv zeta. unfold entrypoint_for_fault_controller.
  destruct (init uuid4 int_of_str agnostic_config st)
    as [[[[faults fl] evs] st']|] eqn:Hinit.
  2: { split; [reflexivity|]. split; [discriminate|]. intros []. }
  assert (Hevs : evs = [Ev (Debug ("FI: Sending setup finished command"
                                   ++ Regex.NL));
                        Ev (Send MESSAGE_SETUP_DONE)]).
  { unfold init in Hinit.
    apply bind_inv in Hinit as [f0 [s0 [_ Hinit]]].
    apply bind_inv in Hinit as [l0 [s1 [_ Hinit]]].
    now injection Hinit as _ _ <- _. }
  set (logger := match fl with Some _ => true | None => false end).
  pose proof (wait_until_go_sent_started (length faults) logger from_mininet
                schedule log_task_ends) as Hw. cbv zeta in Hw.
  destruct (wait_until_go (length faults) logger from_mininet schedule
              log_task_ends) as [evs' e] eqn:Hwait.
  cbn [fst snd] in *.
  assert (Hsent : sent (evs ++ evs') = MESSAGE_SETUP_DONE :: sent evs'
                  /\ started (evs ++ evs') = started evs').
  { rewrite sent_app, started_app, Hevs. split; reflexivity. }
  destruct Hsent as [Hs Hst].
  split; [discriminate|]. split.
  - intros faults0 fl0 evs0 st0 [= <- <- <- <-].
    rewrite Hs, Hst.
    destruct from_mininet as [|m rest].
    + destruct Hw as [-> ->]. repeat split.
      unfold wait_until_go in Hwait. cbn in Hwait. now injection Hwait.
    + destruct (String.eqb m MESSAGE_START_INJECTING) eqn:Hm.
      * destruct Hw as [-> ->]. split; reflexivity.
      * destruct Hw as [-> ->]. repeat split.
        unfold wait_until_go in Hwait. cbn [recv_bytes] in Hwait.
        rewrite Hm in Hwait. now injection Hwait.
  - rewrite Hs. intros [H | H]; [discriminate H|].
    destruct from_mininet as [|m rest].
    + destruct Hw as [Hw _]. now rewrite Hw in H.
    + destruct (String.eqb m MESSAGE_START_INJECTING).
      * destruct Hw as [Hw _]. rewrite Hw in H.
        destruct (snd (gather _ schedule)); [|exact H|exact H].
        destruct H as [H | []]. discriminate H.
      * destruct Hw as [Hw _]. now rewrite Hw in H.
Qed.

End ProcessFacts.

(** ** The two processes together *)

Section SessionFacts.
Import Run Process.

Lemma entrypoint_sent (uuid4 : nat -> string)
    (int_of_str : string -> option Z) (agnostic_config : pyval)
    (from_mininet : pipe) (schedule : list (nat * outcome))
    (log_task_ends : bool) (st st' : cfg_state)
    (faults : list injector) (fault_logger : option FaultLogger)
    (evs : list Process.event) :
  init uuid4 int_of_str agnostic_config st
  = Some ((faults, fault_logger, evs), st') ->
  let w := wait_until_go (length faults)
             (match fault_logger with Some _ => true | None => false end)
             from_mininet schedule log_task_ends in
  let r := entrypoint_for_fault_controller uuid4 int_of_str agnostic_config
             from_mininet schedule log_task_ends st in
  sent (fst r) = MESSAGE_SETUP_DONE :: sent (fst w)
  /\ started (fst r) = started (fst w)
  /\ snd r = snd w.
Proof.
  intros Hinit. cbv zeta. unfold entrypoint_for_fault_controller.
  rewrite Hinit.
  assert (Hevs : evs = [Ev (Debug ("FI: Sending setup finished command"
                                   ++ Regex.NL));
                        Ev (Send MESSAGE_SETUP_DONE)]).
  { unfold init in Hinit.
    apply bind_inv in Hinit as [f0 [s0 [_ Hinit]]].
    apply bind_inv in Hinit as [l0 [s1 [_ Hinit]]].
    now injection Hinit as _ _ <- _. }
  destruct (wait_until_go _ _ from_mininet schedule log_task_ends)
    as [evs' e].
  cbn [fst snd]. rewrite sent_app, started_app, Hevs. repeat split.
Qed.

(** X17: the setup handshake.  The constructor of the controller returns
    after reading one message from the injector, whatever that message
    is, and leaves the controller inactive; it waits without end when
    nothing arrives.  With the injector of this module on the other side:
    when the injector's construction raises, nothing is ever written and
    the controller's constructor never returns; when it succeeds, the
    message read is the ready message, and [is_active] answers [False]
    until [go] is called. *)
Theorem setup_handshake (uuid4 : nat -> string)
    (int_of_str : string -> option Z) (agnostic_config : pyval)
    (from_mininet : pipe) (schedule : list (nat * outcome))
    (log_task_ends logger_active : bool) (st : cfg_state) :
  let r := entrypoint_for_fault_controller uuid4 int_of_str agnostic_config
             from_mininet schedule log_task_ends st in
  (forall m rest,
     exists records,
       Session.await_setup logger_active (m :: rest)
       = Some (Starter.mk false logger_active [] rest 0, records))
  /\ (init uuid4 int_of_str agnostic_config st = None ->
      Session.await_setup logger_active (sent (fst r)) = None)
  /\ (forall x st',
        init uuid4 int_of_str agnostic_config st = Some (x, st') ->
        exists rest self,
          sent (fst r) = MESSAGE_SETUP_DONE :: rest
          /\ Session.await_setup logger_active (sent (fst r))
             = Some (self,
                     [(LDebug, [Lit ("Fault process started" ++ Regex.NL)]);
                      (LDebug, [Lit ("Received message from FI" ++ Regex.NL)]);
                      (LDebug,
                       [Lit ("FaultController has signalled that it's ready"
                             ++ Regex.NL)])])
          /\ Starter.recv_pipe_faults_to_mininet self = rest
          /\ Starter.is_active self = Some (false, self)).
Proof.
  cbv zeta. split; [|split].
  - intros m rest. unfold Session.await_setup. cbn [recv_bytes]. eauto.
  - intros Hinit. unfold entrypoint_for_fault_controller. now rewrite Hinit.
  - intros [[faults fl] evs] st' Hinit.
    destruct (entrypoint_sent uuid4 int_of_str agnostic_config from_mininet
                schedule log_task_ends st st' faults fl evs Hinit)
      as [Hs _].
    rewrite Hs. eexists _, _. split; [reflexivity|].
    unfold Session.await_setup. cbn [recv_bytes].
    split; [reflexivity|]. split; reflexivity.
Qed.

(** An injector with an empty list of faults. *)
Lemma setup_handshake_witness :
  exists rest self records,
    Session.await_setup false
      (sent (fst (entrypoint_for_fault_controller (fun _ => "token")
                    (fun _ => None) (PDict [("faults", PList [])])
                    [] [] true {| next_uuid := 0; log := [] |})))
    = Some (self, records)
    /\ Starter.recv_pipe_faults_to_mininet self = rest
    /\ Starter.is_active self = Some (false, self).
Proof.
  destruct (setup_handshake (fun _ => "token") (fun _ => None)
              (PDict [("faults", PList [])]) [] [] true false
              {| next_uuid := 0; log := [] |}) as [_ [_ H]].
  destruct (H _ _ eq_refl) as [rest [self [_ [Ha [Hr Hi]]]]].
  exists rest, self. eexists. split; [exact Ha|]. split; [exact Hr | exact Hi].
Defined.

(** X18: a whole session.  The injector is constructed with some fault
    units, with or without a logger; the controller knows of the logger
    exactly when there is one; the caller triggers the injection once and
    the controller later exits; every fault unit returns and the task of
    the logger ends once stopped.  Then the injector starts every unit,
    writes the ready message and then the done message and nothing else,
    and exits; the controller's constructor returns on the ready message;
    and once the done message has arrived a call of [is_active] after
    [go] reads it, returns [False] and leaves the channel empty. *)
Theorem clean_session (uuid4 : nat -> string)
    (int_of_str : string -> option Z) (agnostic_config : pyval)
    (st st' : cfg_state) (faults : list injector)
    (fault_logger : option FaultLogger) (evs : list Process.event)
    (order : list nat) :
  init uuid4 int_of_str agnostic_config st
  = Some ((faults, fault_logger, evs), st') ->
  (forall i, i < length faults -> In i order) ->
  let logger := match fault_logger with Some _ => true | None => false end in
  let s0 := Starter.mk false logger [] [] 0 in
  let r := entrypoint_for_fault_controller uuid4 int_of_str agnostic_config
             (Session.at_exit (Starter.go s0))
             (map (fun i => (i, Returned)) order) true st in
  Session.at_exit (Starter.go s0)
  = MESSAGE_START_INJECTING ::
    (if logger then [MESSAGE_WRITE_LOGS] else [])
  /\ snd r = Exits
  /\ sent (fst r) = [MESSAGE_SETUP_DONE; MESSAGE_INJECTION_DONE]
  /\ started (fst r) = seq 0 (length faults)
  /\ exists records,
       Session.await_setup logger (sent (fst r))
       = Some (Starter.mk false logger [] [MESSAGE_INJECTION_DONE] 0, records)
       /\ Starter.is_active
            (Starter.go (Starter.mk false logger [] [MESSAGE_INJECTION_DONE] 0))
          = Some (false,
                  Starter.mk false logger [MESSAGE_START_INJECTING] []
                    (if logger then 1 else 0)).
Proof.
  intros Hinit Hall logger s0 r.
  assert (Hout : Session.at_exit (Starter.go s0)
                 = MESSAGE_START_INJECTING ::
                   (if logger then [MESSAGE_WRITE_LOGS] else [])).
  { unfold Session.at_exit, s0. cbn. now destruct logger. }
  split; [exact Hout|].
  subst r. rewrite Hout.
  set (out := MESSAGE_START_INJECTING ::
              (if logger then [MESSAGE_WRITE_LOGS] else [])).
  set (schedule := map (fun i => (i, Returned)) order).
  destruct (entrypoint_sent uuid4 int_of_str agnostic_config out schedule
              true st st' faults fault_logger evs Hinit) as [Hs [Hst He]].
  fold logger in Hs, Hst, He.
  assert (Hj : snd (gather (seq 0 (length faults)) schedule) = Joined).
  { apply gather_completes. intros i Hi. apply Hall.
    apply in_seq in Hi. lia. }
  pose proof (wait_until_go_sent_started (length faults) logger out
                schedule true) as Hw.
  cbv zeta in Hw. unfold out at 1 in Hw.
  rewrite String.eqb_refl, Hj in Hw. destruct Hw as [Hw1 Hw2].
  assert (Hend : snd (wait_until_go (length faults) logger out schedule true)
                 = Exits).
  { unfold out, wait_until_go. cbn [recv_bytes].
    rewrite String.eqb_refl, Hj. now destruct logger. }
  split; [now rewrite He|].
  split; [now rewrite Hs, Hw1|]. split; [now rewrite Hst|].
  rewrite Hs, Hw1. unfold Session.await_setup. cbn [recv_bytes].
  eexists. split; [reflexivity|].
  now destruct logger.
Qed.

(** Two fault units and a logger. *)
Lemma clean_session_witness :
  snd (entrypoint_for_fault_controller (fun _ => "token") (fun _ => None)
         (PDict [("faults",
                  PList [PDict [("node_fault",
                                 PDict [("type", PStr "node_fault:stress");
                                        ("identifiers",
                                         PList [PStr "(101, None, 'h1')";
                                                PStr "(102, None, 'h2')"])])]]);
                 ("log", PDict [("commands", PList [])])])
         [MESSAGE_START_INJECTING; MESSAGE_WRITE_LOGS]
         (map (fun i => (i, Returned)) [1; 0]) true
         {| next_uuid := 0; log := [] |})
  = Exits.
Proof.
  pose (cfg := PDict [("faults",
                  PList [PDict [("node_fault",
                                 PDict [("type", PStr "node_fault:stress");
                                        ("identifiers",
                                         PList [PStr "(101, None, 'h1')";
                                                PStr "(102, None, 'h2')"])])]]);
                 ("log", PDict [("commands", PList [])])]).
  destruct (init (fun _ => "token") (fun _ => None) cfg
              {| next_uuid := 0; log := [] |})
    as [[[[faults fl] evs] st']|] eqn:Hinit.
  - assert (Hshape : length faults = 2
                     /\ match fl with Some _ => true | None => false end = true).
    { vm_compute in Hinit. injection Hinit as <- <- _ _. split; reflexivity. }
    destruct Hshape as [Hlen Hlog].
    destruct (clean_session (fun _ => "token") (fun _ => None) cfg
                {| next_uuid := 0; log := [] |} st' faults fl evs [1; 0] Hinit)
      as [_ [Hexit _]].
    + rewrite Hlen. intros i Hi. destruct i as [|[|i]]; cbn; auto. lia.
    + rewrite Hlog in Hexit. exact Hexit.
  - vm_compute in Hinit. discriminate Hinit.
Defined.

(** X19: a second [go].  When the caller triggers the injection twice, the
    controller writes the go message twice and arms the exit hook twice
    (with a logger).  The injector takes the first go message as the
    start; with a logger, once the units have returned and the log task
    has ended, its log listener reads the second go message instead of the
    message to write the logs, reports it as unexpected without stopping
    the logger again, and the process exits with the two messages of the
    exit hooks unread. *)
Theorem second_go_reaches_the_listener (n : nat)
    (schedule : list (nat * outcome)) (self : Starter.t) :
  Starter.send_pipe_mininet_to_faults self = [] ->
  Starter.atexit self = 0 ->
  Starter.logger_active self = true ->
  snd (gather (seq 0 n) schedule) = Joined ->
  let out := Session.at_exit (Starter.go (Starter.go self)) in
  out = [MESSAGE_START_INJECTING; MESSAGE_START_INJECTING;
         MESSAGE_WRITE_LOGS; MESSAGE_WRITE_LOGS]
  /\ wait_until_go n true out schedule true
     = (Info ("Fault injector is waiting for go command" ++ Regex.NL)
        :: map Ev (go n true schedule)
        ++ [Error ("Received unexpected message while waiting for log-to-file message"
                   ++ Regex.NL)],
        Exits)
  /\ listen_for_log_write true (tl out)
     = Some ([Error ("Received unexpected message while waiting for log-to-file message"
                     ++ Regex.NL)],
             [MESSAGE_WRITE_LOGS; MESSAGE_WRITE_LOGS]).
Proof.
  intros Hp Ha Hl Hj out.
  assert (Hout : out = [MESSAGE_START_INJECTING; MESSAGE_START_INJECTING;
                        MESSAGE_WRITE_LOGS; MESSAGE_WRITE_LOGS]).
  { unfold out, Session.at_exit. cbn. rewrite Hp, Ha, Hl. reflexivity. }
  split; [exact Hout|]. rewrite Hout. split; [|reflexivity].
  unfold wait_until_go. cbn [recv_bytes]. rewrite String.eqb_refl, Hj.
  reflexivity.
Qed.

(** A controller with a logger and an injector without fault units. *)
Lemma second_go_reaches_the_listener_witness :
  snd (wait_until_go 0 true
         (Session.at_exit
            (Starter.go (Starter.go (Starter.mk false true [] [] 0))))
         [] true)
  = Exits.
Proof.
  destruct (second_go_reaches_the_listener 0 []
              (Starter.mk false true [] [] 0) eq_refl eq_refl eq_refl eq_refl)
    as [_ [H _]].
  cbv zeta in H. now rewrite H.
Defined.

End SessionFacts.

(** An injector without fault units whose first message is not the go
    message. *)
Lemma injector_messages_witness :
  Process.sent
    (fst (Process.entrypoint_for_fault_controller (fun _ => "token")
            (fun _ => None) (PDict [("faults", PList [])])
            [MESSAGE_WRITE_LOGS] [] true {| next_uuid := 0; log := [] |}))
  = [MESSAGE_SETUP_DONE].
Proof.
  destruct (injector_messages (fun _ => "token") (fun _ => None)
              (PDict [("faults", PList [])]) [MESSAGE_WRITE_LOGS] [] true
              {| next_uuid := 0; log := [] |}) as [_ [H _]].
  destruct (H _ _ _ _ eq_refl) as [Hs _]. exact Hs.
Defined.

(** ** More on the units and on the polling of the controller *)

Lemma append_inj_l (p s1 s2 : string) :
  (p ++ s1 = p ++ s2)%string -> s1 = s2.
Proof.
  induction p as [|c p IH]; cbn; [auto|]. intros [= H]. now apply IH.
Qed.

(** X20: within one fault entry, two units have the same tag exactly when
    their identifiers have the same reference string: units of distinct
    references are told apart by their tags, and a reference listed twice
    yields two units with one tag. *)
Theorem unit_tags_follow_references (uuid4 : nat -> string) (key : string)
    (d rest : list (string * pyval)) (ty kind : string) (is_link : bool)
    (ts : list (option Z * option string * string)) (st st' : cfg_state)
    (units : list injector) :
  dict_get d "type" = Some (PStr ty) ->
  (if is_link
   then Regex.match_prefix_word "link_fault:" ty = Some kind
   else Regex.match_prefix_word "node_fault:" ty = Some kind) ->
  dict_get d "identifiers" = Some (PList (map transferred ts)) ->
  dict_get d "target_traffic" = None
  \/ (exists tt, dict_get d "target_traffic" = Some (PDict tt)) ->
  (forall v, dict_get d "tag" = Some v -> v = PNone \/ exists s, v = PStr s) ->
  config_fault_object uuid4 (PDict ((key, PDict d) :: rest)) st
  = Some (units, st') ->
  forall i j ti tj ui uj,
    nth_error ts i = Some ti -> nth_error ts j = Some tj ->
    nth_error units i = Some ui -> nth_error units j = Some uj ->
    (tag ui = tag uj <-> snd ti = snd tj).
Proof.
  intros Hty Hkind Hids Htt Htag Hc i j ti tj ui uj Hti Htj Hui Huj.
  destruct (config_fault_object_units uuid4 key d rest ty kind is_link ts st
              Hty Hkind Hids Htt Htag) as [targs [st1 [st2 [_ [Hc' _]]]]].
  rewrite Hc in Hc'. injection Hc' as -> _.
  rewrite (map_nth_error _ _ _ Hti) in Hui.
  rewrite (map_nth_error _ _ _ Htj) in Huj.
  injection Hui as <-. injection Huj as <-.
  assert (Htags : forall t,
            tag (expected_unit is_link d targs kind (entry_tag uuid4 d st) t)
            = PStr (entry_tag uuid4 d st ++ "@" ++ snd t)).
  { intros t. unfold expected_unit. now destruct is_link. }
  rewrite !Htags. split.
  - intros [= H]. apply append_inj_l in H.
    now apply (append_inj_l "@") in H.
  - now intros ->.
Qed.

(** The reference [h1] listed twice, then [h2]. *)
Lemma unit_tags_follow_references_witness :
  exists u0 u1 u2 st',
    config_fault_object (fun _ => "token")
      (PDict [("node_fault",
               PDict [("type", PStr "node_fault:stress");
                      ("identifiers",
                       PList [PStr "(101, None, 'h1')";
                              PStr "(101, None, 'h1')";
                              PStr "(102, None, 'h2')"])])])
      {| next_uuid := 0; log := [] |}
    = Some ([u0; u1; u2], st')
    /\ (tag u0 = tag u1 <-> "h1"%string = "h1"%string)
    /\ (tag u0 = tag u2 <-> "h1"%string = "h2"%string).
Proof.
  destruct (config_fault_object (fun _ => "token")
      (PDict [("node_fault",
               PDict [("type", PStr "node_fault:stress");
                      ("identifiers",
                       PList [PStr "(101, None, 'h1')";
                              PStr "(101, None, 'h1')";
                              PStr "(102, None, 'h2')"])])])
      {| next_uuid := 0; log := [] |}) as [[units st']|] eqn:Hc.
  - pose proof (unit_tags_follow_references (fun _ => "token") "node_fault"
                  [("type", PStr "node_fault:stress");
                   ("identifiers",
                    PList [PStr "(101, None, 'h1')";
                           PStr "(101, None, 'h1')";
                           PStr "(102, None, 'h2')"])]
                  [] "node_fault:stress" "stress" false
                  [(Some 101%Z, None, "h1"); (Some 101%Z, None, "h1");
                   (Some 102%Z, None, "h2")]
                  {| next_uuid := 0; log := [] |} st' units
                  eq_refl eq_refl eq_refl (or_introl eq_refl)
                  (fun v H => match H in (_ = o)
                                    return (match o with
                                            | Some _ => _
                                            | None => True
                                            end)
                              with eq_refl => I end)
                  Hc) as Hiff.
    vm_compute in Hc. injection Hc as <- <-.
    eexists _, _, _, _. split; [reflexivity|]. split.
    + exact (Hiff 0 1 _ _ _ _ eq_refl eq_refl eq_refl eq_refl).
    + exact (Hiff 0 2 _ _ _ _ eq_refl eq_refl eq_refl eq_refl).
  - vm_compute in Hc. discriminate Hc.
Defined.

Lemma for_each_app {A B : Type} (f : A -> M (list B)) (l1 l2 : list A)
    (st : cfg_state) :
  for_each f (l1 ++ l2) st =
  match for_each f l1 st with
  | Some (bs1, st1) =>
      match for_each f l2 st1 with
      | Some (bs2, st2) => Some (bs1 ++ bs2, st2)
      | None => None
      end
  | None => None
  end.
Proof.
  revert st. induction l1 as [|a l1 IH]; intros st.
  - cbn [app for_each ret]. now destruct (for_each f l2 st) as [[bs2 st2]|].
  - cbn [app for_each]. unfold bind.
    destruct (f a st) as [[bs st0]|]; [|reflexivity].
    rewrite IH.
    destruct (for_each f l1 st0) as [[bs1 st1]|]; [|reflexivity].
    unfold ret.
    destruct (for_each f l2 st1) as [[bs2 st2]|]; [|reflexivity].
    now rewrite app_assoc.
Qed.

(** X21: a tag that is neither a string nor [None] (a number, say).  For
    an entry with a well-formed type and such a tag, the injector raises
    as soon as the entry has one identifier, when it concatenates the tag
    with [@]; with an empty identifier list the entry builds no unit and
    nothing is raised. *)
Theorem tag_must_be_a_string (uuid4 : nat -> string) (key : string)
    (d rest : list (string * pyval)) (ty kind : string) (is_link : bool)
    (ts : list (option Z * option string * string)) (v : pyval)
    (st : cfg_state) :
  dict_get d "type" = Some (PStr ty) ->
  (if is_link
   then Regex.match_prefix_word "link_fault:" ty = Some kind
   else Regex.match_prefix_word "node_fault:" ty = Some kind) ->
  dict_get d "identifiers" = Some (PList (map transferred ts)) ->
  dict_get d "target_traffic" = None
  \/ (exists tt, dict_get d "target_traffic" = Some (PDict tt)) ->
  dict_get d "tag" = Some v ->
  v <> PNone -> (forall s, v <> PStr s) ->
  match ts with
  | [] =>
      exists st', config_fault_object uuid4 (PDict ((key, PDict d) :: rest)) st
                  = Some ([], st')
  | _ :: _ =>
      config_fault_object uuid4 (PDict ((key, PDict d) :: rest)) st = None
  end.
Proof.
  intros Hty Hkind Hids Htt Htag Hnone Hstr.
  destruct (target_arguments_returns d st Htt)
    as [[[proto src] dst] [st1 [Hta Hn]]].
  assert (Hfd : dict_get_default ((key, PDict d) :: rest) key PNone = PDict d).
  { unfold dict_get_default. cbn [dict_get]. now rewrite String.eqb_refl. }
  assert (Hadd : str_add v (PStr "@") = None).
  { destruct v; try reflexivity. now destruct (Hstr s). }
  assert (Htg : match v with PNone => fresh_tag uuid4 | _ => ret v end
                = ret v) by (destruct v; congruence).
  assert (Hlink : Regex.match_prefix_word "link_fault:" ty
                  = if is_link then Some kind else None).
  { destruct is_link; [exact Hkind|].
    exact (node_fault_not_link_fault ty kind Hkind). }
  destruct ts as [|[[p i] r] ts]; unfold config_fault_object;
    lift_step ltac:(cbn [first_key]);
    lift_step ltac:(cbn [py_get]; rewrite Hfd);
    (unfold bind at 1; rewrite Hta);
    lift_step ltac:(cbn [py_get]);
    lift_step ltac:(cbn [py_get];
                    rewrite (dict_get_default_some d "tag" _ PNone Htag));
    rewrite Htg, bind_ret;
    do 5 lift_step ltac:(cbn [py_get]);
    lift_step ltac:(cbn [py_get];
                    rewrite (dict_get_default_some d "type" _ PNone Hty));
    cbv beta iota; rewrite Hlink; destruct is_link; rewrite ?Hkind;
    lift_step ltac:(cbn [py_get];
                    rewrite (dict_get_default_some d "identifiers" _ PNone Hids));
    lift_step ltac:(cbn [py_iter]).
  - eexists. reflexivity.
  - eexists. reflexivity.
  - cbn [map for_each]. unfold bind at 1.
    unfold transferred at 1. cbn [fst snd].
    lift_step ltac:(cbn [literal_eval_value];
                    rewrite literal_eval_repr_triple).
    do 3 lift_step ltac:(cbn [Literal.triple_value py_index nth_error]).
    unfold bind at 1. now rewrite Hadd.
  - cbn [map for_each]. unfold bind at 1.
    unfold transferred at 1. cbn [fst snd].
    lift_step ltac:(cbn [literal_eval_value];
                    rewrite literal_eval_repr_triple).
    do 2 lift_step ltac:(cbn [Literal.triple_value py_index nth_error]).
    unfold bind at 1. now rewrite Hadd.
Qed.

(** The tag 5 on an entry with one identifier. *)
Lemma tag_must_be_a_string_witness :
  config_fault_object (fun _ => "token")
    (PDict [("link_fault",
             PDict [("type", PStr "link_fault:delay");
                    ("tag", PInt 5);
                    ("identifiers", PList [PStr "(101, 'h1_eth0', 'h1->h2')"])])])
    {| next_uuid := 0; log := [] |}
  = None.
Proof.
  apply (tag_must_be_a_string (fun _ => "token") "link_fault"
           [("type", PStr "link_fault:delay");
            ("tag", PInt 5);
            ("identifiers", PList [PStr "(101, 'h1_eth0', 'h1->h2')"])]
           [] "link_fault:delay" "delay" true
           [(Some 101%Z, Some "h1_eth0", "h1->h2")] (PInt 5));
    try reflexivity; try discriminate.
  left. reflexivity.
Defined.

(** X22: all or nothing.  When one fault entry makes the injector raise,
    the whole construction raises, whatever the entries before it built
    and whatever follows it: no unit is kept, the process ends without
    writing any message, not even the ready message, and no fault unit is
    started. *)
Theorem one_bad_entry_stops_the_injector (uuid4 : nat -> string)
    (int_of_str : string -> option Z) (c : list (string * pyval))
    (before after : list pyval) (entry : pyval)
    (units : list injector) (st st1 : cfg_state)
    (from_mininet : pipe) (schedule : list (nat * Run.outcome))
    (log_task_ends : bool) :
  dict_get c "faults" = Some (PList (before ++ entry :: after)) ->
  for_each (config_fault_object uuid4) before st = Some (units, st1) ->
  config_fault_object uuid4 entry st1 = None ->
  _configByFile uuid4 (PDict c) st = None
  /\ Process.entrypoint_for_fault_controller uuid4 int_of_str (PDict c)
       from_mininet schedule log_task_ends st
     = ([], Process.Dies).
Proof.
  intros Hf Hb He.
  assert (Hc : _configByFile uuid4 (PDict c) st = None).
  { unfold _configByFile.
    lift_step ltac:(cbn [py_get];
                    rewrite (dict_get_default_some c "faults" _ PNone Hf)).
    lift_step ltac:(cbn [py_iter]).
    rewrite for_each_app, Hb. cbn [for_each]. unfold bind at 1.
    now rewrite He. }
  split; [exact Hc|].
  unfold Process.entrypoint_for_fault_controller, Process.init.
  unfold bind at 1. now rewrite Hc.
Qed.

(** A good entry followed by an entry with a numeric tag. *)
Lemma one_bad_entry_stops_the_injector_witness :
  Process.entrypoint_for_fault_controller (fun _ => "token") (fun _ => None)
    (PDict [("faults",
             PList [PDict [("node_fault",
                            PDict [("type", PStr "node_fault:stress");
                                   ("identifiers",
                                    PList [PStr "(101, None, 'h1')"])])];
                    PDict [("node_fault",
                            PDict [("type", PStr "node_fault:stress");
                                   ("tag", PInt 5);
                                   ("identifiers",
                                    PList [PStr "(102, None, 'h2')"])])]])])
    [MESSAGE_START_INJECTING] [] true {| next_uuid := 0; log := [] |}
  = ([], Process.Dies).
Proof.
  eapply (one_bad_entry_stops_the_injector (fun _ => "token") (fun _ => None)
            _ [_] [] _).
  - reflexivity.
  - reflexivity.
  - reflexivity.
Defined.

Section PollingFacts.
Import Starter.

(** X23: polling until the done message.  After [go], when [k] messages
    other than the done message are pending in front of the done message,
    the first [k] calls of [is_active] return [True], each discarding one
    of them, the next call returns [False] and discards the done message,
    and the controller is then inactive with exactly the messages behind
    the done message left in the channel. *)
Theorem polling_until_done (self : t) (junk rest : list string) :
  faults_are_active self = true ->
  recv_pipe_faults_to_mininet self
  = junk ++ MESSAGE_INJECTION_DONE :: rest ->
  Forall (fun m => m <> MESSAGE_INJECTION_DONE) junk ->
  run (repeat CallIsActive (S (length junk))) self
  = Some (repeat true (length junk) ++ [false],
          mk false (logger_active self) (send_pipe_mininet_to_faults self)
             rest (atexit self)).
Proof.
  intros Hf Hp Hj. revert self Hf Hp.
  induction Hj as [|m junk Hm _ IH]; intros self Hf Hp.
  - cbn [length repeat run app] in *. unfold is_active.
    rewrite Hf, Hp. cbn [negb poll recv_bytes].
    now rewrite String.eqb_refl.
  - cbn [length]. change (repeat CallIsActive (S (S (length junk))))
      with (CallIsActive :: repeat CallIsActive (S (length junk))).
    cbn [run]. unfold is_active. rewrite Hf, Hp.
    cbn [app negb poll recv_bytes].
    apply String.eqb_neq in Hm. rewrite Hm.
    rewrite (IH (mk true (logger_active self)
                    (send_pipe_mininet_to_faults self)
                    (junk ++ MESSAGE_INJECTION_DONE :: rest) (atexit self)))
      by reflexivity.
    reflexivity.
Qed.

(** Two stray messages in front of the done message. *)
Lemma polling_until_done_witness :
  run [CallIsActive; CallIsActive; CallIsActive]
      (go (init false []
             [MESSAGE_SETUP_DONE; MESSAGE_SETUP_ERROR;
              MESSAGE_INJECTION_DONE; "late"]))
  = Some ([true; true; false],
          mk false false [MESSAGE_START_INJECTING] ["late"] 0).
Proof.
  apply (polling_until_done
           (go (init false []
                  [MESSAGE_SETUP_DONE; MESSAGE_SETUP_ERROR;
                   MESSAGE_INJECTION_DONE; "late"]))
           [MESSAGE_SETUP_DONE; MESSAGE_SETUP_ERROR] ["late"%string]).
  - reflexivity.
  - reflexivity.
  - repeat constructor; discriminate.
Defined.

End PollingFacts.
